(** * flashcard_generator: text fitting, wrapping and batch selection

    A shallow embedding of [src/flashcard_generator.py] together with the
    parts of the Python runtime it calls ([re.sub], [str.strip],
    [str.split], [textwrap.wrap] with its default options, float
    arithmetic, [random.sample]), followed by the properties of the
    program that the specification states.

    Conventions.
    - A Python [str] is a list of characters; a character is an 8-bit code
      point (the Latin-1 range of Unicode), classified as CPython 3.11
      classifies it.
    - A function that can raise returns a [result]; [Raise e] is the
      exception leaving the function.
    - [float] values are IEEE 754 binary64, computed with the Standard
      Library's [SpecFloat] operations at precision 53. *)

From Stdlib Require Import ZArith Ascii String List Bool Arith Lia QArith.
From Stdlib Require Import Floats.SpecFloat.
From Stdlib Require Import Permutation Lqa DecimalString DecimalNat.
Import ListNotations.
Close Scope Q_scope.

Set Implicit Arguments.

(* ===================================================================== *)
(** ** Python values, strings and exceptions *)
(* ===================================================================== *)

Definition str := list ascii.

(** String literals of the source are written [py "..."]. *)
Definition py (s : string) : str := list_ascii_of_string s.

Inductive exn :=
| ValueError
| ZeroDivisionError
| OverflowError
| OSError.

Inductive result (A : Type) :=
| Ok (a : A)
| Raise (e : exn).
Arguments Ok {A} a.
Arguments Raise {A} e.

Definition bind {A B} (r : result A) (k : A -> result B) : result B :=
  match r with
  | Ok a => k a
  | Raise e => Raise e
  end.

Notation "x <- r ;; k" := (bind r (fun x => k))
  (at level 61, r at next level, right associativity).

(** The values a JSON document holds, as [json.load] returns them. *)
#[warnings="-register-all"]
Inductive pyobj :=
| PyNone
| PyBool (b : bool)
| PyInt (z : Z)
| PyStr (s : str)
| PyList (items : list pyobj)
| PyDict (items : list (str * pyobj)).

(** Python truth value of an object ([not x] is its negation). *)
Definition truthy (v : pyobj) : bool :=
  match v with
  | PyNone => false
  | PyBool b => b
  | PyInt z => negb (z =? 0)%Z
  | PyStr s => negb (length s =? 0)
  | PyList l => negb (length l =? 0)
  | PyDict d => negb (length d =? 0)
  end.

Definition code (c : ascii) : nat := nat_of_ascii c.

Definition in_range (lo hi : nat) (c : ascii) : bool :=
  (lo <=? code c) && (code c <=? hi).

Definition is_char (n : nat) (c : ascii) : bool := code c =? n.

(** [str.isspace], which is also the class [\s] of [re] and the set that
    [str.strip()] removes: TAB LF VT FF CR, FS GS RS US, SPACE, NEL, NBSP. *)
Definition isspace (c : ascii) : bool :=
  in_range 9 13 c || in_range 28 32 c || is_char 133 c || is_char 160 c.

(** The class [\d] of [re]. *)
Definition is_digit (c : ascii) : bool := in_range 48 57 c.

(** The class [\w] of [re]: alphanumeric code points and the underscore. *)
Definition is_word_char (c : ascii) : bool :=
  in_range 48 57 c || in_range 65 90 c || is_char 95 c || in_range 97 122 c
  || is_char 170 c || in_range 178 179 c || is_char 181 c
  || in_range 185 186 c || in_range 188 190 c || in_range 192 214 c
  || in_range 216 246 c || in_range 248 255 c.

Definition space : ascii := " "%char.
Definition newline : ascii := ascii_of_nat 10.
Definition tab : ascii := ascii_of_nat 9.
Definition carriage_return : ascii := ascii_of_nat 13.
Definition hyphen : ascii := "-"%char.

Definition is_hyphen (c : ascii) : bool := is_char 45 c.

Fixpoint dropwhile (p : ascii -> bool) (s : str) : str :=
  match s with
  | [] => []
  | c :: r => if p c then dropwhile p r else s
  end.

(** [s.lstrip()], [s.rstrip()], [s.strip()]. *)
Definition lstrip (s : str) : str := dropwhile isspace s.
Definition rstrip (s : str) : str := rev (dropwhile isspace (rev s)).
Definition strip (s : str) : str := rstrip (lstrip s).

(** [s.strip() == ''] *)
Definition is_blank (s : str) : bool := forallb isspace s.

(** [s.split()]: the maximal runs of characters that are not separators.
    [words_aux] returns the run that starts at the head of [s] (empty when
    [s] starts with a separator) and the runs after it. *)
Definition cons_word (w : str) (ws : list str) : list str :=
  match w with
  | [] => ws
  | _ => w :: ws
  end.

Fixpoint words_aux (sep : ascii -> bool) (s : str) : str * list str :=
  match s with
  | [] => ([], [])
  | c :: r =>
      let '(w, ws) := words_aux sep r in
      if sep c then ([], cons_word w ws) else (c :: w, ws)
  end.

Definition words_by (sep : ascii -> bool) (s : str) : list str :=
  cons_word (fst (words_aux sep s)) (snd (words_aux sep s)).

Definition words (s : str) : list str := words_by isspace s.

(** [s.split('\n')] *)
Fixpoint split_lines (s : str) : list str :=
  match s with
  | [] => [[]]
  | c :: r =>
      if is_char 10 c then [] :: split_lines r
      else match split_lines r with
           | l :: ls => (c :: l) :: ls
           | [] => [[c]]
           end
  end.

(** [sep.join(parts)] *)
Fixpoint join (sep : str) (parts : list str) : str :=
  match parts with
  | [] => []
  | [p] => p
  | p :: rest => p ++ sep ++ join sep rest
  end.

(* ===================================================================== *)
(** ** clean_text *)
(* ===================================================================== *)

(** The class [[*_`]]. *)
Definition is_marker (c : ascii) : bool :=
  is_char 42 c || is_char 95 c || is_char 96 c.

(** [re.sub(r'[*_`]', '', text)] *)
Definition remove_markers (text : str) : str :=
  filter (fun c => negb (is_marker c)) text.

(** [re.sub(r'\s+', ' ', text)]: every maximal run of whitespace becomes one
    space.  [in_run] tells that the previous character was whitespace. *)
Fixpoint sub_ws_runs (in_run : bool) (text : str) : str :=
  match text with
  | [] => []
  | c :: r =>
      if isspace c
      then if in_run then sub_ws_runs true r else space :: sub_ws_runs true r
      else c :: sub_ws_runs false r
  end.

Definition collapse_ws (text : str) : str := sub_ws_runs false text.

(** [clean_text(text)]; [None] is Python's [None]. *)
Definition clean_text (text : option str) : str :=
  match text with
  | None => []
  | Some [] => []
  | Some t => strip (collapse_ws (remove_markers t))
  end.

(* ===================================================================== *)
(** ** Float arithmetic (IEEE 754 binary64) *)
(* ===================================================================== *)

Definition prec : Z := 53.
Definition emax : Z := 1024.

(** [float(n)] for an [int]: correctly rounded; an [int] beyond the range
    of a double raises [OverflowError]. *)
Definition float_of_int (n : Z) : result spec_float :=
  match binary_normalize prec emax n 0 false with
  | S754_infinity _ => Raise OverflowError
  | f => Ok f
  end.

(** The literal [0.9], that is 0x1.ccccccccccccdp-1. *)
Definition float_0_9 : spec_float := S754_finite false 8106479329266893 (-53).

(** [int(x)] for a float: truncation toward zero. *)
Definition int_of_float (x : spec_float) : result Z :=
  match x with
  | S754_zero _ => Ok 0%Z
  | S754_infinity _ => Raise OverflowError
  | S754_nan => Raise ValueError
  | S754_finite s m e =>
      let a := (if 0 <=? e then Z.pos m * 2 ^ e else Z.pos m / 2 ^ (- e))%Z in
      Ok (if s then (- a)%Z else a)
  end.

Definition is_zero (x : spec_float) : bool :=
  match x with
  | S754_zero _ => true
  | _ => false
  end.

(** [a / b] on floats: a zero divisor raises. *)
Definition float_div (a b : spec_float) : result spec_float :=
  if is_zero b then Raise ZeroDivisionError else Ok (SFdiv prec emax a b).

(* ===================================================================== *)
(** ** Fonts *)
(* ===================================================================== *)

(** A PIL font handle, as far as the program uses it: [font.getbbox(text)]
    returns [(left, top, right, bottom)]. *)
Record Font := {
  getbbox : str -> Z * Z * Z * Z
}.

Definition bbox_left (b : Z * Z * Z * Z) : Z := fst (fst (fst b)).
Definition bbox_right (b : Z * Z * Z * Z) : Z := snd (fst b).
Definition bbox_bottom (b : Z * Z * Z * Z) : Z := snd b.

(** A fixed-pitch font: every glyph is [w] wide and [h] high. *)
Definition fixed_font (w h : Z) : Font :=
  {| getbbox := fun s => (0, 0, w * Z.of_nat (length s), h)%Z |}.

(* ===================================================================== *)
(** ** textwrap.wrap (CPython 3.11, default options)

    [expand_tabs], [replace_whitespace], [drop_whitespace],
    [break_long_words] and [break_on_hyphens] are on, the indents are
    empty, [tabsize] is 8 and [max_lines] is [None]. *)
(* ===================================================================== *)

Module TextWrap.

(** [_whitespace = '\t\n\x0b\x0c\r '] *)
Definition whitespace (c : ascii) : bool :=
  in_range 9 13 c || is_char 32 c.

(** [text.expandtabs(8)]; [col] is the column reached on the current line. *)
Fixpoint expandtabs (col : nat) (text : str) : str :=
  match text with
  | [] => []
  | c :: r =>
      if is_char 9 c
      then let incr := 8 - col mod 8 in
           repeat space incr ++ expandtabs (col + incr) r
      else c :: expandtabs (if is_char 10 c || is_char 13 c then 0 else S col) r
  end.

(** [text.translate(unicode_whitespace_trans)] *)
Definition translate (text : str) : str :=
  map (fun c => if whitespace c then space else c) text.

Definition munge_whitespace (text : str) : str :=
  translate (expandtabs 0 text).

(** *** [wordsep_re]

    [word_punct] is a word character or one of the seven punctuation marks
    exclamation mark, double quote, apostrophe, ampersand, full stop,
    comma, question mark; [letter = [^\d\W]]. *)
Definition word_punct (c : ascii) : bool :=
  is_word_char c || is_char 33 c || is_char 34 c || is_char 39 c
  || is_char 38 c || is_char 46 c || is_char 44 c || is_char 63 c.

Definition letter (c : ascii) : bool :=
  is_word_char c && negb (is_digit c).

(** Length of the run of hyphens at the head of [s]. *)
Fixpoint hyphen_run (s : str) : nat :=
  match s with
  | c :: r => if is_hyphen c then S (hyphen_run r) else 0
  | [] => 0
  end.

(** Length of the run of whitespace at the head of [s]. *)
Fixpoint ws_run (s : str) : nat :=
  match s with
  | c :: r => if whitespace c then S (ws_run r) else 0
  | [] => 0
  end.

(** The lookahead [(?=-{2,}\w)] at the head of [s]: two hyphens or more,
    then a word character. *)
Definition ahead_emdash (s : str) : bool :=
  (2 <=? hyphen_run s)
  && match skipn (hyphen_run s) s with
     | c :: _ => is_word_char c
     | [] => false
     end.

(** The lookbehind [(?<=word_punct)]; [before] is the text already read,
    last character first. *)
Definition behind_word_punct (before : str) : bool :=
  match before with
  | c :: _ => word_punct c
  | [] => false
  end.

(** The break after a hyphen:
    [-(?: (?<=letter{2}-) | (?<=letter-letter-)) (?= letter -? letter)].
    [before] ends where the hyphen starts, [s] starts with the hyphen. *)
Definition hyphen_break (before s : str) : bool :=
  match s with
  | h :: after =>
      is_hyphen h
      && (match before with
          | l1 :: l2 :: _ => letter l1 && letter l2
          | _ => false
          end
          || match before with
             | l1 :: h2 :: l3 :: _ => letter l1 && is_hyphen h2 && letter l3
             | _ => false
             end)
      && match after with
         | a :: b :: rest =>
             letter a
             && (if is_hyphen b
                 then match rest with
                      | c :: _ => letter c
                      | [] => false
                      end
                 else letter b)
         | _ => false
         end
  | [] => false
  end.

(** The end of a word: [(?=whitespace|\Z)]. *)
Definition ahead_word_end (s : str) : bool :=
  match s with
  | c :: _ => whitespace c
  | [] => true
  end.

(** The third alternative, [nowhitespace+?] followed by one of its three
    endings, after at least one character was taken: how many more
    characters of [s] the match takes.  The quantifier is lazy, so the
    endings are tried before one more character is taken. *)
Fixpoint word_rest (before s : str) : nat :=
  if hyphen_break before s then 1
  else if ahead_word_end s then 0
  else if behind_word_punct before && ahead_emdash s then 0
  else match s with
       | c :: r => S (word_rest (c :: before) r)
       | [] => 0
       end.

(** Length of the match of [wordsep_re] at the head of [s]. *)
Definition match_len (before s : str) : nat :=
  match s with
  | [] => 0
  | c :: r =>
      if whitespace c then ws_run s
      else if behind_word_punct before && ahead_emdash s then hyphen_run s
      else S (word_rest (c :: before) r)
  end.

(** [wordsep_re.split(text)] without the empty strings: the successive
    matches.  [fuel] bounds the number of matches by the length of the
    text. *)
Fixpoint split_from (fuel : nat) (before s : str) : list str :=
  match fuel with
  | 0 => []
  | S fuel' =>
      match s with
      | [] => []
      | _ =>
          let n := match_len before s in
          firstn n s :: split_from fuel' (rev (firstn n s) ++ before) (skipn n s)
      end
  end.

Definition split (text : str) : list str :=
  split_from (length text) [] text.

Definition split_chunks (text : str) : list str :=
  split (munge_whitespace text).

(** *** [_wrap_chunks] *)

Definition total_len (chunks : list str) : nat :=
  list_sum (map (@length ascii) chunks).

(** The inner [while chunks] loop: chunks are moved to the current line
    while they fit. *)
Fixpoint fill_line (width : nat) (cur_line : list str) (cur_len : nat)
    (chunks : list str) : list str * nat * list str :=
  match chunks with
  | [] => (cur_line, cur_len, [])
  | c :: rest =>
      if cur_len + length c <=? width
      then fill_line width (cur_line ++ [c]) (cur_len + length c) rest
      else (cur_line, cur_len, chunks)
  end.

(** [chunk.rfind('-', 0, stop)]: position of the last hyphen before [stop]. *)
Fixpoint rfind_hyphen (chunk : str) (stop : nat) : option nat :=
  match stop, chunk with
  | S stop', c :: r =>
      match rfind_hyphen r stop' with
      | Some i => Some (S i)
      | None => if is_hyphen c then Some 0 else None
      end
  | _, _ => None
  end.

(** [_handle_long_word] with [break_long_words] on.  [cur_len <= width]
    holds when it is called, so [width - cur_len] is not negative. *)
Definition handle_long_word (chunk : str) (rest cur_line : list str)
    (cur_len width : nat) : list str * list str :=
  let space_left := if width <? 1 then 1 else width - cur_len in
  let stop :=
    if space_left <? length chunk
    then match rfind_hyphen chunk space_left with
         | Some hyphen_at =>
             if (0 <? hyphen_at)
                && existsb (fun c => negb (is_hyphen c)) (firstn hyphen_at chunk)
             then hyphen_at + 1
             else space_left
         | None => space_left
         end
    else space_left in
  (cur_line ++ [firstn stop chunk], skipn stop chunk :: rest).

(** The last chunk of the line is dropped when it is blank. *)
Definition drop_trailing_blank (cur_line : list str) : list str :=
  match rev cur_line with
  | last_chunk :: _ => if is_blank last_chunk then removelast cur_line else cur_line
  | [] => cur_line
  end.

(** One pass of the outer [while chunks] loop, for a non-empty stack of
    chunks [c :: rest]: the chunks left and the lines so far. *)
Definition wrap_line (width : nat) (c : str) (rest lines : list str)
    : list str * list str :=
  let chunks1 :=
    if is_blank c && negb (length lines =? 0) then rest else c :: rest in
  let '(cur_line, cur_len, chunks2) := fill_line width [] 0 chunks1 in
  let '(cur_line2, chunks3) :=
    match chunks2 with
    | long :: rest2 =>
        if width <? length long
        then handle_long_word long rest2 cur_line cur_len width
        else (cur_line, chunks2)
    | [] => (cur_line, chunks2)
    end in
  let cur_line3 := drop_trailing_blank cur_line2 in
  let lines' :=
    match cur_line3 with
    | [] => lines
    | _ => lines ++ [concat cur_line3]
    end in
  (chunks3, lines').

(** What is left to wrap; every pass of the outer loop lowers it. *)
Definition weight (chunks : list str) : nat :=
  total_len chunks + length chunks.

(** The outer [while chunks] loop of [_wrap_chunks].  [fuel] bounds the
    number of passes; [None] is returned when it runs out, which
    [wrap_loop_terminates] shows cannot happen from [weight chunks + 1]. *)
Fixpoint wrap_loop (fuel width : nat) (chunks lines : list str)
    : option (list str) :=
  match chunks with
  | [] => Some lines
  | c :: rest =>
      match fuel with
      | 0 => None
      | S fuel' =>
          let '(chunks', lines') := wrap_line width c rest lines in
          wrap_loop fuel' width chunks' lines'
      end
  end.

(** [_wrap_chunks(chunks)] for a positive width. *)
Definition wrap_chunks (width : nat) (chunks : list str) : list str :=
  match wrap_loop (S (weight chunks)) width chunks [] with
  | Some lines => lines
  | None => []
  end.

(** [textwrap.wrap(text, width=width)] *)
Definition wrap (text : str) (width : Z) : result (list str) :=
  if (width <=? 0)%Z then Raise ValueError
  else Ok (wrap_chunks (Z.to_nat width) (split_chunks text)).

End TextWrap.

(* ===================================================================== *)
(** ** wrap_text *)
(* ===================================================================== *)

(** [int(max_width / (avg_char_width * 0.9))], where [avg_char_width] is
    [font.getbbox("x")[2]]. *)
Definition estimate_max_chars (font : Font) (max_width : Z) : result Z :=
  let avg_char_width := bbox_right (getbbox font (py "x")) in
  a <- float_of_int avg_char_width ;;
  let glyph := SFmul prec emax a float_0_9 in
  m <- float_of_int max_width ;;
  q <- float_div m glyph ;;
  int_of_float q.

(** The body of [for line in wrapped]: both branches of the width check
    append the line. *)
Definition append_line (font : Font) (max_width : Z) (lines : list str)
    (line : str) : list str :=
  let bbox := getbbox font line in
  let w := (bbox_right bbox - bbox_left bbox)%Z in
  if (w <=? max_width)%Z then lines ++ [line] else lines ++ [line].

(** The loop [for p in paragraphs]. *)
Fixpoint wrap_paragraphs (font : Font) (max_width max_chars : Z)
    (paragraphs : list str) (lines : list str) : result (list str) :=
  match paragraphs with
  | [] => Ok lines
  | p :: ps =>
      wrapped <- TextWrap.wrap p max_chars ;;
      wrap_paragraphs font max_width max_chars ps
        (fold_left (append_line font max_width) wrapped lines)
  end.

(** [wrap_text(text, font, max_width)]; [None] is Python's [None]. *)
Definition wrap_text (text : option str) (font : Font) (max_width : Z)
    : result (list str) :=
  match text with
  | None => Ok []
  | Some [] => Ok []
  | Some t =>
      max_chars <- estimate_max_chars font max_width ;;
      wrap_paragraphs font max_width max_chars (split_lines t) []
  end.

(* ===================================================================== *)
(** ** Records, history and batch selection *)
(* ===================================================================== *)

(** A record of the question bank.  [id] is read with [c['id']]; the other
    fields are read with [c.get], so they may be absent ([None]). *)
Record Card := {
  id : str;
  subject : option str;
  question : option str;
  answer : option str;
  explanation : option str;
  image : option pyobj
}.

(** [d.get(key, default)] for a string field. *)
Definition get_or (field : option str) (default : str) : str :=
  match field with
  | Some v => v
  | None => default
  end.

(** [not c.get('image')] *)
Definition no_image (c : Card) : bool :=
  match image c with
  | Some v => negb (truthy v)
  | None => true
  end.

Definition str_eqb (a b : str) : bool :=
  if list_eq_dec ascii_dec a b then true else false.

(** [x in ids] *)
Definition contains (ids : list str) (x : str) : bool :=
  existsb (str_eqb x) ids.

(** The history file on disk. *)
Inductive history_file :=
| HistoryMissing
| HistoryUnreadable
| HistoryIds (ids : list str).

(** What the selector reads: the question bank ([None] when the file does
    not exist) and the history file. *)
Record Files := {
  bank : option (list Card);
  history : history_file
}.

Definition load_history (h : history_file) : list str :=
  match h with
  | HistoryIds ids => ids
  | HistoryMissing | HistoryUnreadable => []
  end.

(** [pool[j] = v] *)
Fixpoint list_set {A} (j : nat) (v : A) (pool : list A) : list A :=
  match pool, j with
  | [], _ => []
  | _ :: r, 0 => v :: r
  | x :: r, S j' => x :: list_set j' v r
  end.

(** The selection loop of [random.sample]: at each turn position
    [j = _randbelow(n - i)] of the pool is taken and the last live element
    is moved into the vacancy.  [draws] are the raw values of the
    generator, [_randbelow(m)] being the next one modulo [m]; the pool is
    kept at its live length [n - i]. *)
Fixpoint sample_pool {A} (draws : list nat) (pool : list A) (k : nat) : list A :=
  match k with
  | 0 => []
  | S k' =>
      let j := hd 0 draws mod length pool in
      match nth_error pool j, rev pool with
      | Some x, last_live :: _ =>
          x :: sample_pool (tl draws) (removelast (list_set j last_live pool)) k'
      | _, _ => []
      end
  end.

(** [random.sample(population, k)] *)
Definition random_sample {A} (draws : list nat) (population : list A) (k : Z)
    : result (list A) :=
  if ((k <? 0) || (Z.of_nat (length population) <? k))%Z
  then Raise ValueError
  else Ok (sample_pool draws population (Z.to_nat k)).

Definition len {A} (l : list A) : Z := Z.of_nat (length l).

(** The three pools of [fetch_batch_questions]. *)
Definition fresh_short (used_ids : list str) (all_cards : list Card) : list Card :=
  filter (fun c => negb (contains used_ids (id c)) && no_image c
                   && (len (get_or (explanation c) []) <? 600)%Z) all_cards.

Definition fresh (used_ids : list str) (all_cards : list Card) : list Card :=
  filter (fun c => negb (contains used_ids (id c)) && no_image c) all_cards.

Definition without_image (all_cards : list Card) : list Card :=
  filter no_image all_cards.

(** The value of [available] when [random.sample] is called. *)
Definition available_pool (used_ids : list str) (all_cards : list Card)
    (count : Z) : list Card :=
  let available := fresh_short used_ids all_cards in
  let available :=
    if (len available <? count)%Z then fresh used_ids all_cards else available in
  match available with
  | [] => without_image all_cards
  | _ => available
  end.

(** Whether the branch that resets the history is taken. *)
Definition history_reset (used_ids : list str) (all_cards : list Card)
    (count : Z) : bool :=
  let available := fresh_short used_ids all_cards in
  let available :=
    if (len available <? count)%Z then fresh used_ids all_cards else available in
  match available with
  | [] => true
  | _ => false
  end.

(** [fetch_batch_questions(count)], reading [files] and drawing [draws]. *)
Definition fetch_batch_questions (files : Files) (draws : list nat) (count : Z)
    : result (list Card) :=
  match bank files with
  | None => Ok []
  | Some all_cards =>
      let used_ids := load_history (history files) in
      let available := available_pool used_ids all_cards count in
      random_sample draws available (Z.min (len available) count)
  end.

(* ===================================================================== *)
(** ** Card faces: the text blocks

    A face is rendered by drawing on an image.  The embedding keeps the
    [draw.text] calls of the text blocks (question, answer, explanation);
    the background, header, footer and captions hold no wrapped text and
    are left out. *)
(* ===================================================================== *)

Inductive variant := Bold | Regular | Mono.

(** One call [draw.text((x, y), line, ...)]. *)
Record text_draw := {
  pos_x : Q;
  pos_y : Q;
  content : str
}.

Definition W : Z := 1080.
Definition H : Z := 1350.

(** The content box returned by [draw_glass_card_bg]. *)
Definition content_box : Z * Z * Z * Z :=
  let card_margin_top := 220%Z in
  let card_margin_bottom := 180%Z in
  let card_margin_x := 60%Z in
  (card_margin_x, card_margin_top, W - card_margin_x, H - card_margin_bottom)%Z.

Section Faces.

(** [get_font(size, variant)]: the font found on this machine. *)
Variable get_font : Z -> variant -> Font.

(** The loop [for line in lines] of [render_card_front]. *)
Fixpoint draw_centered (font : Font) (cx1 card_w line_height : Z) (curr_y : Q)
    (lines : list str) : list text_draw :=
  match lines with
  | [] => []
  | line :: rest =>
      let bbox := getbbox font line in
      let lw := (bbox_right bbox - bbox_left bbox)%Z in
      {| pos_x := (inject_Z cx1 + inject_Z (card_w - lw) / 2)%Q;
         pos_y := curr_y;
         content := line |}
      :: draw_centered font cx1 card_w line_height
           (curr_y + inject_Z line_height)%Q rest
  end.

Definition front_font_size (question : str) : Z :=
  let font_size := 68%Z in
  let font_size := if (100 <? len question)%Z then 58%Z else font_size in
  if (200 <? len question)%Z then 48%Z else font_size.

(** Line pitch of the question block. *)
Definition front_line_height (font_q : Font) : Z :=
  (bbox_bottom (getbbox font_q (py "Ay")) + 15)%Z.

(** The question block of [render_card_front]: the lines it draws. *)
Definition render_card_front (card : Card) : result (list text_draw) :=
  let '(cx1, cy1, cx2, cy2) := content_box in
  let card_w := (cx2 - cx1)%Z in
  let card_h := (cy2 - cy1)%Z in
  let question := clean_text (Some (get_or (question card) (py "Question?"))) in
  let font_q := get_font (front_font_size question) Bold in
  lines <- wrap_text (Some question) font_q (card_w - 140) ;;
  let line_height := front_line_height font_q in
  let total_h := (len lines * line_height)%Z in
  let start_y := (inject_Z cy1 + inject_Z (card_h - total_h) / 2)%Q in
  Ok (draw_centered font_q cx1 card_w line_height start_y lines).

(** The loop [for line in ans_lines] of [render_card_back]. *)
Fixpoint draw_answer (x ay_text : Z) (lines : list str) : list text_draw :=
  match lines with
  | [] => []
  | line :: rest =>
      {| pos_x := inject_Z x; pos_y := inject_Z ay_text; content := line |}
      :: draw_answer x (ay_text + 60) rest
  end.

(** The answer banner of [render_card_back]: the lines it draws. *)
Definition render_answer (card : Card) : result (list text_draw) :=
  let '(cx1, cy1, cx2, cy2) := content_box in
  let card_w := (cx2 - cx1)%Z in
  let '(ax1, ay1) := (cx1, cy1) in
  let answer := clean_text (Some (get_or (answer card) (py "Answer"))) in
  let font_ans := get_font 54 Bold in
  ans_lines <- wrap_text (Some answer) font_ans (card_w - 120) ;;
  let ans_lines := if 3 <? length ans_lines then firstn 3 ans_lines else ans_lines in
  let ay_text := (ay1 + 90)%Z in
  Ok (draw_answer (ax1 + 60) ay_text ans_lines).

(** The loop [for line in expl_lines] of [render_card_back], which stops at
    the first line that would end below [cy2 - 40]. *)
Fixpoint draw_clipped (x cy2 line_h curr_y : Z) (lines : list str)
    : list text_draw :=
  match lines with
  | [] => []
  | line :: rest =>
      if (cy2 - 40 <? curr_y + line_h)%Z then []
      else {| pos_x := inject_Z x; pos_y := inject_Z curr_y; content := line |}
           :: draw_clipped x cy2 line_h (curr_y + line_h) rest
  end.

Definition back_font_size (exploration : str) : Z :=
  let font_size := 38%Z in
  let font_size := if (200 <? len exploration)%Z then 32%Z else font_size in
  if (400 <? len exploration)%Z then 28%Z else font_size.

(** Line pitch of the explanation block. *)
Definition back_line_h (font_expl : Font) : Z :=
  (bbox_bottom (getbbox font_expl (py "Ay")) + 12)%Z.

(** Top of the first explanation line: [expl_y_start + 50]. *)
Definition expl_top : Z :=
  let '(cx1, cy1, cx2, cy2) := content_box in
  let ans_h := 240%Z in
  let ay2 := (cy1 + ans_h)%Z in
  let expl_y_start := (ay2 + 50)%Z in
  (expl_y_start + 50)%Z.

(** Bottom edge of the panel, [cy2]. *)
Definition panel_bottom : Z :=
  let '(cx1, cy1, cx2, cy2) := content_box in cy2.

(** The explanation block of [render_card_back]: the lines it draws. *)
Definition render_explanation (card : Card) : result (list text_draw) :=
  let '(cx1, cy1, cx2, cy2) := content_box in
  let card_w := (cx2 - cx1)%Z in
  let exploration := clean_text (Some (get_or (explanation card) [])) in
  let expl_w := (card_w - 120)%Z in
  let font_expl := get_font (back_font_size exploration) Regular in
  expl_lines <- wrap_text (Some exploration) font_expl expl_w ;;
  let curr_y := expl_top in
  let line_h := back_line_h font_expl in
  Ok (draw_clipped (cx1 + 60) cy2 line_h curr_y expl_lines).

(** [render_card_back]: the answer lines, then the explanation lines. *)
Definition render_card_back (card : Card)
    : result (list text_draw * list text_draw) :=
  ans <- render_answer card ;;
  expl <- render_explanation card ;;
  Ok (ans, expl).

End Faces.

(* ===================================================================== *)
(** ** Sample data *)
(* ===================================================================== *)

(** A record without image and with a short explanation. *)
Definition plain_card (ident : string) : Card :=
  {| id := py ident;
     subject := None;
     question := Some (py "Which nerve?");
     answer := Some (py "Vagus");
     explanation := Some (py "It supplies the larynx.");
     image := None |}.

Definition image_card (ident : string) : Card :=
  {| id := py ident;
     subject := None;
     question := Some (py "Which sign?");
     answer := Some (py "Halo");
     explanation := Some (py "Seen on the film.");
     image := Some (PyStr (py "film.png")) |}.

(** A bank of one record and no history. *)
Definition files_one : Files :=
  {| bank := Some [plain_card "a"]; history := HistoryMissing |}.

(** A bank of three records, two of them in the history. *)
Definition files_seen : Files :=
  {| bank := Some [plain_card "a"; plain_card "b"; plain_card "c"];
     history := HistoryIds [py "a"; py "b"] |}.

(** A bank of four records, one with an image, one in the history. *)
Definition files_mixed : Files :=
  {| bank := Some [plain_card "a"; image_card "i"; plain_card "b"; plain_card "c"];
     history := HistoryIds [py "a"] |}.

(** Every size and variant resolves to one fixed-pitch font, 40 wide and
    60 high. *)
Definition test_fonts (size : Z) (v : variant) : Font := fixed_font 40 60.

(** [n] words of twenty letters each, separated by single spaces. *)
Definition long_text (n : nat) : str :=
  join [space] (repeat (repeat "a"%char 20) n).

Definition card_with (q a e : str) : Card :=
  {| id := py "t";
     subject := None;
     question := Some q;
     answer := Some a;
     explanation := Some e;
     image := None |}.

(** A record whose question wraps to 14 lines, whose answer wraps to 5
    lines and whose explanation wraps to 30 lines under [test_fonts]. *)
Definition wordy_card : Card :=
  card_with (long_text 14) (long_text 5) (long_text 30).

Definition result_or {A} (r : result A) (default : A) : A :=
  match r with
  | Ok a => a
  | Raise _ => default
  end.

(** What the faces of [wordy_card] draw. *)
Definition wordy_front_draws : list text_draw :=
  Eval vm_compute in result_or (render_card_front test_fonts wordy_card) [].

Definition wordy_answer_draws : list text_draw :=
  Eval vm_compute in result_or (render_answer test_fonts wordy_card) [].

Definition wordy_explanation_draws : list text_draw :=
  Eval vm_compute in result_or (render_explanation test_fonts wordy_card) [].

(* ===================================================================== *)
(** ** Predicates used by the statements *)
(* ===================================================================== *)

(** Every whitespace character of [s] is a single space that does not
    follow another whitespace character; [prev_ws] tells whether the
    character before [s] is whitespace. *)
Fixpoint tidy (prev_ws : bool) (s : str) : bool :=
  match s with
  | [] => true
  | c :: r =>
      if isspace c then negb prev_ws && is_char 32 c && tidy true r
      else tidy false r
  end.

Definition no_leading_ws (s : str) : bool :=
  match s with
  | c :: _ => negb (isspace c)
  | [] => true
  end.

Definition no_trailing_ws (s : str) : bool := no_leading_ws (rev s).

(** [s] holds no hyphen. *)
Definition no_hyphen (s : str) : bool :=
  forallb (fun c => negb (is_hyphen c)) s.

(** [s] holds no whitespace character. *)
Definition is_word (s : str) : bool :=
  negb (length s =? 0) && forallb (fun c => negb (isspace c)) s.

(** Chunks of [textwrap]: a gap is a non-empty run of its whitespace, a
    solid chunk holds none of it. *)
Definition gap (c : str) : bool :=
  negb (length c =? 0) && forallb TextWrap.whitespace c.

Definition solid (c : str) : bool :=
  negb (length c =? 0) && forallb (fun x => negb (TextWrap.whitespace x)) c.

(** Of two neighbours in a list of chunks, one is a gap. *)
Fixpoint alternating (chunks : list str) : bool :=
  match chunks with
  | a :: ((b :: _) as rest) => (gap a || gap b) && alternating rest
  | _ => true
  end.

(** Every chunk is a gap or a solid chunk of at most [k] characters, and
    the chunks alternate. *)
Definition well_chunked (k : nat) (chunks : list str) : bool :=
  forallb (fun c => gap c || (solid c && (length c <=? k))) chunks
  && alternating chunks.

(** Every run of characters between two whitespace characters of
    [textwrap] has at most [k] characters. *)
Definition words_fit (k : Z) (t : str) : bool :=
  forallb (fun w => (len w <=? k)%Z) (words_by TextWrap.whitespace t).

(** The words of a list of strings, in order. *)
Definition all_words (parts : list str) : list str :=
  concat (map words parts).

(* ===================================================================== *)
(** ** Recording a record in the history *)
(* ===================================================================== *)

(** [save_history_entry(q_id)]: the history file after the call.  The file
    is rewritten only when the id is not yet in the list that
    [load_history] returns. *)
Definition save_history_entry (h : history_file) (q_id : str) : history_file :=
  let history := load_history h in
  if contains history q_id then h else HistoryIds (history ++ [q_id]).

(** The characters of [s] that are not whitespace, in order. *)
Definition ink (s : str) : str := filter (fun c => negb (isspace c)) s.

(* ===================================================================== *)
(** ** get_font *)
(* ===================================================================== *)

(** The two directories of [search_paths]: the bundled [assets/fonts] and
    [C:\Windows\Fonts]. *)
Inductive search_path := AssetsFonts | WindowsFonts.

Definition search_paths : list search_path := [AssetsFonts; WindowsFonts].

(** What [get_font] reads of the machine: whether
    [os.path.join(p, name)] exists, what [ImageFont.truetype] makes of it
    at a size ([None] when it raises), and [ImageFont.load_default()]. *)
Record FontStore := {
  file_exists : search_path -> str -> bool;
  truetype : search_path -> str -> Z -> option Font;
  load_default : Font
}.

(** The dictionary [fonts]. *)
Definition fonts (variant : str) : option (list str) :=
  if str_eqb variant (py "Bold")
  then Some [py "Outfit-Bold.ttf"; py "Inter-Bold.ttf"; py "Roboto-Bold.ttf";
             py "arialbd.ttf"]
  else if str_eqb variant (py "Regular")
  then Some [py "Outfit-Regular.ttf"; py "Inter-Regular.ttf";
             py "Roboto-Regular.ttf"; py "arial.ttf"]
  else if str_eqb variant (py "Mono")
  then Some [py "JetBrainsMono-Bold.ttf"; py "Consolas.ttf"; py "courbd.ttf"]
  else None.

(** [fonts.get(variant, fonts["Regular"])] *)
Definition candidates (variant : str) : list str :=
  match fonts variant with
  | Some names => names
  | None => [py "Outfit-Regular.ttf"; py "Inter-Regular.ttf";
             py "Roboto-Regular.ttf"; py "arial.ttf"]
  end.

(** The loop [for p in search_paths] for one name: the first path where
    the file exists and loads. *)
Fixpoint probe_paths (store : FontStore) (name : str) (size : Z)
    (paths : list search_path) : option Font :=
  match paths with
  | [] => None
  | p :: rest =>
      if file_exists store p name
      then match truetype store p name size with
           | Some font => Some font
           | None => probe_paths store name size rest
           end
      else probe_paths store name size rest
  end.

(** The loop [for name in candidates]. *)
Fixpoint probe_names (store : FontStore) (size : Z) (names : list str)
    : option Font :=
  match names with
  | [] => None
  | name :: rest =>
      match probe_paths store name size search_paths with
      | Some font => Some font
      | None => probe_names store size rest
      end
  end.

(** [get_font(size, variant)] *)
Definition get_font (store : FontStore) (size : Z) (variant : str) : Font :=
  match probe_names store size (candidates variant) with
  | Some font => font
  | None => load_default store
  end.

(** A candidate file that exists and loads at this size. *)
Definition usable (store : FontStore) (size : Z) (entry : str * search_path) : bool :=
  file_exists store (snd entry) (fst entry)
  && match truetype store (snd entry) (fst entry) size with
     | Some _ => true
     | None => false
     end.

(* ===================================================================== *)
(** ** render_batch *)
(* ===================================================================== *)

Definition BATCH_SIZE : Z := 5.

(** What a saved face holds of the text blocks. *)
Inductive face_image :=
| FrontFace (question_lines : list text_draw)
| BackFace (answer_lines explanation_lines : list text_draw).

(** One entry of [results]. *)
Record rendered_card := {
  rc_id : str;
  front_image : str;
  back_image : str;
  rc_question : option str;
  rc_answer : option str;
  rc_explanation : option str;
  rc_subject : option str
}.

(** The content of [daily_flashcards.json]. *)
Record manifest := {
  manifest_date : str;
  manifest_cards : list rendered_card
}.

(** [os.path.join(a, *p)] of [posixpath]: a component that starts with a
    slash replaces what was joined so far; otherwise it is appended, after
    a slash unless the path so far is empty or ends with one. *)
Definition starts_with_sep (b : str) : bool :=
  match b with
  | c :: _ => is_char 47 c
  | [] => false
  end.

Definition ends_with_sep (path : str) : bool := starts_with_sep (rev path).

Definition join_component (path b : str) : str :=
  if starts_with_sep b then b
  else if (length path =? 0) || ends_with_sep path then path ++ b
  else path ++ py "/" ++ b.

Definition os_path_join (a : str) (p : list str) : str :=
  fold_left join_component p a.

(** [OUTPUT_DIR], where [home] is [os.path.expanduser("~")]. *)
Definition OUTPUT_DIR (home : str) : str :=
  os_path_join home [py ".n8n-files"; py "flashcards"].

(** The file system as a run sees it: the home directory, the bank and the
    history, the images by path, the manifest, and the answers it will
    give to the coming attempts to open a file for writing, in order.
    [true] refuses the attempt: [open] raises [OSError] and the file stays
    as it was; once the list is used up every attempt goes through. *)
Record Disk := {
  home : str;
  inputs : Files;
  images : list (str * face_image);
  daily_flashcards : option manifest;
  refusals : list bool
}.

(** [str(n)] *)
Definition decimal (n : nat) : str :=
  py (NilEmpty.string_of_uint (Nat.to_uint n)).

(** [f"card_{n}_front.png"] and [f"card_{n}_back.png"] *)
Definition front_name (n : nat) : str :=
  py "card_" ++ decimal n ++ py "_front.png".

Definition back_name (n : nat) : str :=
  py "card_" ++ decimal n ++ py "_back.png".

(** The file is created or replaced. *)
Definition save_image (name : str) (img : face_image) (files : list (str * face_image))
    : list (str * face_image) :=
  (name, img) :: filter (fun entry => negb (str_eqb (fst entry) name)) files.

Fixpoint read_image (name : str) (files : list (str * face_image)) : option face_image :=
  match files with
  | [] => None
  | (n, img) :: rest => if str_eqb n name then Some img else read_image name rest
  end.

Definition with_images (disk : Disk) (files : list (str * face_image)) : Disk :=
  {| home := home disk; inputs := inputs disk; images := files;
     daily_flashcards := daily_flashcards disk; refusals := refusals disk |}.

Definition with_history (disk : Disk) (h : history_file) : Disk :=
  {| home := home disk;
     inputs := {| bank := bank (inputs disk); history := h |};
     images := images disk;
     daily_flashcards := daily_flashcards disk; refusals := refusals disk |}.

Definition with_manifest (disk : Disk) (m : manifest) : Disk :=
  {| home := home disk; inputs := inputs disk; images := images disk;
     daily_flashcards := Some m; refusals := refusals disk |}.

Definition with_refusals (disk : Disk) (answers : list bool) : Disk :=
  {| home := home disk; inputs := inputs disk; images := images disk;
     daily_flashcards := daily_flashcards disk; refusals := answers |}.

(** Opening a file for writing takes the next answer of the file system. *)
Definition open_for_writing (disk : Disk) : Disk * result unit :=
  match refusals disk with
  | [] => (disk, Ok tt)
  | refused :: rest =>
      (with_refusals disk rest, if refused then Raise OSError else Ok tt)
  end.

(** [img.save(path)] *)
Definition save (path : str) (img : face_image) (disk : Disk) : Disk * result unit :=
  match open_for_writing disk with
  | (disk', Raise e) => (disk', Raise e)
  | (disk', Ok _) => (with_images disk' (save_image path img (images disk')), Ok tt)
  end.

(** [save_history_entry(q_id)] on the disk: the history file is opened for
    writing only when the id is not yet in it. *)
Definition write_history (q_id : str) (disk : Disk) : Disk * result unit :=
  if contains (load_history (history (inputs disk))) q_id then (disk, Ok tt)
  else match open_for_writing disk with
       | (disk', Raise e) => (disk', Raise e)
       | (disk', Ok _) =>
           (with_history disk' (save_history_entry (history (inputs disk')) q_id), Ok tt)
       end.

(** [os.path.join(OUTPUT_DIR, f_name)] and [os.path.join(OUTPUT_DIR, b_name)]
    of the card at position [i]. *)
Definition f_path (output_dir : str) (i : nat) : str :=
  os_path_join output_dir [front_name (i + 1)].

Definition b_path (output_dir : str) (i : nat) : str :=
  os_path_join output_dir [back_name (i + 1)].

Definition result_entry (output_dir : str) (i : nat) (card : Card) : rendered_card :=
  {| rc_id := id card;
     front_image := f_path output_dir i;
     back_image := b_path output_dir i;
     rc_question := question card;
     rc_answer := answer card;
     rc_explanation := explanation card;
     rc_subject := subject card |}.

Section Batch.

Variable get_font : Z -> variant -> Font.

(** The body of [for i, card in enumerate(cards)]: the two faces are
    rendered and saved, then the id goes to the history; the result is the
    entry appended to [results].  [output_dir] is the constant
    [OUTPUT_DIR].  An exception leaves the body with what was written so
    far.  The default of [card.get('id', ...)] is never used: the selector
    has read [c['id']] of every record of the bank. *)
Definition render_card (output_dir : str) (i : nat) (card : Card) (disk : Disk)
    : Disk * result rendered_card :=
  let q_id := id card in
  match render_card_front get_font card with
  | Raise e => (disk, Raise e)
  | Ok img_f =>
      match save (f_path output_dir i) (FrontFace img_f) disk with
      | (disk1, Raise e) => (disk1, Raise e)
      | (disk1, Ok _) =>
          match render_card_back get_font card with
          | Raise e => (disk1, Raise e)
          | Ok (ans, expl) =>
              match save (b_path output_dir i) (BackFace ans expl) disk1 with
              | (disk2, Raise e) => (disk2, Raise e)
              | (disk2, Ok _) =>
                  let entry := result_entry output_dir i card in
                  match write_history q_id disk2 with
                  | (disk3, Raise e) => (disk3, Raise e)
                  | (disk3, Ok _) => (disk3, Ok entry)
                  end
              end
          end
      end
  end.

(** The loop, from position [i] on. *)
Fixpoint render_cards (output_dir : str) (i : nat) (cards : list Card)
    (results : list rendered_card) (disk : Disk)
    : Disk * result (list rendered_card) :=
  match cards with
  | [] => (disk, Ok results)
  | card :: rest =>
      match render_card output_dir i card disk with
      | (disk', Raise e) => (disk', Raise e)
      | (disk', Ok entry) =>
          render_cards output_dir (S i) rest (results ++ [entry]) disk'
      end
  end.

(** [render_batch()]: the disk afterwards and the number of cards saved
    ([None] when no card was found), or the exception that stopped it.
    [today] is [time.strftime("%Y-%m-%d")]; the manifest is written last. *)
Definition render_batch (draws : list nat) (today : str) (disk : Disk)
    : Disk * result (option nat) :=
  match fetch_batch_questions (inputs disk) draws BATCH_SIZE with
  | Raise e => (disk, Raise e)
  | Ok [] => (disk, Ok None)
  | Ok cards =>
      match render_cards (OUTPUT_DIR (home disk)) 0 cards [] disk with
      | (disk', Raise e) => (disk', Raise e)
      | (disk', Ok results) =>
          match open_for_writing disk' with
          | (disk'', Raise e) => (disk'', Raise e)
          | (disk'', Ok _) =>
              (with_manifest disk''
                 {| manifest_date := today; manifest_cards := results |},
               Ok (Some (length results)))
          end
      end
  end.

End Batch.

(* ===================================================================== *)
(** ** Sample data for the batch and the positions *)
(* ===================================================================== *)

(** What the front face of [plain_card "a"] draws, and its first line. *)
Definition plain_front_draws : list text_draw :=
  Eval vm_compute in result_or (render_card_front test_fonts (plain_card "a")) [].

Definition plain_front_first : text_draw :=
  Eval vm_compute in
    hd {| pos_x := 0; pos_y := 0; content := [] |} plain_front_draws.

(** The wrapped explanation of [wordy_card] and the third answer line
    drawn. *)
Definition wordy_explanation_lines : list str :=
  Eval vm_compute in
    result_or (wrap_text (Some (clean_text (explanation wordy_card)))
                 (test_fonts 28 Regular) 840) [].

Definition wordy_answer_third : text_draw :=
  Eval vm_compute in
    nth 2 wordy_answer_draws {| pos_x := 0; pos_y := 0; content := [] |}.

(** A disk with the bank of four records, no image and no manifest, on
    which every write goes through. *)
Definition sample_disk : Disk :=
  {| home := py "/home/user"; inputs := files_mixed; images := [];
     daily_flashcards := None; refusals := [] |}.


Definition sample_date : str := py "2024-05-17".

(** The disk after a batch drawn with [test_fonts]. *)
Definition sample_disk_after : Disk :=
  Eval vm_compute in
    fst (render_batch test_fonts [0; 0; 0; 0; 0] sample_date sample_disk).


(** A text with a no-break space between two runs of letters. *)
Definition nbsp_text : str := py "aaa" ++ ascii_of_nat 160 :: py "bbbb".

(* ===================================================================== *)
(** ** Characters and stripping *)
(* ===================================================================== *)

Lemma is_char_eq n c : is_char n c = true -> c = ascii_of_nat n.
Proof.
  unfold is_char, code. intros Hc. apply Nat.eqb_eq in Hc.
  rewrite <- Hc. symmetry. apply ascii_nat_embedding.
Qed.

Lemma isspace_space : isspace space = true.
Proof. reflexivity. Qed.

Lemma marker_not_space c : is_marker c = true -> isspace c = false.
Proof.
  unfold is_marker. intros Hm.
  apply orb_true_iff in Hm as [Hm | Hm]; [apply orb_true_iff in Hm as [Hm | Hm] |];
    apply is_char_eq in Hm; subst c; reflexivity.
Qed.

Lemma dropwhile_split p s :
  exists pre, s = pre ++ dropwhile p s /\ forallb p pre = true.
Proof.
  induction s as [|c r [pre [Heq Hall]]]; simpl.
  - exists []. split; reflexivity.
  - destruct (p c) eqn:Hp.
    + exists (c :: pre). simpl. rewrite Hp, Hall. split; [f_equal; exact Heq | reflexivity].
    + exists []. split; reflexivity.
Qed.

Lemma dropwhile_head p s c r : dropwhile p s = c :: r -> p c = false.
Proof.
  induction s as [|d s IH]; simpl; [discriminate|].
  destruct (p d) eqn:Hp; [exact IH|].
  intros Heq. inversion Heq; subst. exact Hp.
Qed.

Lemma dropwhile_id p s : 
  match s with c :: _ => p c = false | [] => True end -> dropwhile p s = s.
Proof. destruct s as [|c r]; simpl; [reflexivity|]. intros ->. reflexivity. Qed.

(** [rstrip] keeps a prefix, [lstrip] a suffix. *)
Lemma rstrip_prefix s : exists post, s = rstrip s ++ post /\ forallb isspace post = true.
Proof.
  unfold rstrip. destruct (dropwhile_split isspace (rev s)) as [pre [Heq Hall]].
  exists (rev pre). split.
  - rewrite <- rev_app_distr, <- Heq, rev_involutive. reflexivity.
  - rewrite forallb_forall in *. intros x Hx. apply Hall. apply in_rev. exact Hx.
Qed.

Lemma lstrip_suffix s : exists pre, s = pre ++ lstrip s /\ forallb isspace pre = true.
Proof. apply dropwhile_split. Qed.

Lemma strip_no_leading s : no_leading_ws (strip s) = true.
Proof.
  unfold strip. destruct (rstrip_prefix (lstrip s)) as [post [Heq _]].
  destruct (rstrip (lstrip s)) as [|c r] eqn:Hr; [reflexivity|].
  simpl. unfold lstrip in Heq. simpl in Heq.
  apply dropwhile_head in Heq. rewrite Heq. reflexivity.
Qed.

Lemma strip_no_trailing s : no_trailing_ws (strip s) = true.
Proof.
  unfold no_trailing_ws, strip, rstrip. rewrite rev_involutive.
  destruct (dropwhile isspace (rev (lstrip s))) as [|c r] eqn:Hd; [reflexivity|].
  simpl. apply dropwhile_head in Hd. rewrite Hd. reflexivity.
Qed.

Lemma strip_fixed s :
  no_leading_ws s = true -> no_trailing_ws s = true -> strip s = s.
Proof.
  unfold no_leading_ws, no_trailing_ws, strip, rstrip, lstrip. intros Hl Ht.
  rewrite (dropwhile_id isspace s).
  - rewrite (dropwhile_id isspace (rev s)); [apply rev_involutive|].
    destruct (rev s); [exact I|]. simpl in Ht. apply negb_true_iff. exact Ht.
  - destruct s; [exact I|]. apply negb_true_iff. exact Hl.
Qed.

(* ===================================================================== *)
(** ** clean_text: the shape of its result *)
(* ===================================================================== *)

Lemma tidy_sub_ws_runs s : forall b, tidy b (sub_ws_runs b s) = true.
Proof.
  induction s as [|c r IH]; intros b; simpl; [reflexivity|].
  destruct (isspace c) eqn:Hc.
  - destruct b; [apply IH|].
    change (tidy true (sub_ws_runs true r) = true). apply IH.
  - simpl. rewrite Hc. apply IH.
Qed.

Lemma tidy_weaken s : tidy true s = true -> tidy false s = true.
Proof.
  destruct s as [|c r]; simpl; [reflexivity|].
  destruct (isspace c); [discriminate | trivial].
Qed.

Lemma tidy_app s1 s2 : forall b,
  tidy b (s1 ++ s2) = true -> tidy b s1 = true /\ tidy false s2 = true.
Proof.
  induction s1 as [|c r IH]; intros b; simpl.
  - intros Ht. split; [reflexivity|]. destruct b; [apply tidy_weaken|]; exact Ht.
  - destruct (isspace c).
    + intros Ht. apply andb_true_iff in Ht as [Hb Ht]. rewrite Hb. apply IH in Ht. exact Ht.
    + apply IH.
Qed.

Lemma tidy_fixed s : forall b, tidy b s = true -> sub_ws_runs b s = s.
Proof.
  induction s as [|c r IH]; intros b; simpl; [reflexivity|].
  destruct (isspace c).
  - intros Ht. apply andb_true_iff in Ht as [Hb Ht]. apply andb_true_iff in Hb as [Hb Hc].
    apply negb_true_iff in Hb. subst b. apply is_char_eq in Hc. subst c.
    f_equal. apply IH. exact Ht.
  - intros Ht. f_equal. apply IH. exact Ht.
Qed.

Lemma tidy_whitespace_is_space s : forall b c,
  tidy b s = true -> In c s -> isspace c = true -> c = space.
Proof.
  induction s as [|d r IH]; intros b c Ht Hin Hc; [destruct Hin|].
  simpl in Ht, Hin. destruct (isspace d) eqn:Hd.
  - apply andb_true_iff in Ht as [Hb Ht]. apply andb_true_iff in Hb as [_ Hs].
    destruct Hin as [Heq | Hin]; [subst d; apply is_char_eq in Hs; exact Hs | eapply IH; eassumption].
  - destruct Hin as [Heq | Hin]; [congruence | eapply IH; eassumption].
Qed.

Lemma tidy_no_pair s : forall b pre c d post,
  tidy b s = true -> s = pre ++ c :: d :: post ->
  isspace c = true -> isspace d = false.
Proof.
  intros b pre c d post Ht -> Hc. apply tidy_app in Ht as [_ Ht].
  simpl in Ht. rewrite Hc in Ht.
  destruct (isspace d); [|reflexivity].
  simpl in Ht. rewrite andb_false_r in Ht. discriminate.
Qed.

Lemma sub_ws_runs_no_marker s : forall b,
  forallb (fun c => negb (is_marker c)) s = true ->
  forallb (fun c => negb (is_marker c)) (sub_ws_runs b s) = true.
Proof.
  induction s as [|c r IH]; intros b; simpl; [reflexivity|].
  intros Hall. apply andb_true_iff in Hall as [Hc Hr].
  destruct (isspace c); [destruct b|]; simpl; rewrite ?Hc; simpl; apply IH; exact Hr.
Qed.

Lemma remove_markers_no_marker s :
  forallb (fun c => negb (is_marker c)) (remove_markers s) = true.
Proof.
  apply forallb_forall. intros c Hc. apply filter_In in Hc. apply Hc.
Qed.

Lemma remove_markers_fixed s :
  forallb (fun c => negb (is_marker c)) s = true -> remove_markers s = s.
Proof.
  unfold remove_markers. induction s as [|c r IH]; simpl; [reflexivity|].
  intros Hall. apply andb_true_iff in Hall as [Hc Hr]. rewrite Hc. f_equal. auto.
Qed.

Lemma forallb_app_inv {A} (p : A -> bool) l1 l2 :
  forallb p (l1 ++ l2) = true -> forallb p l1 = true /\ forallb p l2 = true.
Proof. rewrite forallb_app. apply andb_true_iff. Qed.

(** The three facts about the result of [clean_text] from which the
    statements below follow. *)
Lemma clean_text_shape text :
  forallb (fun c => negb (is_marker c)) (clean_text text) = true
  /\ tidy false (clean_text text) = true
  /\ no_leading_ws (clean_text text) = true
  /\ no_trailing_ws (clean_text text) = true.
Proof.
  destruct text as [[|c t]|]; try (repeat split; reflexivity).
  unfold clean_text. set (u := collapse_ws (remove_markers (c :: t))).
  assert (Hm : forallb (fun c => negb (is_marker c)) u = true)
    by (apply sub_ws_runs_no_marker, remove_markers_no_marker).
  assert (Ht : tidy false u = true) by apply tidy_sub_ws_runs.
  destruct (lstrip_suffix u) as [pre [Hu _]].
  destruct (rstrip_prefix (lstrip u)) as [post [Hl _]].
  fold (strip u) in Hl.
  rewrite Hu in Hm, Ht. apply forallb_app_inv in Hm as [_ Hm]. apply tidy_app in Ht as [_ Ht].
  rewrite Hl in Hm, Ht. apply forallb_app_inv in Hm as [Hm _]. apply tidy_app in Ht as [Ht _].
  repeat split; auto using strip_no_leading, strip_no_trailing.
Qed.

(** C5: [clean_text] is idempotent: cleaning a cleaned text (of any input,
    [None] included) gives the cleaned text back. *)
Theorem clean_text_idempotent (text : option str) :
  clean_text (Some (clean_text text)) = clean_text text.
Proof.
  destruct (clean_text_shape text) as [Hm [Ht [Hl Hr]]].
  destruct (clean_text text) as [|c v] eqn:Hv; [reflexivity|].
  unfold clean_text at 1. unfold collapse_ws.
  rewrite (remove_markers_fixed _ Hm), (tidy_fixed _ _ Ht).
  apply strip_fixed; assumption.
Qed.

(* ===================================================================== *)
(** ** Batch selection *)
(* ===================================================================== *)

Lemma contains_In ids x : contains ids x = true <-> In x ids.
Proof.
  unfold contains. rewrite existsb_exists. split.
  - intros [y [Hy Heq]]. unfold str_eqb in Heq.
    destruct (list_eq_dec ascii_dec x y); [subst; exact Hy | discriminate].
  - intros Hin. exists x. split; [exact Hin|]. unfold str_eqb.
    destruct (list_eq_dec ascii_dec x x); [reflexivity | contradiction].
Qed.

Lemma list_set_length {A} (v : A) pool : forall j,
  length (list_set j v pool) = length pool.
Proof.
  induction pool as [|x r IH]; intros [|j]; simpl; auto.
Qed.

Lemma list_set_In {A} (v : A) pool : forall j y,
  In y (list_set j v pool) -> y = v \/ In y pool.
Proof.
  induction pool as [|x r IH]; intros [|j] y; simpl; auto.
  - intros [Hy | Hy]; auto.
  - intros [Hy | Hy]; auto. apply IH in Hy. tauto.
Qed.

Lemma removelast_In {A} (l : list A) y : In y (removelast l) -> In y l.
Proof.
  induction l as [|x r IH]; simpl; [auto|].
  destruct r as [|x' r']; [intros [] |].
  intros [Hy | Hy]; [left; exact Hy | right; apply IH; exact Hy].
Qed.

Lemma removelast_length {A} (l : list A) : length (removelast l) = length l - 1.
Proof.
  rewrite removelast_firstn_len, length_firstn. lia.
Qed.

(** A sample only holds elements of the population. *)
Lemma sample_pool_incl {A} k : forall draws (pool : list A) x,
  In x (sample_pool draws pool k) -> In x pool.
Proof.
  induction k as [|k IH]; intros draws pool x; simpl; [intros []|].
  destruct (nth_error pool (hd 0 draws mod length pool)) as [y|] eqn:Hnth; [|intros []].
  destruct (rev pool) as [|last_live rest] eqn:Hrev; [intros []|].
  intros [Hx | Hx].
  - subst y. eapply nth_error_In. exact Hnth.
  - apply IH in Hx. apply removelast_In in Hx. apply list_set_In in Hx.
    destruct Hx as [Hx | Hx]; [|exact Hx].
    subst x. apply in_rev. rewrite Hrev. left. reflexivity.
Qed.

(** A sample of size [k] out of at least [k] elements has [k] elements. *)
Lemma sample_pool_length {A} k : forall draws (pool : list A),
  k <= length pool -> length (sample_pool draws pool k) = k.
Proof.
  induction k as [|k IH]; intros draws pool Hk; simpl; [reflexivity|].
  assert (Hj : hd 0 draws mod length pool < length pool)
    by (apply Nat.mod_upper_bound; lia).
  destruct (nth_error pool (hd 0 draws mod length pool)) as [y|] eqn:Hnth.
  - destruct (rev pool) as [|last_live rest] eqn:Hrev.
    + apply (f_equal (@length A)) in Hrev. rewrite length_rev in Hrev. simpl in Hrev. lia.
    + simpl. f_equal. apply IH. rewrite removelast_length, list_set_length. lia.
  - apply nth_error_Some in Hj. contradiction.
Qed.

Lemma pools_without_image used_ids all_cards count :
  Forall (fun c => no_image c = true) (fresh_short used_ids all_cards)
  /\ Forall (fun c => no_image c = true) (fresh used_ids all_cards)
  /\ Forall (fun c => no_image c = true) (without_image all_cards)
  /\ Forall (fun c => no_image c = true) (available_pool used_ids all_cards count).
Proof.
  assert (H1 : Forall (fun c => no_image c = true) (fresh_short used_ids all_cards)).
  { apply Forall_forall. intros c Hc. apply filter_In in Hc as [_ Hc].
    apply andb_true_iff in Hc as [Hc _]. apply andb_true_iff in Hc as [_ Hc]. exact Hc. }
  assert (H2 : Forall (fun c => no_image c = true) (fresh used_ids all_cards)).
  { apply Forall_forall. intros c Hc. apply filter_In in Hc as [_ Hc].
    apply andb_true_iff in Hc as [_ Hc]. exact Hc. }
  assert (H3 : Forall (fun c => no_image c = true) (without_image all_cards)).
  { apply Forall_forall. intros c Hc. apply filter_In in Hc as [_ Hc]. exact Hc. }
  repeat split; try assumption.
  unfold available_pool.
  destruct (len (fresh_short used_ids all_cards) <? count)%Z.
  - destruct (fresh used_ids all_cards); assumption.
  - destruct (fresh_short used_ids all_cards); assumption.
Qed.

Lemma pool_unused used_ids all_cards count :
  history_reset used_ids all_cards count = false ->
  Forall (fun c => ~ In (id c) used_ids) (available_pool used_ids all_cards count).
Proof.
  assert (H1 : Forall (fun c => ~ In (id c) used_ids) (fresh_short used_ids all_cards)).
  { apply Forall_forall. intros c Hc. apply filter_In in Hc as [_ Hc].
    apply andb_true_iff in Hc as [Hc _]. apply andb_true_iff in Hc as [Hc _].
    apply negb_true_iff in Hc. intros Hin. apply contains_In in Hin. congruence. }
  assert (H2 : Forall (fun c => ~ In (id c) used_ids) (fresh used_ids all_cards)).
  { apply Forall_forall. intros c Hc. apply filter_In in Hc as [_ Hc].
    apply andb_true_iff in Hc as [Hc _].
    apply negb_true_iff in Hc. intros Hin. apply contains_In in Hin. congruence. }
  unfold history_reset, available_pool.
  destruct (len (fresh_short used_ids all_cards) <? count)%Z.
  - destruct (fresh used_ids all_cards); [discriminate | intros _; assumption].
  - destruct (fresh_short used_ids all_cards); [discriminate | intros _; assumption].
Qed.

Lemma fetch_from_pool files draws count all_cards batch :
  bank files = Some all_cards ->
  fetch_batch_questions files draws count = Ok batch ->
  incl batch (available_pool (load_history (history files)) all_cards count).
Proof.
  unfold fetch_batch_questions, random_sample. intros -> Hf.
  match type of Hf with (if ?b then _ else _) = _ => destruct b end; [discriminate|].
  inversion Hf. intros c Hc. eapply sample_pool_incl. exact Hc.
Qed.

(** C9: whatever the bank, the history and the draws, no record of the
    returned batch has a truthy [image] field (the three pools, hence every
    relaxation step, filter on [not c.get('image')]). *)
Theorem fetch_never_selects_image files draws count batch :
  fetch_batch_questions files draws count = Ok batch ->
  Forall (fun c => no_image c = true) batch.
Proof.
  intros Hf. destruct (bank files) as [all_cards|] eqn:Hb.
  - apply Forall_forall. intros c Hc.
    apply (fetch_from_pool _ _ _ Hb Hf) in Hc.
    destruct (pools_without_image (load_history (history files)) all_cards count)
      as [_ [_ [_ Hp]]].
    rewrite Forall_forall in Hp. apply Hp. exact Hc.
  - unfold fetch_batch_questions in Hf. rewrite Hb in Hf. inversion Hf. constructor.
Qed.

(** C8: when the branch that resets the history is not taken, no record of
    the returned batch has its id in the history. *)
Theorem fetch_respects_history files draws count all_cards batch :
  bank files = Some all_cards ->
  history_reset (load_history (history files)) all_cards count = false ->
  fetch_batch_questions files draws count = Ok batch ->
  Forall (fun c => ~ In (id c) (load_history (history files))) batch.
Proof.
  intros Hb Hr Hf. apply Forall_forall. intros c Hc.
  apply (fetch_from_pool _ _ _ Hb Hf) in Hc.
  pose proof (pool_unused _ _ _ Hr) as Hp.
  rewrite Forall_forall in Hp. apply Hp. exact Hc.
Qed.

(** C4, as amended: for a bank that exists and a count that is not
    negative, a batch is returned and its length is the smaller of the
    count and the size of the pool sampled (the unused short records if
    there are [count] of them, else the unused records if any, else all
    records without image); a batch of a positive count is not empty as
    soon as one record without image exists. *)
Theorem fetch_batch_length files draws count all_cards :
  bank files = Some all_cards ->
  (0 <= count)%Z ->
  exists batch,
    fetch_batch_questions files draws count = Ok batch
    /\ len batch
       = Z.min (len (available_pool (load_history (history files)) all_cards count))
               count
    /\ ((0 < count)%Z -> without_image all_cards <> [] -> batch <> []).
Proof.
  intros Hb Hc. unfold fetch_batch_questions, random_sample. rewrite Hb.
  set (pool := available_pool (load_history (history files)) all_cards count).
  assert (Hk : Z.to_nat (Z.min (len pool) count) <= length pool) by (unfold len; lia).
  destruct ((Z.min (len pool) count <? 0)%Z || (Z.of_nat (length pool) <? Z.min (len pool) count)%Z)
    eqn:Hguard.
  - apply orb_true_iff in Hguard. unfold len in *. lia.
  - eexists. split; [reflexivity|]. split.
    + unfold len at 1. rewrite (sample_pool_length _ _ Hk). unfold len. lia.
    + intros Hpos Hany Hnil.
      apply (f_equal (@length Card)) in Hnil.
      rewrite (sample_pool_length _ _ Hk) in Hnil. simpl in Hnil.
      assert (Hp : pool <> []).
      { subst pool. unfold available_pool.
        destruct (len (fresh_short (load_history (history files)) all_cards) <? count)%Z.
        - destruct (fresh (load_history (history files)) all_cards); [exact Hany | discriminate].
        - destruct (fresh_short (load_history (history files)) all_cards); [exact Hany | discriminate]. }
      destruct pool; [contradiction|]. unfold len in Hnil. simpl in Hnil. lia.
Qed.

(** C9, at a bank of four records of which one has an image. *)
Lemma fetch_never_selects_image_witness :
  Forall (fun c => no_image c = true) [plain_card "b"; plain_card "c"].
Proof.
  exact (fetch_never_selects_image files_mixed [0; 0] 2 eq_refl).
Defined.

(** C8, at a bank of four records with one id in the history: the reset
    branch is not taken and the batch avoids that id. *)
Lemma fetch_respects_history_witness :
  Forall (fun c => ~ In (id c) (load_history (history files_mixed)))
         [plain_card "b"; plain_card "c"].
Proof.
  exact (fetch_respects_history files_mixed [0; 0] 2 eq_refl eq_refl eq_refl).
Defined.

(** C4 fails as stated: a bank of one record asked for five returns one
    record; a bank of three records with two of them in the history, asked
    for two, returns the single unused record (the history is reset only
    when no unused record is left). *)
Lemma fetch_batch_short_of_count :
  (forall draws, fetch_batch_questions files_one draws 5 = Ok [plain_card "a"])
  /\ (forall draws, fetch_batch_questions files_seen draws 2 = Ok [plain_card "c"]).
Proof.
  split; intros draws; cbv -[Nat.modulo hd]; rewrite Nat.mod_1_r; reflexivity.
Qed.

(** C4 as amended, at the bank of three records with two in the history. *)
Lemma fetch_batch_length_witness :
  exists batch,
    fetch_batch_questions files_seen [0] 2 = Ok batch
    /\ len batch
       = Z.min (len (available_pool (load_history (history files_seen))
                       [plain_card "a"; plain_card "b"; plain_card "c"] 2)) 2
    /\ ((0 < 2)%Z ->
        without_image [plain_card "a"; plain_card "b"; plain_card "c"] <> [] ->
        batch <> []).
Proof.
  apply (fetch_batch_length files_seen [0] (count := 2) eq_refl). discriminate.
Defined.

(* ===================================================================== *)
(** ** The character budget *)
(* ===================================================================== *)

(** C3, at the question font of size 68 with an 'x' of 34 pixels and the
    820 pixels of the question block: the budget is 26 characters, above
    the estimate 820 / 34 (26 such glyphs take 884 pixels), because the
    factor 0.9 shrinks the glyph width instead of the line width. *)
Theorem budget_exceeds_naive_estimate :
  estimate_max_chars (fixed_font 34 40) 820 = Ok 26%Z
  /\ (820 / 34 = 24)%Z
  /\ (820 < 26 * 34)%Z.
Proof. repeat split; vm_compute; reflexivity. Qed.

(* ===================================================================== *)
(** ** Card faces *)
(* ===================================================================== *)

Lemma draw_answer_content lines : forall x y,
  map content (draw_answer x y lines) = lines.
Proof.
  induction lines as [|l r IH]; intros x y; simpl; [reflexivity|].
  f_equal. apply IH.
Qed.

Lemma draw_centered_content font cx1 card_w line_height lines : forall y,
  map content (draw_centered font cx1 card_w line_height y lines) = lines.
Proof.
  induction lines as [|l r IH]; intros y; simpl; [reflexivity|].
  f_equal. apply IH.
Qed.

(** The clipped loop draws a prefix of the lines. *)
Lemma draw_clipped_prefix x cy2 line_h lines : forall y,
  map content (draw_clipped x cy2 line_h y lines)
  = firstn (length (draw_clipped x cy2 line_h y lines)) lines.
Proof.
  induction lines as [|l r IH]; intros y; simpl; [reflexivity|].
  destruct (cy2 - 40 <? y + line_h)%Z; simpl; [reflexivity|].
  f_equal. apply IH.
Qed.

(** Every line drawn by the clipped loop ends at or above [cy2 - 40]. *)
Lemma draw_clipped_room x cy2 line_h lines : forall y,
  (0 < line_h)%Z -> (0 <= cy2 - 40 - y)%Z ->
  (len (draw_clipped x cy2 line_h y lines) * line_h <= cy2 - 40 - y)%Z.
Proof.
  unfold len.
  induction lines as [|l r IH]; intros y Hp Hy; simpl; [lia|].
  destruct (Z.ltb_spec (cy2 - 40) (y + line_h)) as [Hclip|Hfit]; simpl length; [lia|].
  specialize (IH (y + line_h)%Z Hp). lia.
Qed.

Lemma firstn_3_cap {A} (lines : list A) :
  (if 3 <? length lines then firstn 3 lines else lines) = firstn 3 lines.
Proof.
  destruct (Nat.ltb_spec 3 (length lines)); [reflexivity|].
  symmetry. apply firstn_all2. lia.
Qed.

(** C7: when the answer banner is drawn, its lines are the first three
    lines of the wrapped, cleaned answer: at most three, and exactly three
    when the wrapping gives more. *)
Theorem answer_banner_three_lines get_font card draws :
  render_answer get_font card = Ok draws ->
  exists lines,
    wrap_text (Some (clean_text (Some (get_or (answer card) (py "Answer")))))
              (get_font 54%Z Bold) 840
    = Ok lines
    /\ map content draws = firstn 3 lines
    /\ length draws <= 3
    /\ (3 < length lines -> length draws = 3).
Proof.
  assert (Hra : render_answer get_font card
                = (ans_lines <- wrap_text
                     (Some (clean_text (Some (get_or (answer card) (py "Answer")))))
                     (get_font 54%Z Bold) 840 ;;
                   Ok (draw_answer 120 310
                         (if 3 <? length ans_lines then firstn 3 ans_lines else ans_lines))))
    by reflexivity.
  rewrite Hra. clear Hra.
  destruct (wrap_text _ (get_font 54%Z Bold) 840) as [lines|e]; cbn [bind]; [|discriminate].
  intros Hd. rewrite firstn_3_cap in Hd.
  assert (Hdraws : draws = draw_answer 120 310 (firstn 3 lines)) by congruence.
  rewrite Hdraws. clear Hd Hdraws.
  exists lines. split; [reflexivity|].
  assert (Hc : map content (draw_answer 120 310 (firstn 3 lines)) = firstn 3 lines)
    by apply draw_answer_content.
  split; [exact Hc|].
  apply (f_equal (@length str)) in Hc. rewrite length_map, length_firstn in Hc.
  split; intros; lia.
Qed.

(** C6, as amended: in the explanation block of the back face, with a
    positive line pitch [p], a region that runs from the top of the first
    line down to the bottom of the panel and a margin of 40, the lines
    drawn are the first lines of the wrapped explanation and their number
    is at most [(region height - 40) / p], rounded down. *)
Theorem explanation_lines_bounded get_font card draws :
  let exploration := clean_text (Some (get_or (explanation card) [])) in
  let font_expl := get_font (back_font_size exploration) Regular in
  let p := back_line_h font_expl in
  let region_height := (panel_bottom - expl_top)%Z in
  render_explanation get_font card = Ok draws ->
  (0 < p)%Z ->
  (len draws <= (region_height - 40) / p)%Z
  /\ exists lines,
       wrap_text (Some exploration) font_expl 840 = Ok lines
       /\ map content draws = firstn (length draws) lines.
Proof.
  intros exploration font_expl p region_height.
  assert (Hre : render_explanation get_font card
                = (expl_lines <- wrap_text (Some exploration) font_expl 840 ;;
                   Ok (draw_clipped 120 1170 p 560 expl_lines)))
    by reflexivity.
  rewrite Hre. clear Hre.
  destruct (wrap_text (Some exploration) font_expl 840) as [lines|e]; cbn [bind]; [|discriminate].
  intros Hd Hp.
  assert (Hdraws : draws = draw_clipped 120 1170 p 560 lines) by congruence.
  rewrite Hdraws. clear Hd Hdraws.
  split.
  - apply Z.div_le_lower_bound; [exact Hp|].
    change region_height with 610%Z.
    pose proof (@draw_clipped_room 120 1170 p lines 560 Hp) as Hroom. lia.
  - exists lines. split; [reflexivity|]. apply draw_clipped_prefix.
Qed.

(** The question block of the front face is not clipped: every wrapped
    line of the cleaned question is drawn. *)
Lemma front_draws_all_lines get_font card draws :
  let question := clean_text (Some (get_or (question card) (py "Question?"))) in
  render_card_front get_font card = Ok draws ->
  wrap_text (Some question) (get_font (front_font_size question) Bold) 820
  = Ok (map content draws).
Proof.
  intros question.
  assert (Hrf : render_card_front get_font card
                = (lines <- wrap_text (Some question)
                              (get_font (front_font_size question) Bold) 820 ;;
                   Ok (draw_centered (get_font (front_font_size question) Bold) 60 960
                         (front_line_height (get_font (front_font_size question) Bold))
                         (inject_Z 220
                          + inject_Z (950 - len lines
                                            * front_line_height
                                                (get_font (front_font_size question) Bold))
                            / 2)%Q
                         lines)))
    by reflexivity.
  rewrite Hrf. clear Hrf.
  destruct (wrap_text (Some question) _ 820) as [lines|e]; cbn [bind]; [|discriminate].
  intros Hd. injection Hd as <-. rewrite draw_centered_content. reflexivity.
Qed.

(** C7, at a record whose answer wraps to five lines: three are drawn. *)
Lemma answer_banner_three_lines_witness :
  render_answer test_fonts wordy_card = Ok wordy_answer_draws
  /\ exists lines,
       wrap_text (Some (clean_text (Some (get_or (answer wordy_card) (py "Answer")))))
                 (test_fonts 54%Z Bold) 840
       = Ok lines
       /\ map content wordy_answer_draws = firstn 3 lines
       /\ length wordy_answer_draws <= 3
       /\ (3 < length lines -> length wordy_answer_draws = 3).
Proof.
  assert (Hr : render_answer test_fonts wordy_card = Ok wordy_answer_draws)
    by (vm_compute; reflexivity).
  split; [exact Hr | exact (answer_banner_three_lines test_fonts wordy_card Hr)].
Defined.

(** C6 fails as stated on the front face, which draws every wrapped line:
    a question of 14 lines at a pitch of 75 is drawn in full in a panel
    950 high, where at most 12 lines fit even with no margin. *)
Lemma front_face_draws_every_line :
  render_card_front test_fonts wordy_card = Ok wordy_front_draws
  /\ length wordy_front_draws = 14
  /\ front_line_height (test_fonts (front_font_size (long_text 14)) Bold) = 75%Z
  /\ ((950 - 0) / 75 = 12)%Z.
Proof. repeat split; vm_compute; reflexivity. Qed.

(** C6 as amended, at a record whose explanation wraps to 30 lines: at a
    pitch of 72 the first 7 are drawn. *)
Lemma explanation_lines_bounded_witness :
  render_explanation test_fonts wordy_card = Ok wordy_explanation_draws
  /\ (0 < 72)%Z
  /\ (len wordy_explanation_draws <= (panel_bottom - expl_top - 40) / 72)%Z
  /\ exists lines,
       wrap_text (Some (clean_text (Some (get_or (explanation wordy_card) []))))
                 (test_fonts 28%Z Regular) 840
       = Ok lines
       /\ map content wordy_explanation_draws
          = firstn (length wordy_explanation_draws) lines.
Proof.
  assert (Hr : render_explanation test_fonts wordy_card = Ok wordy_explanation_draws)
    by (vm_compute; reflexivity).
  assert (Hp : (0 < 72)%Z) by reflexivity.
  split; [exact Hr|]. split; [exact Hp|].
  exact (explanation_lines_bounded test_fonts wordy_card Hr Hp).
Defined.

(* ===================================================================== *)
(** ** textwrap: splitting into chunks *)
(* ===================================================================== *)

Lemma ws_run_le s : TextWrap.ws_run s <= length s.
Proof.
  induction s as [|c r IH]; simpl; [lia|].
  destruct (TextWrap.whitespace c); simpl; lia.
Qed.

Lemma hyphen_run_le s : TextWrap.hyphen_run s <= length s.
Proof.
  induction s as [|c r IH]; simpl; [lia|].
  destruct (is_hyphen c); simpl; lia.
Qed.

Lemma word_rest_eq before s :
  TextWrap.word_rest before s
  = if TextWrap.hyphen_break before s then 1
    else if TextWrap.ahead_word_end s then 0
    else if TextWrap.behind_word_punct before && TextWrap.ahead_emdash s then 0
    else match s with
         | c :: r => S (TextWrap.word_rest (c :: before) r)
         | [] => 0
         end.
Proof. destruct s; reflexivity. Qed.

Lemma hyphen_break_cons before s :
  TextWrap.hyphen_break before s = true -> exists h r, s = h :: r /\ is_hyphen h = true.
Proof.
  destruct s as [|h r]; [discriminate|]. intros Hb. exists h, r. split; [reflexivity|].
  unfold TextWrap.hyphen_break in Hb.
  apply andb_true_iff in Hb as [Hb _]. apply andb_true_iff in Hb as [Hb _]. exact Hb.
Qed.

Lemma word_rest_le s : forall before, TextWrap.word_rest before s <= length s.
Proof.
  induction s as [|c r IH]; intros before; rewrite word_rest_eq.
  - destruct (TextWrap.hyphen_break before []) eqn:Hb.
    + apply hyphen_break_cons in Hb as [h [r [Heq _]]]. discriminate.
    + simpl. lia.
  - destruct (TextWrap.hyphen_break before (c :: r)); [simpl; lia|].
    destruct (TextWrap.ahead_word_end (c :: r)); [simpl; lia|].
    destruct (TextWrap.behind_word_punct before && TextWrap.ahead_emdash (c :: r));
      [simpl; lia|].
    specialize (IH (c :: before)). simpl. lia.
Qed.

(** A match of [wordsep_re] takes at least one character of a text that is
    not empty, and no more than there are. *)
Lemma match_len_bounds before s :
  s <> [] ->
  1 <= TextWrap.match_len before s <= length s.
Proof.
  destruct s as [|c r]; [congruence|]. intros _. unfold TextWrap.match_len.
  destruct (TextWrap.whitespace c) eqn:Hws.
  - pose proof (ws_run_le (c :: r)) as Hle. simpl in *. rewrite Hws in *. lia.
  - destruct (TextWrap.behind_word_punct before && TextWrap.ahead_emdash (c :: r)) eqn:Hem.
    + apply andb_true_iff in Hem as [_ Hem]. unfold TextWrap.ahead_emdash in Hem.
      apply andb_true_iff in Hem as [Hem _]. apply Nat.leb_le in Hem.
      pose proof (hyphen_run_le (c :: r)). lia.
    + pose proof (word_rest_le r (c :: before)). simpl. lia.
Qed.

(** The chunks are a partition of the text into non-empty pieces. *)
Lemma split_from_partition fuel : forall before s,
  length s <= fuel ->
  concat (TextWrap.split_from fuel before s) = s
  /\ Forall (fun c => c <> []) (TextWrap.split_from fuel before s).
Proof.
  induction fuel as [|fuel IH]; intros before s Hlen.
  - destruct s; [|simpl in Hlen; lia]. split; [reflexivity | constructor].
  - destruct s as [|c r]; [split; [reflexivity | constructor]|].
    cbn [TextWrap.split_from].
    assert (Hn : 1 <= TextWrap.match_len before (c :: r) <= length (c :: r))
      by (apply match_len_bounds; discriminate).
    remember (TextWrap.match_len before (c :: r)) as n eqn:Heqn. clear Heqn.
    remember (c :: r) as s eqn:Heqs.
    assert (Hs : length s <= S fuel) by exact Hlen.
    destruct (IH (rev (firstn n s) ++ before) (skipn n s)) as [Hc Hne].
    { rewrite length_skipn. lia. }
    split.
    + cbn [concat]. rewrite Hc. apply firstn_skipn.
    + constructor; [|exact Hne].
      intros Hnil. apply (f_equal (@length ascii)) in Hnil.
      rewrite length_firstn in Hnil. simpl in Hnil. lia.
Qed.

Lemma split_partition text :
  concat (TextWrap.split text) = text
  /\ Forall (fun c => c <> []) (TextWrap.split text).
Proof. apply split_from_partition. lia. Qed.

Lemma total_len_concat chunks : TextWrap.total_len chunks = length (concat chunks).
Proof.
  unfold TextWrap.total_len. induction chunks as [|c r IH]; simpl; [reflexivity|].
  rewrite length_app, IH. reflexivity.
Qed.

Lemma total_len_app a b :
  TextWrap.total_len (a ++ b) = TextWrap.total_len a + TextWrap.total_len b.
Proof. rewrite !total_len_concat, concat_app, length_app. reflexivity. Qed.

Lemma weight_app a b : TextWrap.weight (a ++ b) = TextWrap.weight a + TextWrap.weight b.
Proof. unfold TextWrap.weight. rewrite total_len_app, length_app. lia. Qed.

Lemma weight_cons c r : TextWrap.weight (c :: r) = S (length c) + TextWrap.weight r.
Proof. unfold TextWrap.weight, TextWrap.total_len. simpl. lia. Qed.

(* ===================================================================== *)
(** ** textwrap: filling lines *)
(* ===================================================================== *)

(** The inner loop moves a prefix of the chunks to the line; it stops at the
    end of the chunks or at a chunk that does not fit, and never fills the
    line beyond the width. *)
Lemma fill_line_spec width chunks : forall cur_line cur_len,
  exists taken rest,
    chunks = taken ++ rest
    /\ TextWrap.fill_line width cur_line cur_len chunks
       = (cur_line ++ taken, cur_len + TextWrap.total_len taken, rest)
    /\ match rest with
       | [] => True
       | c :: _ => width < cur_len + TextWrap.total_len taken + length c
       end
    /\ (cur_len <= width -> cur_len + TextWrap.total_len taken <= width).
Proof.
  induction chunks as [|c r IH]; intros cur_line cur_len.
  - exists [], []. simpl. rewrite app_nil_r. unfold TextWrap.total_len. simpl.
    rewrite Nat.add_0_r. repeat split; auto.
  - simpl. destruct (Nat.leb_spec (cur_len + length c) width) as [Hfit|Hfull].
    + destruct (IH (cur_line ++ [c]) (cur_len + length c))
        as [taken [rest [Heq [Hfill [Hstop Hroom]]]]].
      exists (c :: taken), rest.
      assert (Ht : TextWrap.total_len (c :: taken) = length c + TextWrap.total_len taken)
        by reflexivity.
      rewrite Ht. repeat split.
      * simpl. f_equal. exact Heq.
      * rewrite Hfill. rewrite <- app_assoc. simpl. f_equal. f_equal. lia.
      * destruct rest; [exact I | lia].
      * intros _. specialize (Hroom Hfit). lia.
    + exists [], (c :: r). unfold TextWrap.total_len. simpl.
      rewrite !app_nil_r, !Nat.add_0_r. repeat split; auto; lia.
Qed.

Lemma rfind_hyphen_lt chunk : forall stop i,
  TextWrap.rfind_hyphen chunk stop = Some i -> i < stop /\ i < length chunk.
Proof.
  induction chunk as [|c r IH]; intros [|stop] i Hi; simpl in Hi; try discriminate.
  destruct (TextWrap.rfind_hyphen r stop) as [j|] eqn:Hj.
  - inversion Hi; subst. apply IH in Hj. simpl. lia.
  - destruct (is_hyphen c); inversion Hi; subst. simpl. lia.
Qed.

Lemma rfind_hyphen_none chunk : forall stop,
  no_hyphen chunk = true -> TextWrap.rfind_hyphen chunk stop = None.
Proof.
  induction chunk as [|c r IH]; intros [|stop] Hn; simpl; try reflexivity.
  simpl in Hn. apply andb_true_iff in Hn as [Hc Hr]. rewrite (IH _ Hr).
  apply negb_true_iff in Hc. rewrite Hc. reflexivity.
Qed.

(** Breaking a long chunk puts its first [stop] characters on the line and
    leaves the others; [stop] is positive as soon as the line is not full,
    and is the room left on the line when the chunk holds no hyphen. *)
Lemma handle_long_word_spec chunk rest cur_line cur_len width :
  exists stop,
    TextWrap.handle_long_word chunk rest cur_line cur_len width
    = (cur_line ++ [firstn stop chunk], skipn stop chunk :: rest)
    /\ (cur_len < width \/ width < 1 -> 1 <= stop)
    /\ (no_hyphen chunk = true ->
        stop = if width <? 1 then 1 else width - cur_len).
Proof.
  unfold TextWrap.handle_long_word.
  set (space_left := if width <? 1 then 1 else width - cur_len).
  assert (Hsl : cur_len < width \/ width < 1 -> 1 <= space_left).
  { subst space_left. destruct (Nat.ltb_spec width 1); lia. }
  destruct (space_left <? length chunk).
  - destruct (TextWrap.rfind_hyphen chunk space_left) as [i|] eqn:Hr.
    + destruct ((0 <? i) && existsb (fun c => negb (is_hyphen c)) (firstn i chunk)).
      * exists (i + 1). repeat split; [lia|].
        intros Hn. rewrite (rfind_hyphen_none _ _ Hn) in Hr. discriminate.
      * exists space_left. repeat split; auto.
    + exists space_left. repeat split; auto.
  - exists space_left. repeat split; auto.
Qed.

(** One pass of the outer loop, case by case: after a blank first chunk is
    dropped (when a line was already made), a prefix [taken] of the chunks
    goes to the line; then either the next chunk is longer than the width
    and is broken at [stop], or the chunks that follow are left as they
    are.  The line made is the concatenation of what is on it once a blank
    last chunk is dropped, if anything is left. *)
Lemma wrap_line_spec width c rest lines :
  exists taken rest',
    (if is_blank c && negb (length lines =? 0) then rest else c :: rest)
    = taken ++ rest'
    /\ TextWrap.total_len taken <= width
    /\ ((exists long rest2 stop,
           rest' = long :: rest2
           /\ width < length long
           /\ (TextWrap.total_len taken < width \/ width < 1 -> 1 <= stop)
           /\ (no_hyphen long = true ->
               stop = if width <? 1 then 1 else width - TextWrap.total_len taken)
           /\ TextWrap.wrap_line width c rest lines
              = (skipn stop long :: rest2,
                 lines ++ match TextWrap.drop_trailing_blank (taken ++ [firstn stop long]) with
                          | [] => []
                          | cur => [concat cur]
                          end))
        \/ (match rest' with
            | [] => True
            | r :: _ => length r <= width /\ width < TextWrap.total_len taken + length r
            end
            /\ TextWrap.wrap_line width c rest lines
               = (rest',
                  lines ++ match TextWrap.drop_trailing_blank taken with
                           | [] => []
                           | cur => [concat cur]
                           end))).
Proof.
  unfold TextWrap.wrap_line.
  set (chunks1 := if is_blank c && negb (length lines =? 0) then rest else c :: rest).
  destruct (fill_line_spec width chunks1 [] 0) as [taken [rest' [Heq [Hfill [Hstop Hroom]]]]].
  rewrite Hfill. simpl app. simpl Nat.add in *.
  exists taken, rest'. split; [exact Heq|]. split; [apply Hroom; lia|].
  destruct rest' as [|long rest2].
  - right. split; [exact I|].
    destruct (TextWrap.drop_trailing_blank taken); [rewrite app_nil_r|]; reflexivity.
  - destruct (Nat.ltb_spec width (length long)) as [Hlong|Hshort].
    + left.
      destruct (handle_long_word_spec long rest2 taken (TextWrap.total_len taken) width)
        as [stop [Hh [Hpos Hplain]]].
      rewrite Hh. exists long, rest2, stop. repeat split; auto.
      destruct (TextWrap.drop_trailing_blank (taken ++ [firstn stop long]));
        [rewrite app_nil_r|]; reflexivity.
    + right. split; [split; [exact Hshort | exact Hstop]|].
      destruct (TextWrap.drop_trailing_blank taken); [rewrite app_nil_r|]; reflexivity.
Qed.

(** Every pass of the outer loop lowers the weight of the chunks. *)
Lemma wrap_line_weight width c rest lines :
  TextWrap.weight (fst (TextWrap.wrap_line width c rest lines))
  < TextWrap.weight (c :: rest).
Proof.
  destruct (wrap_line_spec width c rest lines)
    as [taken [rest' [Heq [Hlen [[long [rest2 [stop [-> [Hlong [Hpos [_ Hw]]]]]]] | [Hfit Hw]]]]]];
    rewrite Hw; simpl fst.
  - assert (Hle : TextWrap.weight (taken ++ long :: rest2) <= TextWrap.weight (c :: rest)
                  /\ (taken ++ long :: rest2 = c :: rest
                      \/ TextWrap.weight (taken ++ long :: rest2) < TextWrap.weight (c :: rest))).
    { rewrite <- Heq. destruct (is_blank c && negb (length lines =? 0)).
      - rewrite weight_cons. split; [lia | right; lia].
      - split; [lia | left; reflexivity]. }
    rewrite weight_app, !weight_cons in Hle. rewrite !weight_cons.
    rewrite length_skipn.
    destruct taken as [|t ts].
    + assert (1 <= stop) by (apply Hpos; unfold TextWrap.total_len; simpl; lia).
      change (TextWrap.weight []) with 0 in Hle. lia.
    + rewrite weight_cons in Hle. lia.
  - assert (Hle : (taken ++ rest' = c :: rest
                   \/ TextWrap.weight (taken ++ rest') < TextWrap.weight (c :: rest))).
    { rewrite <- Heq. destruct (is_blank c && negb (length lines =? 0)).
      - rewrite weight_cons. right; lia.
      - left; reflexivity. }
    rewrite weight_app in Hle.
    destruct taken as [|t ts].
    + change (TextWrap.weight []) with 0 in Hle.
      destruct Hle as [Hsame | Hlt]; [|simpl; lia].
      simpl in Hsame. subst rest'. unfold TextWrap.total_len in Hfit. simpl in Hfit. lia.
    + rewrite weight_cons in Hle. destruct Hle as [Hsame | Hlt]; [|lia].
      rewrite <- Hsame. rewrite <- app_comm_cons, weight_cons, weight_app. lia.
Qed.

Lemma wrap_loop_nil fuel width lines :
  TextWrap.wrap_loop fuel width [] lines = Some lines.
Proof. destruct fuel; reflexivity. Qed.

(** The outer loop returns: the fuel of [wrap_chunks] is enough. *)
Lemma wrap_loop_terminates fuel : forall width chunks lines,
  TextWrap.weight chunks <= fuel ->
  exists out, TextWrap.wrap_loop fuel width chunks lines = Some out.
Proof.
  induction fuel as [|fuel IH]; intros width chunks lines Hw.
  - destruct chunks as [|c rest]; [exists lines; reflexivity|].
    rewrite weight_cons in Hw. lia.
  - destruct chunks as [|c rest]; [exists lines; reflexivity|].
    cbn [TextWrap.wrap_loop].
    pose proof (wrap_line_weight width c rest lines) as Hlt.
    destruct (TextWrap.wrap_line width c rest lines) as [chunks' lines'].
    apply IH. simpl in Hlt. lia.
Qed.

Lemma wrap_chunks_returns width chunks :
  TextWrap.wrap_loop (S (TextWrap.weight chunks)) width chunks []
  = Some (TextWrap.wrap_chunks width chunks).
Proof.
  unfold TextWrap.wrap_chunks.
  destruct (wrap_loop_terminates (fuel := S (TextWrap.weight chunks)) width chunks [])
    as [out Hout]; [lia|].
  rewrite Hout. reflexivity.
Qed.

(* ===================================================================== *)
(** ** A text without whitespace *)
(* ===================================================================== *)

Lemma whitespace_isspace c : TextWrap.whitespace c = true -> isspace c = true.
Proof.
  unfold TextWrap.whitespace, isspace, in_range, is_char. intros Hw.
  apply orb_true_iff in Hw as [Hw | Hw].
  - rewrite Hw. reflexivity.
  - apply Nat.eqb_eq in Hw. rewrite Hw. reflexivity.
Qed.

Lemma not_isspace_not_whitespace c : isspace c = false -> TextWrap.whitespace c = false.
Proof.
  intros Hs. destruct (TextWrap.whitespace c) eqn:Hw; [|reflexivity].
  apply whitespace_isspace in Hw. congruence.
Qed.

Lemma tab_whitespace c : is_char 9 c = true -> TextWrap.whitespace c = true.
Proof. intros Hc. apply is_char_eq in Hc. subst c. reflexivity. Qed.

Lemma newline_whitespace c : is_char 10 c = true -> TextWrap.whitespace c = true.
Proof. intros Hc. apply is_char_eq in Hc. subst c. reflexivity. Qed.

Lemma split_lines_one s :
  forallb (fun c => negb (TextWrap.whitespace c)) s = true -> split_lines s = [s].
Proof.
  induction s as [|c r IH]; simpl; [reflexivity|].
  intros Hall. apply andb_true_iff in Hall as [Hc Hr].
  destruct (is_char 10 c) eqn:Hnl.
  - apply newline_whitespace in Hnl. rewrite Hnl in Hc. discriminate.
  - rewrite (IH Hr). reflexivity.
Qed.

Lemma expandtabs_plain s : forall col,
  forallb (fun c => negb (TextWrap.whitespace c)) s = true ->
  TextWrap.expandtabs col s = s.
Proof.
  induction s as [|c r IH]; intros col; simpl; [reflexivity|].
  intros Hall. apply andb_true_iff in Hall as [Hc Hr].
  destruct (is_char 9 c) eqn:Htab.
  - apply tab_whitespace in Htab. rewrite Htab in Hc. discriminate.
  - f_equal. apply IH. exact Hr.
Qed.

Lemma translate_plain s :
  forallb (fun c => negb (TextWrap.whitespace c)) s = true ->
  TextWrap.translate s = s.
Proof.
  unfold TextWrap.translate. induction s as [|c r IH]; simpl; [reflexivity|].
  intros Hall. apply andb_true_iff in Hall as [Hc Hr].
  apply negb_true_iff in Hc. rewrite Hc. f_equal. apply IH. exact Hr.
Qed.

Lemma munge_plain s :
  forallb (fun c => negb (TextWrap.whitespace c)) s = true ->
  TextWrap.munge_whitespace s = s.
Proof.
  intros Hall. unfold TextWrap.munge_whitespace.
  rewrite (expandtabs_plain _ _ Hall). apply translate_plain. exact Hall.
Qed.

Lemma is_word_plain s :
  is_word s = true ->
  s <> [] /\ forallb (fun c => negb (TextWrap.whitespace c)) s = true.
Proof.
  unfold is_word. intros Hw. apply andb_true_iff in Hw as [Hne Hall]. split.
  - intros ->. discriminate.
  - rewrite forallb_forall in *. intros c Hc. specialize (Hall c Hc).
    apply negb_true_iff in Hall. apply negb_true_iff.
    apply not_isspace_not_whitespace. exact Hall.
Qed.

(** No chunk of a text without whitespace is blank. *)
Lemma chunks_of_word_not_blank s :
  is_word s = true ->
  Forall (fun c => is_blank c = false) (TextWrap.split s).
Proof.
  intros Hw. destruct (split_partition s) as [Hcat Hne].
  unfold is_word in Hw. apply andb_true_iff in Hw as [_ Hall].
  rewrite forallb_forall in Hall.
  rewrite Forall_forall in *. intros c Hc.
  specialize (Hne c Hc). destruct c as [|x c']; [congruence|].
  assert (Hx : In x s).
  { rewrite <- Hcat. apply in_concat. exists (x :: c'). split; [exact Hc | left; reflexivity]. }
  specialize (Hall x Hx). apply negb_true_iff in Hall.
  unfold is_blank. simpl. rewrite Hall. reflexivity.
Qed.

Lemma drop_trailing_blank_keep cur_line :
  Forall (fun c => is_blank c = false) cur_line ->
  TextWrap.drop_trailing_blank cur_line = cur_line.
Proof.
  unfold TextWrap.drop_trailing_blank. intros Hall.
  destruct (rev cur_line) as [|last_chunk front] eqn:Hrev; [reflexivity|].
  rewrite Forall_forall in Hall. rewrite (Hall last_chunk); [reflexivity|].
  apply in_rev. rewrite Hrev. left. reflexivity.
Qed.

(** Chunks that fit together on the width make one line. *)
Lemma wrap_chunks_single_line width chunks :
  chunks <> [] ->
  TextWrap.total_len chunks <= width ->
  Forall (fun c => is_blank c = false) chunks ->
  TextWrap.wrap_chunks width chunks = [concat chunks].
Proof.
  intros Hne Hlen Hsolid. destruct chunks as [|c rest]; [congruence|].
  unfold TextWrap.wrap_chunks. cbn [TextWrap.wrap_loop].
  destruct (wrap_line_spec width c rest [])
    as [taken [rest' [Heq [_ [[long [rest2 [stop [-> [Hlong [_ [_ _]]]]]]] | [Hfit Hw]]]]]];
    cbn [length Nat.eqb negb] in Heq; rewrite andb_false_r in Heq.
  - rewrite Heq, total_len_app in Hlen.
    unfold TextWrap.total_len at 2 in Hlen. simpl in Hlen. lia.
  - rewrite Hw. destruct rest' as [|r rest2].
    + rewrite app_nil_r in Heq. subst taken.
      rewrite (drop_trailing_blank_keep Hsolid), wrap_loop_nil. reflexivity.
    + rewrite Heq, total_len_app in Hlen.
      unfold TextWrap.total_len at 2 in Hlen. simpl in Hlen. lia.
Qed.

Lemma fold_append_line font max_width wrapped : forall lines,
  fold_left (append_line font max_width) wrapped lines = lines ++ wrapped.
Proof.
  induction wrapped as [|l r IH]; intros lines; simpl; [symmetry; apply app_nil_r|].
  rewrite IH. unfold append_line.
  destruct (_ <=? max_width)%Z; rewrite <- app_assoc; reflexivity.
Qed.

(** C2, as amended: a single word (no whitespace) whose length is within
    the character budget comes back whole as the only line, whatever its
    rendered width, wider than [max_width] included. *)
Theorem single_word_within_budget font max_width k word :
  estimate_max_chars font max_width = Ok k ->
  is_word word = true ->
  (len word <= k)%Z ->
  wrap_text (Some word) font max_width = Ok [word].
Proof.
  intros Hk Hw Hlen. destruct (is_word_plain _ Hw) as [Hne Hplain].
  unfold wrap_text. destruct word as [|c w]; [congruence|].
  rewrite Hk. cbn [bind]. rewrite (split_lines_one _ Hplain).
  cbn [wrap_paragraphs]. unfold TextWrap.wrap.
  assert (Hpos : (k <=? 0)%Z = false).
  { apply Z.leb_gt. unfold len in Hlen. simpl length in Hlen. lia. }
  rewrite Hpos. cbn [bind].
  unfold TextWrap.split_chunks. rewrite (munge_plain _ Hplain).
  destruct (split_partition (c :: w)) as [Hcat Hnonempty].
  rewrite wrap_chunks_single_line.
  - rewrite Hcat, fold_append_line. reflexivity.
  - intros Hnil. rewrite Hnil in Hcat. discriminate.
  - rewrite total_len_concat, Hcat. unfold len in Hlen. lia.
  - apply chunks_of_word_not_blank. exact Hw.
Qed.

(** C2 fails as stated: a word of ten letters, 100 pixels wide in a font
    with glyphs of 10 pixels, wrapped to 45 pixels (a budget of five
    characters), is broken into two lines. *)
Lemma long_word_is_broken :
  is_word (py "abcdefghij") = true
  /\ bbox_right (getbbox (fixed_font 10 40) (py "abcdefghij")) = 100%Z
  /\ estimate_max_chars (fixed_font 10 40) 45 = Ok 5%Z
  /\ wrap_text (Some (py "abcdefghij")) (fixed_font 10 40) 45
     = Ok [py "abcde"; py "fghij"].
Proof. repeat split; vm_compute; reflexivity. Qed.

(** C2 as amended, at the same word wrapped to 95 pixels: the budget is ten
    characters, the word is 100 pixels wide and stays whole. *)
Lemma single_word_within_budget_witness :
  wrap_text (Some (py "abcdefghij")) (fixed_font 10 40) 95 = Ok [py "abcdefghij"].
Proof.
  apply single_word_within_budget with (k := 10%Z).
  - vm_compute. reflexivity.
  - reflexivity.
  - vm_compute. discriminate.
Defined.

(* ===================================================================== *)
(** ** Words *)
(* ===================================================================== *)

Section Words.

Variable sep : ascii -> bool.

Lemma cons_word_app w ws ws' : cons_word w (ws ++ ws') = cons_word w ws ++ ws'.
Proof. destruct w; reflexivity. Qed.

Lemma words_aux_cons c r :
  words_aux sep (c :: r)
  = if sep c then ([], words_by sep r)
    else (c :: fst (words_aux sep r), snd (words_aux sep r)).
Proof.
  unfold words_by. simpl. destruct (words_aux sep r) as [w ws]. reflexivity.
Qed.

Lemma words_by_cons_sep c r : sep c = true -> words_by sep (c :: r) = words_by sep r.
Proof.
  intros Hc. unfold words_by at 1. rewrite words_aux_cons, Hc. reflexivity.
Qed.

(** Before a text that starts with a separator (or is empty), the words of
    the two parts are kept apart. *)
Lemma words_aux_app a b :
  fst (words_aux sep b) = [] ->
  words_aux sep (a ++ b)
  = (fst (words_aux sep a), snd (words_aux sep a) ++ snd (words_aux sep b)).
Proof.
  intros Hb. induction a as [|c a IH].
  - simpl. destruct (words_aux sep b) as [w ws]. simpl in *. subst. reflexivity.
  - rewrite <- app_comm_cons, !words_aux_cons. unfold words_by. rewrite IH.
    destruct (sep c); simpl; [|reflexivity].
    rewrite cons_word_app. reflexivity.
Qed.

Lemma words_by_app_sep a c b :
  sep c = true ->
  words_by sep (a ++ c :: b) = words_by sep a ++ words_by sep b.
Proof.
  intros Hc. unfold words_by at 1. rewrite words_aux_app.
  - cbn [fst snd]. rewrite cons_word_app. f_equal.
    rewrite words_aux_cons, Hc. reflexivity.
  - rewrite words_aux_cons, Hc. reflexivity.
Qed.

Lemma words_by_blank s : forallb sep s = true -> words_by sep s = [].
Proof.
  induction s as [|c r IH]; [reflexivity|]. simpl. intros Hall.
  apply andb_true_iff in Hall as [Hc Hr]. rewrite (words_by_cons_sep _ Hc). auto.
Qed.

Lemma words_by_blank_app s t :
  forallb sep s = true -> words_by sep (s ++ t) = words_by sep t.
Proof.
  induction s as [|c r IH]; [reflexivity|]. simpl. intros Hall.
  apply andb_true_iff in Hall as [Hc Hr]. rewrite (words_by_cons_sep _ Hc). auto.
Qed.

Lemma words_by_app_blank s t :
  forallb sep t = true -> words_by sep (s ++ t) = words_by sep s.
Proof.
  intros Ht. destruct t as [|c t']; [rewrite app_nil_r; reflexivity|].
  simpl in Ht. apply andb_true_iff in Ht as [Hc Ht'].
  rewrite (words_by_app_sep _ _ Hc), (words_by_blank _ Ht'). apply app_nil_r.
Qed.

(** A text without separator is one word. *)
Lemma words_aux_solid s :
  forallb (fun c => negb (sep c)) s = true -> words_aux sep s = (s, []).
Proof.
  induction s as [|c r IH]; [reflexivity|]. simpl. intros Hall.
  apply andb_true_iff in Hall as [Hc Hr]. apply negb_true_iff in Hc.
  rewrite (IH Hr), Hc. reflexivity.
Qed.

(** A run without separator, followed by nothing or by a separator, is the
    first word. *)
Lemma words_by_run run rest :
  run <> [] ->
  forallb (fun c => negb (sep c)) run = true ->
  match rest with c :: _ => sep c = true | [] => True end ->
  words_by sep (run ++ rest) = run :: words_by sep rest.
Proof.
  intros Hne Hrun Hrest.
  assert (Hfst : fst (words_aux sep rest) = []).
  { destruct rest as [|c r]; [reflexivity|]. rewrite words_aux_cons, Hrest. reflexivity. }
  unfold words_by. rewrite (words_aux_app _ _ Hfst), (words_aux_solid _ Hrun), Hfst.
  simpl. destruct run; [congruence | reflexivity].
Qed.

(** The words of parts joined by a separator are the words of the parts. *)
Lemma words_by_join c parts :
  sep c = true ->
  words_by sep (join [c] parts) = concat (map (words_by sep) parts).
Proof.
  intros Hc. induction parts as [|p rest IH]; [reflexivity|].
  destruct rest as [|q rest'].
  - simpl. rewrite app_nil_r. reflexivity.
  - change (join [c] (p :: q :: rest')) with (p ++ c :: join [c] (q :: rest')).
    rewrite (words_by_app_sep _ _ Hc), IH. reflexivity.
Qed.

End Words.

Lemma split_lines_not_nil s : split_lines s <> [].
Proof.
  destruct s as [|c r]; simpl; [discriminate|].
  destruct (is_char 10 c); [discriminate|].
  destruct (split_lines r); discriminate.
Qed.

Lemma join_split_lines s : join [newline] (split_lines s) = s.
Proof.
  induction s as [|c r IH]; [reflexivity|]. simpl.
  pose proof (split_lines_not_nil r) as Hne.
  destruct (is_char 10 c) eqn:Hc.
  - apply is_char_eq in Hc. subst c.
    destruct (split_lines r) as [|l ls]; [congruence|].
    change (join [newline] ([] :: l :: ls)) with (newline :: join [newline] (l :: ls)).
    rewrite IH. reflexivity.
  - destruct (split_lines r) as [|l ls]; [congruence|].
    rewrite <- IH. destruct ls; reflexivity.
Qed.

(** The words of a text are the words of its paragraphs. *)
Lemma words_by_paragraphs sep s :
  sep newline = true ->
  words_by sep s = concat (map (words_by sep) (split_lines s)).
Proof.
  intros Hnl. rewrite <- (join_split_lines s) at 1. apply words_by_join. exact Hnl.
Qed.

(* ===================================================================== *)
(** ** Tabs and whitespace do not change the words *)
(* ===================================================================== *)

Lemma words_aux_spaces sep n rest :
  sep space = true ->
  words_aux sep (repeat space (S n) ++ rest) = ([], words_by sep rest).
Proof.
  intros Hs. induction n as [|n IH].
  - simpl repeat. simpl app. rewrite words_aux_cons, Hs. reflexivity.
  - change (repeat space (S (S n)) ++ rest) with (space :: (repeat space (S n) ++ rest)).
    rewrite words_aux_cons, Hs. unfold words_by. rewrite IH. reflexivity.
Qed.

Lemma translate_app a b :
  TextWrap.translate (a ++ b) = TextWrap.translate a ++ TextWrap.translate b.
Proof. apply map_app. Qed.

Lemma translate_spaces n : TextWrap.translate (repeat space n) = repeat space n.
Proof. induction n as [|n IH]; simpl; [reflexivity | f_equal; exact IH]. Qed.

Lemma words_aux_munge sep :
  (forall c, TextWrap.whitespace c = true -> sep c = true) ->
  forall p col,
    words_aux sep (TextWrap.translate (TextWrap.expandtabs col p)) = words_aux sep p.
Proof.
  intros Hsep. assert (Hspace : sep space = true) by (apply Hsep; reflexivity).
  induction p as [|c r IH]; intros col; [reflexivity|].
  cbn [TextWrap.expandtabs]. destruct (is_char 9 c) eqn:Htab.
  - assert (Hc : sep c = true) by (apply Hsep, tab_whitespace, Htab).
    rewrite translate_app, translate_spaces.
    assert (Hincr : exists n, 8 - col mod 8 = S n).
    { pose proof (Nat.mod_upper_bound col 8). exists (7 - col mod 8). lia. }
    destruct Hincr as [n ->].
    rewrite (words_aux_spaces _ _ _ Hspace), words_aux_cons, Hc.
    unfold words_by. rewrite IH. reflexivity.
  - change (TextWrap.translate (c :: TextWrap.expandtabs
              (if is_char 10 c || is_char 13 c then 0 else S col) r))
      with ((if TextWrap.whitespace c then space else c)
            :: TextWrap.translate (TextWrap.expandtabs
                 (if is_char 10 c || is_char 13 c then 0 else S col) r)).
    rewrite !words_aux_cons. unfold words_by. rewrite IH.
    destruct (TextWrap.whitespace c) eqn:Hw; [|reflexivity].
    rewrite Hspace, (Hsep c Hw). reflexivity.
Qed.

Lemma words_by_munge sep p :
  (forall c, TextWrap.whitespace c = true -> sep c = true) ->
  words_by sep (TextWrap.munge_whitespace p) = words_by sep p.
Proof.
  intros Hsep. unfold words_by, TextWrap.munge_whitespace.
  rewrite (words_aux_munge _ Hsep). reflexivity.
Qed.

Lemma no_hyphen_munge p : forall col,
  no_hyphen p = true ->
  no_hyphen (TextWrap.translate (TextWrap.expandtabs col p)) = true.
Proof.
  unfold no_hyphen. induction p as [|c r IH]; intros col; [reflexivity|].
  cbn [TextWrap.expandtabs forallb]. intros Hall. apply andb_true_iff in Hall as [Hc Hr].
  destruct (is_char 9 c).
  - rewrite translate_app, translate_spaces, forallb_app, (IH _ Hr), andb_true_r.
    apply forallb_forall. intros x Hx. apply repeat_spec in Hx. subst x. reflexivity.
  - cbn [TextWrap.translate map forallb]. fold (TextWrap.translate).
    rewrite (IH _ Hr), andb_true_r.
    destruct (TextWrap.whitespace c); [reflexivity | exact Hc].
Qed.

Lemma no_hyphen_paragraphs t :
  no_hyphen t = true -> Forall (fun p => no_hyphen p = true) (split_lines t).
Proof.
  unfold no_hyphen. induction t as [|c r IH]; [repeat constructor|].
  cbn [forallb split_lines]. intros Hall. apply andb_true_iff in Hall as [Hc Hr].
  specialize (IH Hr). destruct (is_char 10 c).
  - constructor; [reflexivity | exact IH].
  - destruct (split_lines r) as [|l ls]; [repeat constructor; simpl; rewrite Hc; reflexivity|].
    inversion IH as [|? ? Hl Hls]; subst. constructor; [|exact Hls].
    simpl. rewrite Hc, Hl. reflexivity.
Qed.

(* ===================================================================== *)
(** ** Chunks of a text without hyphen *)
(* ===================================================================== *)

Lemma hyphen_not_whitespace c : is_hyphen c = true -> TextWrap.whitespace c = false.
Proof. intros Hc. apply is_char_eq in Hc. subst c. reflexivity. Qed.

Lemma hyphen_break_no_hyphen before s :
  no_hyphen s = true -> TextWrap.hyphen_break before s = false.
Proof.
  intros Hn. destruct (TextWrap.hyphen_break before s) eqn:Hb; [|reflexivity].
  apply hyphen_break_cons in Hb as [h [r [-> Hh]]].
  simpl in Hn. rewrite Hh in Hn. discriminate.
Qed.

Lemma ahead_emdash_no_hyphen s :
  no_hyphen s = true -> TextWrap.ahead_emdash s = false.
Proof.
  intros Hn. unfold TextWrap.ahead_emdash. destruct s as [|c r]; [reflexivity|].
  simpl in Hn. apply andb_true_iff in Hn as [Hc _]. apply negb_true_iff in Hc.
  simpl. rewrite Hc. reflexivity.
Qed.

(** The run of whitespace at the head of a text. *)
Lemma ws_run_spec s :
  forallb TextWrap.whitespace (firstn (TextWrap.ws_run s) s) = true
  /\ match skipn (TextWrap.ws_run s) s with
     | c :: _ => TextWrap.whitespace c = false
     | [] => True
     end.
Proof.
  induction s as [|c r [IH1 IH2]]; [split; [reflexivity | exact I]|].
  simpl. destruct (TextWrap.whitespace c) eqn:Hc; simpl.
  - rewrite Hc, IH1. split; [reflexivity | exact IH2].
  - split; [reflexivity | exact Hc].
Qed.

(** Without hyphen, the rest of a word runs up to the next whitespace. *)
Lemma word_rest_spec s : forall before,
  no_hyphen s = true ->
  forallb (fun c => negb (TextWrap.whitespace c))
          (firstn (TextWrap.word_rest before s) s) = true
  /\ match skipn (TextWrap.word_rest before s) s with
     | c :: _ => TextWrap.whitespace c = true
     | [] => True
     end.
Proof.
  induction s as [|c r IH]; intros before Hn; rewrite word_rest_eq;
    rewrite (hyphen_break_no_hyphen _ _ Hn).
  - split; [reflexivity | exact I].
  - cbn [TextWrap.ahead_word_end]. destruct (TextWrap.whitespace c) eqn:Hc.
    + split; [reflexivity | exact Hc].
    + rewrite (ahead_emdash_no_hyphen _ Hn), andb_false_r.
      simpl in Hn. apply andb_true_iff in Hn as [_ Hr].
      destruct (IH (c :: before) Hr) as [IH1 IH2].
      cbn [firstn skipn forallb]. rewrite Hc, IH1. split; [reflexivity | exact IH2].
Qed.

(** Without hyphen, a match is a gap, or a solid chunk that ends at
    whitespace or at the end of the text. *)
Lemma match_len_spec before s :
  s <> [] ->
  no_hyphen s = true ->
  let n := TextWrap.match_len before s in
  (gap (firstn n s) = true
   \/ (solid (firstn n s) = true
       /\ match skipn n s with
          | c :: _ => TextWrap.whitespace c = true
          | [] => True
          end))
  /\ (match s with
      | c :: _ => TextWrap.whitespace c = true -> gap (firstn n s) = true
      | [] => True
      end).
Proof.
  intros Hne Hn. destruct s as [|c r]; [congruence|].
  pose proof (match_len_bounds before Hne) as Hb.
  cbv zeta. unfold TextWrap.match_len in *.
  destruct (TextWrap.whitespace c) eqn:Hc.
  - destruct (ws_run_spec (c :: r)) as [Hrun _].
    assert (Hg : gap (firstn (TextWrap.ws_run (c :: r)) (c :: r)) = true).
    { unfold gap. rewrite Hrun, andb_true_r. rewrite length_firstn.
      apply negb_true_iff, Nat.eqb_neq. lia. }
    split; [left; exact Hg | intros _; exact Hg].
  - rewrite (ahead_emdash_no_hyphen _ Hn), andb_false_r in *.
    simpl in Hn. apply andb_true_iff in Hn as [_ Hr].
    destruct (word_rest_spec r (c :: before) Hr) as [H1 H2].
    split; [right | intros Habs; discriminate].
    cbn [firstn skipn]. split; [|exact H2].
    unfold solid. cbn [length Nat.eqb negb forallb]. rewrite Hc, H1. reflexivity.
Qed.

Lemma no_hyphen_skipn n s : no_hyphen s = true -> no_hyphen (skipn n s) = true.
Proof.
  unfold no_hyphen. intros Hn. rewrite <- (firstn_skipn n s), forallb_app in Hn.
  apply andb_true_iff in Hn. apply Hn.
Qed.

Lemma gap_whitespace c : gap c = true -> forallb TextWrap.whitespace c = true.
Proof. unfold gap. intros Hg. apply andb_true_iff in Hg. apply Hg. Qed.

Lemma solid_plain c :
  solid c = true ->
  c <> [] /\ forallb (fun x => negb (TextWrap.whitespace x)) c = true.
Proof.
  unfold solid. intros Hs. apply andb_true_iff in Hs as [Hne Hall].
  split; [intros ->; discriminate | exact Hall].
Qed.

(** The chunks of a text without hyphen whose words fit in [k] characters
    are well formed: gaps and solid chunks of at most [k] characters, in
    alternation; and a text that starts with whitespace starts with a gap. *)
Lemma split_from_chunked k fuel : forall before s,
  length s <= fuel ->
  no_hyphen s = true ->
  words_fit (Z.of_nat k) s = true ->
  well_chunked k (TextWrap.split_from fuel before s) = true
  /\ match s, TextWrap.split_from fuel before s with
     | c :: _, ch :: _ => TextWrap.whitespace c = true -> gap ch = true
     | _, _ => True
     end.
Proof.
  unfold well_chunked, words_fit.
  induction fuel as [|fuel IH]; intros before s Hlen Hn Hfit.
  - destruct s; [split; [reflexivity | exact I] | simpl in Hlen; lia].
  - destruct s as [|c r]; [split; [reflexivity | exact I]|].
    cbn [TextWrap.split_from].
    assert (Hne : c :: r <> []) by discriminate.
    pose proof (match_len_bounds before Hne) as Hb.
    destruct (match_len_spec before Hne Hn) as [Hkind Hhead].
    remember (TextWrap.match_len before (c :: r)) as n eqn:Heqn. clear Heqn.
    remember (c :: r) as s eqn:Heqs.
    assert (Hs : length s <= S fuel) by exact Hlen.
    assert (Hsplit : s = firstn n s ++ skipn n s) by (symmetry; apply firstn_skipn).
    assert (Hrlen : length (skipn n s) <= fuel) by (rewrite length_skipn; lia).
    assert (Hrn : no_hyphen (skipn n s) = true) by (apply no_hyphen_skipn; exact Hn).
    remember (firstn n s) as chunk eqn:Hchunk_def.
    remember (skipn n s) as rest eqn:Hrest_def.
    clear Hchunk_def Hrest_def.
    assert (Hrest_fit :
              forallb (fun w => (len w <=? Z.of_nat k)%Z)
                      (words_by TextWrap.whitespace rest) = true
              /\ (gap chunk || solid chunk && (length chunk <=? k)) = true).
    { rewrite Hsplit in Hfit. destruct Hkind as [Hg | [Hsolid Hnext]].
      - rewrite (words_by_blank_app _ _ _ (gap_whitespace _ Hg)) in Hfit.
        rewrite Hg. split; [exact Hfit | reflexivity].
      - destruct (solid_plain _ Hsolid) as [Hcne Hplain].
        rewrite (words_by_run _ _ Hcne Hplain Hnext) in Hfit.
        cbn [forallb] in Hfit. apply andb_true_iff in Hfit as [Hk Hfit].
        split; [exact Hfit|]. rewrite Hsolid.
        apply Z.leb_le in Hk. unfold len in Hk.
        assert (Hle : (length chunk <=? k) = true) by (apply Nat.leb_le; lia).
        rewrite Hle. apply orb_true_r. }
    destruct Hrest_fit as [Hrest_fit Hchunk].
    destruct (IH (rev chunk ++ before) rest Hrlen Hrn Hrest_fit) as [IHw IHhead].
    apply andb_true_iff in IHw as [IHall IHalt].
    split.
    + cbn [forallb]. rewrite Hchunk, IHall. cbn [andb].
      destruct (TextWrap.split_from fuel (rev chunk ++ before) rest) as [|ch chs] eqn:Hsp;
        [reflexivity|].
      change (alternating (chunk :: ch :: chs))
        with ((gap chunk || gap ch) && alternating (ch :: chs)).
      rewrite IHalt, andb_true_r.
      destruct Hkind as [Hg | [Hsolid Hnext]]; [rewrite Hg; reflexivity|].
      destruct rest as [|x rest']; [destruct fuel; discriminate|].
      rewrite Hsp in IHhead. rewrite (IHhead Hnext). apply orb_true_r.
    + subst s. exact Hhead.
Qed.

Lemma split_chunked k s :
  no_hyphen s = true ->
  words_fit (Z.of_nat k) s = true ->
  well_chunked k (TextWrap.split s) = true.
Proof.
  intros Hn Hfit. apply (split_from_chunked k (fuel := length s) [] s); auto.
Qed.

(* ===================================================================== *)
(** ** Wrapping keeps the words *)
(* ===================================================================== *)

Lemma all_words_app a b : all_words (a ++ b) = all_words a ++ all_words b.
Proof. unfold all_words. rewrite map_app, concat_app. reflexivity. Qed.

Lemma all_words_cons c r : all_words (c :: r) = words c ++ all_words r.
Proof. reflexivity. Qed.

Lemma blank_no_word c : is_blank c = true -> words c = [].
Proof. apply words_by_blank. Qed.

Lemma gap_blank c : gap c = true -> is_blank c = true.
Proof.
  intros Hg. apply gap_whitespace in Hg. unfold is_blank.
  rewrite forallb_forall in *. intros x Hx. apply whitespace_isspace. auto.
Qed.

Lemma gap_no_hyphen c : gap c = true -> no_hyphen c = true.
Proof.
  intros Hg. apply gap_whitespace in Hg. unfold no_hyphen.
  rewrite forallb_forall in *. intros x Hx. specialize (Hg x Hx).
  destruct (is_hyphen x) eqn:Hh; [|reflexivity].
  apply hyphen_not_whitespace in Hh. congruence.
Qed.

Lemma alternating_tail c r : alternating (c :: r) = true -> alternating r = true.
Proof.
  destruct r as [|b r']; [reflexivity|].
  change (alternating (c :: b :: r')) with ((gap c || gap b) && alternating (b :: r')).
  intros Ha. apply andb_true_iff in Ha. apply Ha.
Qed.

Lemma alternating_app a b :
  alternating (a ++ b) = true -> alternating a = true /\ alternating b = true.
Proof.
  induction a as [|x a IH]; [intros Hb; split; [reflexivity | exact Hb]|].
  intros Ha. pose proof (alternating_tail _ _ Ha) as Ht. destruct (IH Ht) as [Ha' Hb].
  split; [|exact Hb].
  destruct a as [|y a']; [reflexivity|].
  change (alternating ((x :: y :: a') ++ b))
    with ((gap x || gap y) && alternating ((y :: a') ++ b)) in Ha.
  apply andb_true_iff in Ha as [Hxy _].
  change (alternating (x :: y :: a')) with ((gap x || gap y) && alternating (y :: a')).
  rewrite Hxy, Ha'. reflexivity.
Qed.

Lemma well_chunked_app k a b :
  well_chunked k (a ++ b) = true ->
  well_chunked k a = true /\ well_chunked k b = true.
Proof.
  unfold well_chunked. intros Hw. apply andb_true_iff in Hw as [Hall Halt].
  rewrite forallb_app in Hall. apply andb_true_iff in Hall as [Ha Hb].
  apply alternating_app in Halt as [Hxa Hxb].
  rewrite Ha, Hb, Hxa, Hxb. split; reflexivity.
Qed.

(** The words of chunks that alternate are the words of their
    concatenation. *)
Lemma words_concat_alternating chunks :
  alternating chunks = true -> words (concat chunks) = all_words chunks.
Proof.
  induction chunks as [|a rest IH]; [reflexivity|].
  intros Ha. specialize (IH (alternating_tail _ _ Ha)).
  destruct rest as [|b rest'].
  - simpl. rewrite app_nil_r. unfold all_words. simpl. rewrite app_nil_r. reflexivity.
  - change (alternating (a :: b :: rest'))
      with ((gap a || gap b) && alternating (b :: rest')) in Ha.
    apply andb_true_iff in Ha as [Hab _].
    rewrite all_words_cons, <- IH. cbn [concat].
    apply orb_true_iff in Hab as [Hg | Hg].
    + apply gap_blank in Hg. unfold words.
      rewrite (words_by_blank_app _ _ _ Hg). fold (words a).
      rewrite (blank_no_word _ Hg). reflexivity.
    + pose proof (gap_blank _ Hg) as Hblank.
      destruct b as [|x b']; [discriminate|].
      unfold is_blank in Hblank. cbn [forallb] in Hblank.
      apply andb_true_iff in Hblank as [Hx _].
      cbn [concat]. rewrite <- app_comm_cons. unfold words.
      rewrite (words_by_app_sep _ _ _ _ Hx), (words_by_cons_sep _ _ _ Hx). reflexivity.
Qed.

(** Dropping a blank last chunk leaves the line as it is or without its
    last chunk, which was blank. *)
Lemma drop_trailing_blank_spec cur_line :
  TextWrap.drop_trailing_blank cur_line = cur_line
  \/ exists front last_chunk,
       cur_line = front ++ [last_chunk]
       /\ is_blank last_chunk = true
       /\ TextWrap.drop_trailing_blank cur_line = front.
Proof.
  unfold TextWrap.drop_trailing_blank.
  destruct (rev cur_line) as [|last_chunk front] eqn:Hrev; [left; reflexivity|].
  destruct (is_blank last_chunk) eqn:Hb; [right | left; reflexivity].
  assert (Hcur : cur_line = rev front ++ [last_chunk]).
  { rewrite <- (rev_involutive cur_line), Hrev. reflexivity. }
  exists (rev front), last_chunk. repeat split; auto.
  rewrite Hcur. apply removelast_last.
Qed.

(** The line made of chunks that alternate holds their words. *)
Lemma line_words cur_line :
  alternating cur_line = true ->
  all_words match TextWrap.drop_trailing_blank cur_line with
            | [] => []
            | cur => [concat cur]
            end
  = all_words cur_line.
Proof.
  intros Ha.
  assert (Hcur : all_words (TextWrap.drop_trailing_blank cur_line) = all_words cur_line
                 /\ alternating (TextWrap.drop_trailing_blank cur_line) = true).
  { destruct (drop_trailing_blank_spec cur_line) as [-> | [front [lc [Heq [Hb ->]]]]];
      [split; [reflexivity | exact Ha]|].
    subst cur_line. rewrite all_words_app, all_words_cons, (blank_no_word _ Hb).
    apply alternating_app in Ha as [Ha _].
    unfold all_words at 3. simpl. rewrite !app_nil_r. split; [reflexivity | exact Ha]. }
  destruct Hcur as [Hw Halt]. rewrite <- Hw.
  destruct (TextWrap.drop_trailing_blank cur_line) as [|x cur]; [reflexivity|].
  unfold all_words at 1. simpl. rewrite app_nil_r.
  apply (words_concat_alternating (x :: cur)). exact Halt.
Qed.

Lemma forallb_firstn {A} (p : A -> bool) n l :
  forallb p l = true -> forallb p (firstn n l) = true.
Proof.
  intros Hl. rewrite <- (firstn_skipn n l), forallb_app in Hl.
  apply andb_true_iff in Hl. apply Hl.
Qed.

Lemma forallb_skipn {A} (p : A -> bool) n l :
  forallb p l = true -> forallb p (skipn n l) = true.
Proof.
  intros Hl. rewrite <- (firstn_skipn n l), forallb_app in Hl.
  apply andb_true_iff in Hl. apply Hl.
Qed.

(** One pass of the outer loop over well-formed chunks: the chunks left
    are well formed, and the words of the line made and of the chunks left
    are the words of the chunks. *)
Lemma wrap_line_chunked k c rest lines :
  1 <= k ->
  well_chunked k (c :: rest) = true ->
  exists made,
    snd (TextWrap.wrap_line k c rest lines) = lines ++ made
    /\ well_chunked k (fst (TextWrap.wrap_line k c rest lines)) = true
    /\ all_words made ++ all_words (fst (TextWrap.wrap_line k c rest lines))
       = all_words (c :: rest).
Proof.
  intros Hk Hwc.
  destruct (wrap_line_spec k c rest lines)
    as [taken [rest' [Heq [Hlen Hcases]]]].
  assert (Hstart : well_chunked k (taken ++ rest') = true
                   /\ all_words (taken ++ rest') = all_words (c :: rest)).
  { rewrite <- Heq. destruct (is_blank c && negb (length lines =? 0)) eqn:Hdrop.
    - apply andb_true_iff in Hdrop as [Hb _].
      rewrite all_words_cons, (blank_no_word _ Hb).
      change (c :: rest) with ([c] ++ rest) in Hwc.
      apply well_chunked_app in Hwc as [_ Hwc]. split; [exact Hwc | reflexivity].
    - split; [exact Hwc | reflexivity]. }
  destruct Hstart as [Hwc1 Hwords]. rewrite <- Hwords, all_words_app.
  destruct (well_chunked_app _ _ _ Hwc1) as [Hwt Hwr].
  assert (Halt : alternating taken = true).
  { unfold well_chunked in Hwt. apply andb_true_iff in Hwt. apply Hwt. }
  destruct Hcases as [[long [rest2 [stop [-> [Hlong [_ [Hstop Hw]]]]]]] | [_ Hw]];
    rewrite Hw; cbn [fst snd].
  - (* a chunk longer than the width is a gap, broken in two gaps *)
    unfold well_chunked in Hwr. apply andb_true_iff in Hwr as [Hall Haltr].
    cbn [forallb] in Hall. apply andb_true_iff in Hall as [Hkind Hall].
    assert (Hg : gap long = true).
    { apply orb_true_iff in Hkind as [Hg | Hs]; [exact Hg|].
      apply andb_true_iff in Hs as [_ Hs]. apply Nat.leb_le in Hs. lia. }
    specialize (Hstop (gap_no_hyphen _ Hg)).
    assert (Hk1 : (k <? 1) = false) by (apply Nat.ltb_ge; lia).
    rewrite Hk1 in Hstop.
    pose proof (gap_whitespace _ Hg) as Hws.
    assert (Hpiece : is_blank (firstn stop long) = true).
    { apply gap_blank in Hg. apply forallb_firstn. exact Hg. }
    assert (Hleft : gap (skipn stop long) = true).
    { unfold gap. rewrite (forallb_skipn _ _ _ Hws), andb_true_r, length_skipn.
      apply negb_true_iff, Nat.eqb_neq. lia. }
    assert (Hdrop : TextWrap.drop_trailing_blank (taken ++ [firstn stop long]) = taken).
    { unfold TextWrap.drop_trailing_blank. rewrite rev_app_distr. cbn [rev app].
      rewrite Hpiece. apply removelast_last. }
    rewrite Hdrop.
    eexists. split; [reflexivity|]. split.
    + unfold well_chunked. cbn [forallb]. rewrite Hleft, Hall. cbn [orb andb].
      destruct rest2 as [|b rest3]; [reflexivity|].
      change (alternating (skipn stop long :: b :: rest3))
        with ((gap (skipn stop long) || gap b) && alternating (b :: rest3)).
      rewrite Hleft. apply (alternating_tail _ _ Haltr).
    + rewrite !all_words_cons, (blank_no_word _ (gap_blank _ Hleft)),
        (blank_no_word _ (gap_blank _ Hg)).
      f_equal. destruct taken as [|x cur]; [reflexivity|].
      unfold all_words at 1. simpl map. simpl concat. rewrite app_nil_r.
      apply (words_concat_alternating (x :: cur)). exact Halt.
  - eexists. split; [reflexivity|]. split; [exact Hwr|].
    rewrite (line_words _ Halt). reflexivity.
Qed.

(** The outer loop over well-formed chunks returns lines that hold the
    words of the chunks. *)
Lemma wrap_loop_words k fuel : forall chunks lines,
  1 <= k ->
  TextWrap.weight chunks <= fuel ->
  well_chunked k chunks = true ->
  exists made,
    TextWrap.wrap_loop fuel k chunks lines = Some (lines ++ made)
    /\ all_words made = all_words chunks.
Proof.
  induction fuel as [|fuel IH]; intros chunks lines Hk Hw Hwc.
  - destruct chunks as [|c rest]; [|rewrite weight_cons in Hw; lia].
    exists []. rewrite app_nil_r. split; reflexivity.
  - destruct chunks as [|c rest].
    + exists []. rewrite app_nil_r. split; reflexivity.
    + cbn [TextWrap.wrap_loop].
      pose proof (wrap_line_weight k c rest lines) as Hlt.
      destruct (wrap_line_chunked c rest lines Hk Hwc) as [made [Hmade [Hwc' Hwords]]].
      destruct (TextWrap.wrap_line k c rest lines) as [chunks' lines'].
      cbn [fst snd] in *. subst lines'.
      destruct (IH chunks' (lines ++ made) Hk) as [made' [Hloop Hwords']]; [lia | exact Hwc'|].
      exists (made ++ made'). rewrite app_assoc. split; [exact Hloop|].
      rewrite all_words_app, Hwords', Hwords. reflexivity.
Qed.

(** A paragraph without hyphen whose words fit in the width is wrapped
    into lines that hold its words. *)
Lemma wrap_paragraph_words p k :
  (1 <= k)%Z ->
  no_hyphen p = true ->
  words_fit k p = true ->
  exists wrapped,
    TextWrap.wrap p k = Ok wrapped /\ all_words wrapped = words p.
Proof.
  intros Hk Hn Hfit. unfold TextWrap.wrap.
  assert (Hpos : (k <=? 0)%Z = false) by (apply Z.leb_gt; lia).
  rewrite Hpos. eexists. split; [reflexivity|].
  unfold TextWrap.wrap_chunks, TextWrap.split_chunks.
  set (text := TextWrap.munge_whitespace p).
  assert (Hwc : well_chunked (Z.to_nat k) (TextWrap.split text) = true).
  { apply split_chunked.
    - apply no_hyphen_munge. exact Hn.
    - rewrite Z2Nat.id by lia. unfold words_fit, text.
      rewrite words_by_munge by auto. exact Hfit. }
  destruct (wrap_loop_words (k := Z.to_nat k) (fuel := S (TextWrap.weight (TextWrap.split text)))
              (TextWrap.split text) []) as [made [Hloop Hwords]]; [lia | lia | exact Hwc|].
  rewrite Hloop. simpl app. rewrite Hwords.
  rewrite <- words_concat_alternating.
  - destruct (split_partition text) as [-> _]. unfold text, words.
    apply words_by_munge. apply whitespace_isspace.
  - unfold well_chunked in Hwc. apply andb_true_iff in Hwc. apply Hwc.
Qed.

Lemma words_fit_paragraphs k t :
  words_fit k t = true -> Forall (fun p => words_fit k p = true) (split_lines t).
Proof.
  unfold words_fit. rewrite (words_by_paragraphs TextWrap.whitespace t) by reflexivity.
  induction (split_lines t) as [|p ps IH]; [constructor|].
  cbn [map concat]. rewrite forallb_app. intros Hall.
  apply andb_true_iff in Hall as [Hp Hps]. constructor; auto.
Qed.

(** The loop over the paragraphs appends lines that hold the words of the
    paragraphs. *)
Lemma wrap_paragraphs_words font max_width k paragraphs : forall lines,
  (1 <= k)%Z ->
  Forall (fun p => no_hyphen p = true) paragraphs ->
  Forall (fun p => words_fit k p = true) paragraphs ->
  exists made,
    wrap_paragraphs font max_width k paragraphs lines = Ok (lines ++ made)
    /\ all_words made = all_words paragraphs.
Proof.
  induction paragraphs as [|p ps IH]; intros lines Hk Hn Hfit.
  - exists []. rewrite app_nil_r. split; reflexivity.
  - inversion Hn as [|? ? Hnp Hnps]; subst. inversion Hfit as [|? ? Hfp Hfps]; subst.
    destruct (@wrap_paragraph_words p k Hk Hnp Hfp) as [wrapped [Hwrap Hwords]].
    cbn [wrap_paragraphs]. rewrite Hwrap. cbn [bind]. rewrite fold_append_line.
    destruct (IH (lines ++ wrapped) Hk Hnps Hfps) as [made [Hrest Hwords']].
    exists (wrapped ++ made). rewrite app_assoc. split; [exact Hrest|].
    rewrite all_words_app, all_words_cons, Hwords, Hwords'. reflexivity.
Qed.

(** C1, as amended: for a text without hyphen, a budget of at least one
    character and no run of characters longer than the budget between two
    whitespace characters of [textwrap] (space, tab, newline, vertical
    tab, form feed, carriage return), [wrap_text] returns lines which,
    joined by single spaces, have the word sequence of the text, that is
    the words of [str.split()]; the lines are not empty as soon as the
    text holds a word. *)
Theorem wrap_text_keeps_words font max_width k t :
  estimate_max_chars font max_width = Ok k ->
  (1 <= k)%Z ->
  no_hyphen t = true ->
  words_fit k t = true ->
  exists lines,
    wrap_text (Some t) font max_width = Ok lines
    /\ words (join [space] lines) = words t
    /\ (words t <> [] -> lines <> []).
Proof.
  intros Hest Hk Hn Hfit.
  destruct t as [|c t'].
  - exists []. repeat split. intros Hw. exact Hw.
  - unfold wrap_text. rewrite Hest. cbn [bind].
    destruct (@wrap_paragraphs_words font max_width k (split_lines (c :: t')) [] Hk
                (no_hyphen_paragraphs _ Hn) (words_fit_paragraphs _ _ Hfit))
      as [lines [Hwrap Hwords]].
    rewrite Hwrap. simpl app. exists lines. split; [reflexivity|].
    assert (Hjoin : words (join [space] lines) = words (c :: t')).
    { unfold words at 1. rewrite words_by_join by reflexivity.
      change (concat (map (words_by isspace) lines)) with (all_words lines).
      rewrite Hwords. symmetry.
      apply words_by_paragraphs. reflexivity. }
    split; [exact Hjoin|].
    intros Hne Hnil. subst lines. apply Hne. rewrite <- Hjoin. reflexivity.
Qed.

(** C1 fails as stated, in five ways: a text of one space gives no line; a
    word longer than the budget is cut in pieces, which are other words; a
    hyphenated word is split after its hyphen; a positive width below
    nine tenths of a glyph gives a budget of zero, which [textwrap.wrap]
    refuses; and two words within the budget that a no-break space
    separates are one chunk for [textwrap], which is cut when it is over
    the budget. *)
Lemma wrap_text_loses_words :
  wrap_text (Some (py " ")) (fixed_font 10 40) 450 = Ok []
  /\ (wrap_text (Some (py "abcdefghij")) (fixed_font 10 40) 45
      = Ok [py "abcde"; py "fghij"]
      /\ words (join [space] [py "abcde"; py "fghij"]) = [py "abcde"; py "fghij"]
      /\ words (py "abcdefghij") = [py "abcdefghij"])
  /\ (wrap_text (Some (py "xx aaa-bbb")) (fixed_font 10 40) 63
      = Ok [py "xx aaa-"; py "bbb"]
      /\ words (join [space] [py "xx aaa-"; py "bbb"])
         = [py "xx"; py "aaa-"; py "bbb"]
      /\ words (py "xx aaa-bbb") = [py "xx"; py "aaa-bbb"])
  /\ wrap_text (Some (py "a")) (fixed_font 10 40) 8 = Raise ValueError
  /\ (wrap_text (Some nbsp_text) (fixed_font 10 40) 45
      = Ok [py "aaa" ++ ascii_of_nat 160 :: py "b"; py "bbb"]
      /\ words (join [space] [py "aaa" ++ ascii_of_nat 160 :: py "b"; py "bbb"])
         = [py "aaa"; py "b"; py "bbb"]
      /\ words nbsp_text = [py "aaa"; py "bbbb"]).
Proof. repeat split; vm_compute; reflexivity. Qed.

(** C1 as amended, at a text of two paragraphs wrapped to ten characters. *)
Lemma wrap_text_keeps_words_witness :
  exists lines,
    wrap_text (Some (py "the vagus nerve
supplies  the larynx")) (fixed_font 10 40) 90 = Ok lines
    /\ words (join [space] lines)
       = words (py "the vagus nerve
supplies  the larynx")
    /\ (words (py "the vagus nerve
supplies  the larynx") <> [] -> lines <> []).
Proof.
  apply wrap_text_keeps_words with (k := 10%Z).
  - vm_compute. reflexivity.
  - lia.
  - reflexivity.
  - reflexivity.
Defined.

(* ===================================================================== *)
(** ** The history file *)
(* ===================================================================== *)

Lemma contains_false ids x : contains ids x = false <-> ~ In x ids.
Proof.
  rewrite <- contains_In. destruct (contains ids x); split; congruence.
Qed.

Lemma load_save_history h q_id :
  load_history (save_history_entry h q_id)
  = if contains (load_history h) q_id then load_history h
    else load_history h ++ [q_id].
Proof.
  unfold save_history_entry. destruct (contains (load_history h) q_id); reflexivity.
Qed.

Lemma save_history_entry_facts h q_id :
  In q_id (load_history (save_history_entry h q_id))
  /\ (exists added, load_history (save_history_entry h q_id) = load_history h ++ added)
  /\ (NoDup (load_history h) -> NoDup (load_history (save_history_entry h q_id))).
Proof.
  rewrite load_save_history.
  destruct (contains (load_history h) q_id) eqn:Hc.
  - apply contains_In in Hc. repeat split; auto.
    exists []. rewrite app_nil_r. reflexivity.
  - apply contains_false in Hc. repeat split.
    + apply in_or_app. right. left. reflexivity.
    + exists [q_id]. reflexivity.
    + intros Hnd. apply NoDup_app; auto.
      * repeat constructor. intros [].
      * intros x Hx [Heq | []]. subst x. contradiction.
Qed.

(** Recording an id keeps every id already recorded, in the same order, and
    leaves the id recorded; a history without repeated id stays so. *)
Theorem save_history_entry_records h q_id :
  In q_id (load_history (save_history_entry h q_id))
  /\ (exists added, load_history (save_history_entry h q_id) = load_history h ++ added)
  /\ (NoDup (load_history h) -> NoDup (load_history (save_history_entry h q_id))).
Proof.
  unfold save_history_entry.
  destruct (contains (load_history h) q_id) eqn:Hc.
  - apply contains_In in Hc. split; [exact Hc|]. split; [|tauto].
    exists []. symmetry. apply app_nil_r.
  - apply contains_false in Hc. cbn [load_history]. split; [|split].
    + apply in_or_app. right. left. reflexivity.
    + exists [q_id]. reflexivity.
    + intros Hnd. apply NoDup_app; [exact Hnd | repeat constructor; intros [] |].
      intros x Hx [Heq | []]. subst x. exact (Hc Hx).
Qed.

(** Recording the same id twice is recording it once, and the order in
    which two ids are recorded does not change which ids are recorded. *)
Theorem save_history_entry_idempotent h q_id other :
  save_history_entry (save_history_entry h q_id) q_id = save_history_entry h q_id
  /\ (forall x,
        In x (load_history (save_history_entry (save_history_entry h q_id) other))
        <-> In x (load_history (save_history_entry (save_history_entry h other) q_id))).
Proof.
  split.
  - unfold save_history_entry at 1.
    destruct (save_history_entry_facts h q_id) as [Hin _].
    apply contains_In in Hin. rewrite Hin. reflexivity.
  - assert (Hmem : forall h0 q x,
               In x (load_history (save_history_entry h0 q))
               <-> In x (load_history h0) \/ x = q).
    { intros h0 q x. rewrite load_save_history.
      destruct (contains (load_history h0) q) eqn:Hc.
      - apply contains_In in Hc. split; [auto | intros [Hx | ->]; auto].
      - rewrite in_app_iff. simpl. intuition (subst; auto). }
    intros x. rewrite !Hmem. tauto.
Qed.

(* ===================================================================== *)
(** ** clean_text and the words of a text *)
(* ===================================================================== *)

(** Collapsing the whitespace runs keeps the words. *)
Lemma words_sub_ws_runs s :
  (forall b, words (sub_ws_runs b s) = words s)
  /\ words_aux isspace (sub_ws_runs false s) = words_aux isspace s.
Proof.
  unfold words. induction s as [|c r [IHw IHa]]; [split; reflexivity|].
  cbn [sub_ws_runs]. destruct (isspace c) eqn:Hc.
  - assert (Hb : forall b : bool, words_by isspace (if b then sub_ws_runs true r
                                             else space :: sub_ws_runs true r)
                           = words_by isspace (c :: r)).
    { intros b. rewrite (words_by_cons_sep _ _ _ Hc).
      destruct b; [apply IHw|].
      rewrite (words_by_cons_sep _ _ _ isspace_space). apply IHw. }
    split; [exact Hb|].
    rewrite !words_aux_cons, isspace_space, Hc, IHw. reflexivity.
  - assert (Ha : words_aux isspace (c :: sub_ws_runs false r)
                 = words_aux isspace (c :: r)).
    { rewrite !words_aux_cons, Hc, IHa. reflexivity. }
    split; [|exact Ha]. intros _. unfold words_by. rewrite Ha. reflexivity.
Qed.

Lemma words_strip s : words (strip s) = words s.
Proof.
  unfold strip, words.
  destruct (lstrip_suffix s) as [pre [Hs Hpre]].
  destruct (rstrip_prefix (lstrip s)) as [post [Hl Hpost]].
  rewrite Hs at 2. rewrite (words_by_blank_app _ _ _ Hpre).
  rewrite Hl at 2. rewrite (words_by_app_blank _ _ _ Hpost). reflexivity.
Qed.

Lemma join_space_cons w ws :
  join [space] (w :: ws) = w ++ concat (map (cons space) ws).
Proof.
  revert w. induction ws as [|v ws IH]; intros w.
  - simpl. rewrite app_nil_r. reflexivity.
  - change (join [space] (w :: v :: ws)) with (w ++ space :: join [space] (v :: ws)).
    rewrite IH. reflexivity.
Qed.

(** A tidy text that does not end with whitespace is its words, each word
    after the first one preceded by one space. *)
Lemma tidy_words s :
  tidy false s = true ->
  no_trailing_ws s = true ->
  s = fst (words_aux isspace s)
      ++ concat (map (cons space) (snd (words_aux isspace s))).
Proof.
  induction s as [|c r IH]; [reflexivity|].
  intros Ht Hend. rewrite words_aux_cons.
  assert (Hr : r <> [] -> no_trailing_ws r = true).
  { intros Hne. unfold no_trailing_ws in *. simpl in Hend.
    destruct (rev r) as [|x xs] eqn:Hrev; [|exact Hend].
    apply (f_equal (@rev ascii)) in Hrev. rewrite rev_involutive in Hrev.
    simpl in Hrev. congruence. }
  cbn [tidy] in Ht. destruct (isspace c) eqn:Hc.
  - apply andb_true_iff in Ht as [Hsp Ht]. apply is_char_eq in Hsp. subst c.
    destruct r as [|d r'].
    + unfold no_trailing_ws in Hend. simpl in Hend. discriminate.
    + assert (Hd : isspace d = false).
      { cbn [tidy] in Ht. destruct (isspace d); [discriminate | reflexivity]. }
      specialize (IH (tidy_weaken _ Ht) (Hr ltac:(discriminate))).
      unfold words_by. rewrite words_aux_cons, Hd in *. cbn [fst snd] in *.
      cbn [cons_word map concat app]. change (ascii_of_nat 32) with space.
      f_equal. exact IH.
  - cbn [fst snd]. rewrite <- app_comm_cons. f_equal.
    destruct r as [|d r']; [reflexivity|].
    apply IH; [exact Ht | apply Hr; discriminate].
Qed.

Lemma tidy_join s :
  tidy false s = true ->
  no_leading_ws s = true ->
  no_trailing_ws s = true ->
  s = join [space] (words s).
Proof.
  intros Ht Hl Hr. pose proof (tidy_words _ Ht Hr) as Hs.
  unfold words, words_by. destruct s as [|c r]; [reflexivity|].
  simpl in Hl. apply negb_true_iff in Hl.
  rewrite words_aux_cons, Hl in *. cbn [fst snd cons_word] in *.
  rewrite join_space_cons. exact Hs.
Qed.

(** C10: for every input, [None] and the empty string included, the result
    of [clean_text] holds no asterisk, underscore or backquote, no two
    whitespace characters in a row (each whitespace character left is one
    space), and neither starts nor ends with whitespace.  Every whitespace
    run between two words of the text is collapsed to a single space and
    nothing else of the text is touched: the result is the words of the
    text without its markers, in order, with one space between two
    neighbours.  [clean_text(None)] and [clean_text('')] are the empty
    string. *)
Theorem clean_text_normal_form (text : option str) :
  (forall c, In c (clean_text text) -> is_marker c = false)
  /\ (forall pre c d post,
        clean_text text = pre ++ c :: d :: post ->
        isspace c = true -> isspace d = false)
  /\ (forall c, In c (clean_text text) -> isspace c = true -> c = space)
  /\ (forall c r, clean_text text = c :: r -> isspace c = false)
  /\ (forall r c, clean_text text = r ++ [c] -> isspace c = false)
  /\ clean_text text = join [space] (words (remove_markers (get_or text [])))
  /\ clean_text None = []
  /\ clean_text (Some []) = [].
Proof.
  destruct (clean_text_shape text) as [Hm [Ht [Hl Hr]]].
  repeat split.
  - intros c Hc. rewrite forallb_forall in Hm. apply negb_true_iff. apply Hm. exact Hc.
  - intros pre c d post Heq. eapply tidy_no_pair; eassumption.
  - intros c. apply tidy_whitespace_is_space with (b := false). exact Ht.
  - intros c r Heq. rewrite Heq in Hl. simpl in Hl. apply negb_true_iff. exact Hl.
  - intros r c Heq. unfold no_trailing_ws in Hr. rewrite Heq, rev_app_distr in Hr.
    simpl in Hr. apply negb_true_iff. exact Hr.
  - rewrite (tidy_join _ Ht Hl Hr) at 1. f_equal.
    destruct text as [[|c t]|]; [reflexivity | | reflexivity].
    unfold clean_text, get_or. rewrite words_strip. unfold collapse_ws.
    apply (proj1 (words_sub_ws_runs _)).
Qed.

(** [clean_text] returns the words of the text without its markers, joined
    by single spaces: [' '.join(re.sub(r'[*_`]', '', text).split())]. *)
Theorem clean_text_joins_words text :
  clean_text (Some text) = join [space] (words (remove_markers text)).
Proof.
  destruct (clean_text_shape (Some text)) as [_ [Ht [Hl Hr]]].
  rewrite (tidy_join _ Ht Hl Hr) at 1. f_equal.
  destruct text as [|c t]; [reflexivity|].
  unfold clean_text. rewrite words_strip. unfold collapse_ws.
  apply (proj1 (words_sub_ws_runs _)).
Qed.

Lemma sub_ws_runs_length s : forall b, length (sub_ws_runs b s) <= length s.
Proof.
  induction s as [|c r IH]; intros b; simpl; [lia|].
  destruct (isspace c); [destruct b|]; simpl;
    [specialize (IH true) | specialize (IH true) | specialize (IH false)]; lia.
Qed.

(** Cleaning never lengthens a text, so a text below a length threshold of
    the font ladders stays below it. *)
Theorem clean_text_not_longer text :
  length (clean_text (Some text)) <= length text.
Proof.
  destruct text as [|c t]; [simpl; lia|]. unfold clean_text.
  set (u := collapse_ws (remove_markers (c :: t))).
  assert (Hu : length u <= length (c :: t)).
  { unfold u, collapse_ws, remove_markers.
    pose proof (sub_ws_runs_length (filter (fun c0 => negb (is_marker c0)) (c :: t)) false).
    pose proof (filter_length_le (fun c0 => negb (is_marker c0)) (c :: t)). lia. }
  destruct (lstrip_suffix u) as [pre [Hpre _]].
  destruct (rstrip_prefix (lstrip u)) as [post [Hpost _]].
  fold (strip u) in Hpost.
  apply (f_equal (@length ascii)) in Hpre, Hpost.
  rewrite length_app in Hpre, Hpost. lia.
Qed.

(* ===================================================================== *)
(** ** wrap_text: what every line satisfies *)
(* ===================================================================== *)

Lemma ink_app a b : ink (a ++ b) = ink a ++ ink b.
Proof. apply filter_app. Qed.

Lemma ink_blank c : is_blank c = true -> ink c = [].
Proof.
  unfold is_blank, ink. induction c as [|x c IH]; [reflexivity|].
  simpl. intros Hall. apply andb_true_iff in Hall as [Hx Hc].
  rewrite Hx. simpl. auto.
Qed.

Lemma ink_concat_app a b : ink (concat (a ++ b)) = ink (concat a) ++ ink (concat b).
Proof. rewrite concat_app. apply ink_app. Qed.

(** Breaking a long chunk never takes more than the room left on the
    line. *)
Lemma handle_long_word_room chunk rest cur_line cur_len width :
  exists stop,
    TextWrap.handle_long_word chunk rest cur_line cur_len width
    = (cur_line ++ [firstn stop chunk], skipn stop chunk :: rest)
    /\ stop <= (if width <? 1 then 1 else width - cur_len).
Proof.
  unfold TextWrap.handle_long_word.
  set (space_left := if width <? 1 then 1 else width - cur_len).
  destruct (space_left <? length chunk).
  - destruct (TextWrap.rfind_hyphen chunk space_left) as [i|] eqn:Hr.
    + destruct ((0 <? i) && existsb (fun c => negb (is_hyphen c)) (firstn i chunk)).
      * exists (i + 1). split; [reflexivity|]. apply rfind_hyphen_lt in Hr. lia.
      * exists space_left. split; [reflexivity | lia].
    + exists space_left. split; [reflexivity | lia].
  - exists space_left. split; [reflexivity | lia].
Qed.

(** One pass of the outer loop, for a positive width: the chunk that is
    broken, if any, leaves a piece that fits in the room left. *)
Lemma wrap_line_room width c rest lines :
  1 <= width ->
  exists taken rest',
    (if is_blank c && negb (length lines =? 0) then rest else c :: rest)
    = taken ++ rest'
    /\ TextWrap.total_len taken <= width
    /\ ((exists long rest2 stop,
           rest' = long :: rest2
           /\ width < length long
           /\ stop <= width - TextWrap.total_len taken
           /\ TextWrap.wrap_line width c rest lines
              = (skipn stop long :: rest2,
                 lines ++ match TextWrap.drop_trailing_blank (taken ++ [firstn stop long]) with
                          | [] => []
                          | cur => [concat cur]
                          end))
        \/ TextWrap.wrap_line width c rest lines
           = (rest',
              lines ++ match TextWrap.drop_trailing_blank taken with
                       | [] => []
                       | cur => [concat cur]
                       end)).
Proof.
  intros Hw. unfold TextWrap.wrap_line.
  set (chunks1 := if is_blank c && negb (length lines =? 0) then rest else c :: rest).
  destruct (fill_line_spec width chunks1 [] 0) as [taken [rest' [Heq [Hfill [_ Hroom]]]]].
  rewrite Hfill. simpl app. simpl Nat.add in *.
  exists taken, rest'. split; [exact Heq|]. split; [apply Hroom; lia|].
  destruct rest' as [|long rest2].
  - right. destruct (TextWrap.drop_trailing_blank taken); [rewrite app_nil_r|]; reflexivity.
  - destruct (Nat.ltb_spec width (length long)) as [Hlong|Hshort].
    + left.
      destruct (handle_long_word_room long rest2 taken (TextWrap.total_len taken) width)
        as [stop [Hh Hstop]].
      assert (Hw1 : (width <? 1) = false) by (apply Nat.ltb_ge; lia).
      rewrite Hw1 in Hstop.
      rewrite Hh. exists long, rest2, stop. repeat split; auto.
      destruct (TextWrap.drop_trailing_blank (taken ++ [firstn stop long]));
        [rewrite app_nil_r|]; reflexivity.
    + right. destruct (TextWrap.drop_trailing_blank taken); [rewrite app_nil_r|]; reflexivity.
Qed.

(** The line made of the chunks [taken] and possibly one more piece: it is
    not longer than they are, holds their characters other than
    whitespace, and is not empty when it is made. *)
Lemma line_made taken extra :
  Forall (fun c => c <> []) taken ->
  length extra <= 1 ->
  let cur := TextWrap.drop_trailing_blank (taken ++ extra) in
  length (concat cur) <= TextWrap.total_len (taken ++ extra)
  /\ ink (concat cur) = ink (concat (taken ++ extra))
  /\ (cur <> [] -> concat cur <> []).
Proof.
  intros Hne Hextra cur.
  assert (Hhead : cur <> [] -> concat cur <> []).
  { subst cur. destruct taken as [|t ts].
    - destruct extra as [|piece [|e es]];
        [intros H; exfalso; apply H; reflexivity | | simpl in Hextra; lia].
      unfold TextWrap.drop_trailing_blank. simpl.
      destruct (is_blank piece) eqn:Hb; [intros H; exfalso; apply H; reflexivity|].
      intros _. simpl. rewrite app_nil_r. intros ->. discriminate.
    - inversion Hne as [|? ? Ht Hts]; subst. intros Hcur.
      destruct (drop_trailing_blank_spec ((t :: ts) ++ extra))
        as [Hsame | [front [lc [Heq [_ Hfront]]]]].
      + rewrite Hsame. simpl. destruct t; [congruence | discriminate].
      + rewrite Hfront in *. destruct front as [|f fs]; [congruence|].
        simpl in Heq. inversion Heq; subst. simpl. destruct f; [congruence | discriminate]. }
  split; [|split; [|exact Hhead]].
  - subst cur. rewrite total_len_concat.
    destruct (drop_trailing_blank_spec (taken ++ extra))
      as [-> | [front [lc [Heq [_ ->]]]]]; [lia|].
    rewrite Heq, concat_app, length_app. lia.
  - subst cur.
    destruct (drop_trailing_blank_spec (taken ++ extra))
      as [-> | [front [lc [Heq [Hb ->]]]]]; [reflexivity|].
    rewrite Heq, ink_concat_app. simpl. rewrite app_nil_r, (ink_blank _ Hb), app_nil_r.
    reflexivity.
Qed.

Lemma emit_line_bounds width (cur : list str) :
  length (concat cur) <= width ->
  (cur <> [] -> concat cur <> []) ->
  Forall (fun l => 1 <= length l <= width)
         match cur with
         | [] => []
         | x :: r => [concat (x :: r)]
         end
  /\ ink (concat match cur with
                 | [] => []
                 | x :: r => [concat (x :: r)]
                 end)
     = ink (concat cur).
Proof.
  intros Hl Hn. destruct cur as [|x r].
  - split; [apply Forall_nil | reflexivity].
  - split.
    + apply Forall_cons; [|apply Forall_nil].
      assert (Hx : concat (x :: r) <> []) by (apply Hn; discriminate).
      destruct (concat (x :: r)); [congruence|]. simpl in *. lia.
    + cbn [concat]. rewrite app_nil_r. reflexivity.
Qed.

(** One pass of the outer loop over non-empty chunks, for a positive
    width: the line made, if any, has between one and [width] characters;
    nothing but whitespace is lost; the chunks left are not empty. *)
Lemma wrap_line_lines width c rest lines :
  1 <= width ->
  Forall (fun x => x <> []) (c :: rest) ->
  exists made,
    snd (TextWrap.wrap_line width c rest lines) = lines ++ made
    /\ Forall (fun l => 1 <= length l <= width) made
    /\ Forall (fun x => x <> []) (fst (TextWrap.wrap_line width c rest lines))
    /\ ink (concat made) ++ ink (concat (fst (TextWrap.wrap_line width c rest lines)))
       = ink (concat (c :: rest)).
Proof.
  intros Hw Hne.
  destruct (wrap_line_room c rest lines Hw)
    as [taken [rest' [Heq [Hlen Hcases]]]].
  assert (Hstart : Forall (fun x => x <> []) (taken ++ rest')
                   /\ ink (concat (taken ++ rest')) = ink (concat (c :: rest))).
  { rewrite <- Heq. destruct (is_blank c && negb (length lines =? 0)) eqn:Hdrop.
    - apply andb_true_iff in Hdrop as [Hb _]. inversion Hne; subst.
      split; [assumption|]. simpl. rewrite ink_app, (ink_blank _ Hb). reflexivity.
    - split; [exact Hne | reflexivity]. }
  destruct Hstart as [Hne1 Hink]. rewrite <- Hink.
  apply Forall_app in Hne1 as [Hnt Hnr].
  assert (Hmade : forall extra,
             length extra <= 1 ->
             TextWrap.total_len (taken ++ extra) <= width ->
             Forall (fun l => 1 <= length l <= width)
                    match TextWrap.drop_trailing_blank (taken ++ extra) with
                    | [] => []
                    | cur => [concat cur]
                    end
             /\ ink (concat match TextWrap.drop_trailing_blank (taken ++ extra) with
                            | [] => []
                            | cur => [concat cur]
                            end)
                = ink (concat (taken ++ extra))).
  { intros extra He Hfit. destruct (line_made extra Hnt He) as [Hl [Hi Hn]].
    destruct (@emit_line_bounds width (TextWrap.drop_trailing_blank (taken ++ extra)))
      as [Hb Hk]; [exact (Nat.le_trans _ _ _ Hl Hfit) | exact Hn|].
    split; [exact Hb | rewrite Hk; exact Hi]. }
  destruct Hcases as [[long [rest2 [stop [-> [Hlong [Hstop Hwl]]]]]] | Hwl];
    rewrite Hwl; cbn [fst snd]; eexists; (split; [reflexivity|]).
  - destruct (Hmade [firstn stop long]) as [Hb Hi]; [simpl; lia | |].
    { rewrite total_len_app. unfold TextWrap.total_len at 2. simpl.
      rewrite length_firstn. lia. }
    split; [exact Hb|]. split.
    + inversion Hnr; subst. constructor; [|assumption].
      intros Hnil. apply (f_equal (@length ascii)) in Hnil.
      rewrite length_skipn in Hnil. simpl in Hnil. lia.
    + transitivity (ink (concat (taken ++ [firstn stop long]))
                    ++ ink (concat (skipn stop long :: rest2)));
        [f_equal; exact Hi|].
      rewrite !ink_concat_app. cbn [concat]. rewrite !ink_app, app_nil_r.
      rewrite <- !app_assoc. f_equal. rewrite app_assoc, <- ink_app, firstn_skipn.
      reflexivity.
  - destruct (Hmade []) as [Hb Hi]; [simpl; lia | rewrite app_nil_r; exact Hlen |].
    rewrite app_nil_r in *. split; [exact Hb|]. split; [exact Hnr|].
    transitivity (ink (concat taken) ++ ink (concat rest')); [f_equal; exact Hi|].
    rewrite ink_concat_app. reflexivity.
Qed.

(** The outer loop over non-empty chunks, for a positive width. *)
Lemma wrap_loop_lines width fuel : forall chunks lines,
  1 <= width ->
  TextWrap.weight chunks <= fuel ->
  Forall (fun x => x <> []) chunks ->
  exists made,
    TextWrap.wrap_loop fuel width chunks lines = Some (lines ++ made)
    /\ Forall (fun l => 1 <= length l <= width) made
    /\ ink (concat made) = ink (concat chunks).
Proof.
  induction fuel as [|fuel IH]; intros chunks lines Hw Hfuel Hne.
  - destruct chunks as [|c rest]; [|rewrite weight_cons in Hfuel; lia].
    exists []. rewrite app_nil_r. repeat split. constructor.
  - destruct chunks as [|c rest].
    + exists []. rewrite app_nil_r. repeat split. constructor.
    + cbn [TextWrap.wrap_loop].
      pose proof (wrap_line_weight width c rest lines) as Hlt.
      destruct (wrap_line_lines lines Hw Hne) as [made [Hmade [Hb [Hne' Hink]]]].
      destruct (TextWrap.wrap_line width c rest lines) as [chunks' lines'].
      cbn [fst snd] in *. subst lines'.
      destruct (IH chunks' (lines ++ made) Hw) as [made' [Hloop [Hb' Hink']]];
        [lia | exact Hne'|].
      exists (made ++ made'). rewrite app_assoc. split; [exact Hloop|]. split.
      * apply Forall_app. split; assumption.
      * rewrite ink_concat_app, Hink', Hink. reflexivity.
Qed.

Lemma ink_munge p : forall col,
  ink (TextWrap.translate (TextWrap.expandtabs col p)) = ink p.
Proof.
  induction p as [|c r IH]; intros col; [reflexivity|].
  cbn [TextWrap.expandtabs]. destruct (is_char 9 c) eqn:Htab.
  - rewrite translate_app, translate_spaces, ink_app, IH.
    assert (Hsp : forall n, ink (repeat space n) = []).
    { induction n as [|n IHn]; [reflexivity | exact IHn]. }
    rewrite Hsp. apply tab_whitespace, whitespace_isspace in Htab.
    unfold ink. simpl. rewrite Htab. reflexivity.
  - change (TextWrap.translate (c :: TextWrap.expandtabs
              (if is_char 10 c || is_char 13 c then 0 else S col) r))
      with ((if TextWrap.whitespace c then space else c)
            :: TextWrap.translate (TextWrap.expandtabs
                 (if is_char 10 c || is_char 13 c then 0 else S col) r)).
    unfold ink in *. cbn [filter]. rewrite IH.
    destruct (TextWrap.whitespace c) eqn:Hws; [|reflexivity].
    apply whitespace_isspace in Hws. rewrite Hws. reflexivity.
Qed.

(** [textwrap.wrap] for a positive width: lines of one to [width]
    characters that hold the characters of the text other than
    whitespace. *)
Lemma wrap_lines p k :
  (1 <= k)%Z ->
  exists wrapped,
    TextWrap.wrap p k = Ok wrapped
    /\ Forall (fun l => (1 <= len l <= k)%Z) wrapped
    /\ ink (concat wrapped) = ink p.
Proof.
  intros Hk. unfold TextWrap.wrap.
  assert (Hpos : (k <=? 0)%Z = false) by (apply Z.leb_gt; lia).
  rewrite Hpos. eexists. split; [reflexivity|].
  unfold TextWrap.wrap_chunks, TextWrap.split_chunks.
  set (text := TextWrap.munge_whitespace p).
  destruct (split_partition text) as [Hcat Hne].
  destruct (@wrap_loop_lines (Z.to_nat k) (S (TextWrap.weight (TextWrap.split text)))
              (TextWrap.split text) []) as [made [Hloop [Hb Hink]]]; [lia | lia | exact Hne|].
  rewrite Hloop. simpl app. split.
  - eapply Forall_impl; [|exact Hb]. intros l Hl. unfold len. simpl in Hl. lia.
  - rewrite Hink, Hcat. apply ink_munge.
Qed.

Lemma ink_join_newline parts :
  ink (join [newline] parts) = concat (map ink parts).
Proof.
  induction parts as [|p rest IH]; [reflexivity|].
  destruct rest as [|q rest'].
  - simpl. rewrite app_nil_r. reflexivity.
  - change (join [newline] (p :: q :: rest')) with (p ++ newline :: join [newline] (q :: rest')).
    rewrite ink_app. change (newline :: join [newline] (q :: rest'))
      with ([newline] ++ join [newline] (q :: rest')).
    rewrite ink_app, IH. reflexivity.
Qed.

Lemma wrap_paragraphs_lines font max_width k paragraphs : forall lines,
  (1 <= k)%Z ->
  exists made,
    wrap_paragraphs font max_width k paragraphs lines = Ok (lines ++ made)
    /\ Forall (fun l => (1 <= len l <= k)%Z) made
    /\ ink (concat made) = concat (map ink paragraphs).
Proof.
  induction paragraphs as [|p ps IH]; intros lines Hk.
  - exists []. rewrite app_nil_r. repeat split. constructor.
  - destruct (@wrap_lines p k Hk) as [wrapped [Hwrap [Hb Hink]]].
    cbn [wrap_paragraphs]. rewrite Hwrap. cbn [bind]. rewrite fold_append_line.
    destruct (IH (lines ++ wrapped) Hk) as [made [Hrest [Hb' Hink']]].
    exists (wrapped ++ made). rewrite app_assoc. split; [exact Hrest|]. split.
    + apply Forall_app. split; assumption.
    + rewrite ink_concat_app, Hink, Hink'. reflexivity.
Qed.

Lemma wrap_text_lines font max_width k t :
  estimate_max_chars font max_width = Ok k ->
  (1 <= k)%Z ->
  exists lines,
    wrap_text (Some t) font max_width = Ok lines
    /\ Forall (fun l => (1 <= len l <= k)%Z) lines
    /\ ink (concat lines) = ink t.
Proof.
  intros Hest Hk. destruct t as [|c t'].
  - exists []. repeat split. constructor.
  - unfold wrap_text. rewrite Hest. cbn [bind].
    destruct (@wrap_paragraphs_lines font max_width k (split_lines (c :: t')) [] Hk)
      as [lines [Hwrap [Hb Hink]]].
    rewrite Hwrap. exists lines. split; [reflexivity|]. split; [exact Hb|].
    rewrite Hink, <- ink_join_newline, join_split_lines. reflexivity.
Qed.

(** With a budget of at least one character, [wrap_text] returns, and every
    line has at least one character and at most the budget. *)
Theorem wrap_text_lines_within_budget font max_width k t :
  estimate_max_chars font max_width = Ok k ->
  (1 <= k)%Z ->
  exists lines,
    wrap_text (Some t) font max_width = Ok lines
    /\ Forall (fun l => (1 <= len l <= k)%Z) lines.
Proof.
  intros Hest Hk. destruct (wrap_text_lines font max_width t Hest Hk) as [lines [H1 [H2 _]]].
  exists lines. split; assumption.
Qed.

(** With a budget of at least one character, the lines of [wrap_text] hold
    the characters of the text other than whitespace, all of them and in
    the same order: breaking a long word or a hyphenated word loses no
    character. *)
Theorem wrap_text_keeps_ink font max_width k t lines :
  estimate_max_chars font max_width = Ok k ->
  (1 <= k)%Z ->
  wrap_text (Some t) font max_width = Ok lines ->
  ink (concat lines) = ink t.
Proof.
  intros Hest Hk Hw.
  destruct (wrap_text_lines font max_width t Hest Hk) as [lines' [H1 [_ H3]]].
  rewrite H1 in Hw. inversion Hw; subst. exact H3.
Qed.

Lemma wrap_paragraphs_rejects font max_width k p ps lines :
  (k <= 0)%Z ->
  wrap_paragraphs font max_width k (p :: ps) lines = Raise ValueError.
Proof.
  intros Hk. cbn [wrap_paragraphs]. unfold TextWrap.wrap.
  assert (Hle : (k <=? 0)%Z = true) by (apply Z.leb_le; exact Hk).
  rewrite Hle. reflexivity.
Qed.

(** *** Integers that convert to a float

    An integer below 2^53 in magnitude is a float: [float(n)] does not
    overflow. *)
Lemma digits2_pos_bound m : forall n : nat,
  (Z.pos m < 2 ^ Z.of_nat n)%Z -> (Z.pos (digits2_pos m) <= Z.of_nat n)%Z.
Proof.
  induction m as [p IH|p IH|]; intros n Hn.
  - destruct n as [|n]; [simpl in Hn; lia|].
    rewrite Nat2Z.inj_succ, Z.pow_succ_r in Hn by lia.
    cbn [digits2_pos]. rewrite Pos2Z.inj_succ.
    specialize (IH n). lia.
  - destruct n as [|n]; [simpl in Hn; lia|].
    rewrite Nat2Z.inj_succ, Z.pow_succ_r in Hn by lia.
    cbn [digits2_pos]. rewrite Pos2Z.inj_succ.
    specialize (IH n). lia.
  - destruct n as [|n]; [simpl in Hn; lia|]. simpl. lia.
Qed.

Lemma digits2_pos_shift m d :
  digits2_pos (Pos.iter xO m d) = (digits2_pos m + d)%positive.
Proof.
  induction d as [|d IH] using Pos.peano_ind.
  - simpl. rewrite Pos.add_1_r. reflexivity.
  - rewrite Pos.iter_succ. cbn [digits2_pos]. rewrite IH, Pos.add_succ_r. reflexivity.
Qed.

Lemma binary_round_aux_exact s mz ez :
  Z.pos (digits2_pos mz) = 53%Z -> (-1074 <= ez <= 971)%Z ->
  binary_round_aux prec emax s (Z.pos mz) ez loc_Exact = S754_finite s mz ez.
Proof.
  intros Hd He.
  assert (Hshift : shr_fexp prec emax (Z.pos mz) ez loc_Exact
                   = ({| shr_m := Z.pos mz; shr_r := false; shr_s := false |}, ez)).
  { unfold shr_fexp, fexp, emin, prec, emax. cbn [Zdigits2]. rewrite Hd.
    replace (Z.max (53 + ez - 53) (3 - 1024 - 53) - ez)%Z with 0%Z by lia.
    reflexivity. }
  unfold binary_round_aux. rewrite Hshift.
  cbn [shr_m loc_of_shr_record round_nearest_even]. rewrite Hshift. cbn [shr_m].
  assert (Hle : (ez <=? emax - prec)%Z = true) by (apply Z.leb_le; unfold emax, prec; lia).
  rewrite Hle. reflexivity.
Qed.

Lemma binary_round_small s m :
  (Z.pos m < 2 ^ 53)%Z ->
  exists mz ez, binary_round prec emax s m 0 = S754_finite s mz ez.
Proof.
  intros Hm. pose proof (@digits2_pos_bound m 53 Hm) as Hd.
  change (Z.of_nat 53) with 53%Z in Hd.
  unfold binary_round, fexp, emin, prec, emax, shl_align.
  replace (Z.max (Z.pos (digits2_pos m) + 0 - 53) (3 - 1024 - 53) - 0)%Z
    with (Z.pos (digits2_pos m) - 53)%Z by lia.
  replace (Z.max (Z.pos (digits2_pos m) + 0 - 53) (3 - 1024 - 53))%Z
    with (Z.pos (digits2_pos m) - 53)%Z by lia.
  destruct (Z.pos (digits2_pos m) - 53)%Z as [|p|d] eqn:Hsub; [|lia|].
  - exists m, 0%Z. apply binary_round_aux_exact; lia.
  - exists (Pos.iter xO m d), (Z.neg d). apply binary_round_aux_exact.
    + rewrite digits2_pos_shift, Pos2Z.inj_add. lia.
    + lia.
Qed.

Lemma float_of_int_small n :
  (Z.abs n < 2 ^ 53)%Z -> exists f, float_of_int n = Ok f.
Proof.
  intros Hn. unfold float_of_int, binary_normalize.
  destruct n as [|m|m].
  - eexists. reflexivity.
  - destruct (@binary_round_small false m Hn) as [mz [ez Hr]]. rewrite Hr. eexists. reflexivity.
  - destruct (@binary_round_small true m Hn) as [mz [ez Hr]]. rewrite Hr. eexists. reflexivity.
Qed.

(** An integer of 1025 bits is beyond the range of a float. *)
Lemma float_of_int_overflow : float_of_int (2 ^ 1024) = Raise OverflowError.
Proof. vm_compute. reflexivity. Qed.

(** For a text that is not empty, a budget of zero or less makes
    [wrap_text] raise [ValueError] (whatever the text, whitespace only
    included).  A font whose 'x' has no width makes it raise
    [ZeroDivisionError] for every [max_width] that converts to a float,
    which every [max_width] below 2^53 in magnitude does; it raises
    [OverflowError] exactly when [max_width] is beyond the range of a
    float. *)
Theorem wrap_text_raises font max_width c t :
  (forall k, estimate_max_chars font max_width = Ok k -> (k <= 0)%Z ->
             wrap_text (Some (c :: t)) font max_width = Raise ValueError)
  /\ (bbox_right (getbbox font (py "x")) = 0%Z ->
      ((Z.abs max_width < 2 ^ 53)%Z ->
       wrap_text (Some (c :: t)) font max_width = Raise ZeroDivisionError)
      /\ ((exists m, float_of_int max_width = Ok m) <->
          wrap_text (Some (c :: t)) font max_width = Raise ZeroDivisionError)
      /\ (float_of_int max_width = Raise OverflowError <->
          wrap_text (Some (c :: t)) font max_width = Raise OverflowError)
      /\ (wrap_text (Some (c :: t)) font max_width = Raise ZeroDivisionError
          \/ wrap_text (Some (c :: t)) font max_width = Raise OverflowError)).
Proof.
  split.
  - intros k Hest Hk. unfold wrap_text. rewrite Hest. cbn [bind].
    pose proof (split_lines_not_nil (c :: t)) as Hne.
    destruct (split_lines (c :: t)) as [|p ps]; [congruence|].
    apply wrap_paragraphs_rejects. exact Hk.
  - intros Hx.
    assert (Hw : wrap_text (Some (c :: t)) font max_width
                 = match float_of_int max_width with
                   | Ok _ => Raise ZeroDivisionError
                   | Raise e => Raise e
                   end).
    { unfold wrap_text, estimate_max_chars. rewrite Hx.
      change (float_of_int 0) with (Ok (S754_zero false)). cbn [bind].
      change (SFmul prec emax (S754_zero false) float_0_9) with (S754_zero false).
      destruct (float_of_int max_width) as [m|e]; reflexivity. }
    assert (Hover : forall e, float_of_int max_width = Raise e -> e = OverflowError).
    { intros e He. unfold float_of_int in He.
      destruct (binary_normalize prec emax max_width 0 false); congruence. }
    rewrite Hw. repeat split.
    + intros Hsmall. destruct (@float_of_int_small max_width Hsmall) as [f Hf].
      rewrite Hf. reflexivity.
    + intros [m Hm]. rewrite Hm. reflexivity.
    + destruct (float_of_int max_width) as [m|e]; [exists m; reflexivity|].
      intros He. specialize (Hover e eq_refl). congruence.
    + intros He. rewrite He. reflexivity.
    + destruct (float_of_int max_width) as [m|e]; [discriminate|].
      intros He. congruence.
    + destruct (float_of_int max_width) as [m|e]; [left; reflexivity|].
      right. rewrite (Hover e eq_refl). reflexivity.
Qed.

(* ===================================================================== *)
(** ** Batch selection: sampling without replacement *)
(* ===================================================================== *)

Lemma list_set_app {A} (v : A) a x b :
  list_set (length a) v (a ++ x :: b) = a ++ v :: b.
Proof. induction a as [|y a IH]; simpl; [reflexivity | f_equal; exact IH]. Qed.

Lemma nth_error_split_at {A} (l : list A) j x :
  nth_error l j = Some x -> exists a b, l = a ++ x :: b /\ length a = j.
Proof.
  intros Hn. apply nth_error_split in Hn as [a [b [Hl Ha]]]. exists a, b. auto.
Qed.

(** Taking position [j] and moving the last element into the vacancy
    leaves the other elements. *)
Lemma take_and_fill {A} (pool : list A) j x last_live rest :
  nth_error pool j = Some x ->
  rev pool = last_live :: rest ->
  Permutation pool (x :: removelast (list_set j last_live pool)).
Proof.
  intros Hn Hrev.
  assert (Hpool : pool = rev rest ++ [last_live]).
  { rewrite <- (rev_involutive pool), Hrev. reflexivity. }
  destruct (nth_error_split_at _ _ Hn) as [a [b [Hl Ha]]]. subst j.
  rewrite Hl, list_set_app.
  destruct b as [|y b'].
  - (* the last element itself is taken *)
    assert (Hx : x = last_live).
    { rewrite Hl in Hpool. apply app_inj_tail in Hpool. apply Hpool. }
    subst x. rewrite removelast_last. symmetry. apply Permutation_cons_append.
  - assert (Hb : exists b0, y :: b' = b0 ++ [last_live]).
    { rewrite Hl in Hpool.
      destruct (exists_last (l := y :: b')) as [b0 [z Hz]]; [discriminate|].
      exists b0. rewrite Hz in *.
      change (a ++ x :: b0 ++ [z]) with (a ++ (x :: b0) ++ [z]) in Hpool.
      rewrite app_assoc in Hpool. apply app_inj_tail in Hpool as [_ ->]. reflexivity. }
    destruct Hb as [b0 Hb]. rewrite Hb.
    change (a ++ last_live :: b0 ++ [last_live])
      with (a ++ (last_live :: b0) ++ [last_live]).
    rewrite app_assoc, removelast_last.
    change (a ++ x :: b0 ++ [last_live]) with (a ++ (x :: b0) ++ [last_live]).
    rewrite app_assoc.
    transitivity (last_live :: a ++ x :: b0).
    + symmetry. apply Permutation_cons_append.
    + transitivity (last_live :: x :: a ++ b0).
      * constructor. symmetry. apply Permutation_middle.
      * transitivity (x :: last_live :: a ++ b0); [apply perm_swap|].
        constructor. apply Permutation_middle.
Qed.

(** A sample is taken without replacement: with what is left of the pool
    it makes up the pool. *)
Lemma sample_pool_permutation {A} k : forall draws (pool : list A),
  k <= length pool ->
  exists left_over, Permutation pool (sample_pool draws pool k ++ left_over).
Proof.
  induction k as [|k IH]; intros draws pool Hk; [exists pool; reflexivity|].
  cbn [sample_pool].
  assert (Hj : hd 0 draws mod length pool < length pool)
    by (apply Nat.mod_upper_bound; lia).
  destruct (nth_error pool (hd 0 draws mod length pool)) as [x|] eqn:Hnth;
    [|apply nth_error_Some in Hj; contradiction].
  destruct (rev pool) as [|last_live rest] eqn:Hrev.
  { apply (f_equal (@length A)) in Hrev. rewrite length_rev in Hrev. simpl in Hrev. lia. }
  destruct (IH (tl draws)
              (removelast (list_set (hd 0 draws mod length pool) last_live pool)))
    as [left_over Hperm].
  { rewrite removelast_length, list_set_length. lia. }
  exists left_over.
  transitivity (x :: removelast (list_set (hd 0 draws mod length pool) last_live pool)).
  - exact (@take_and_fill A pool _ x last_live rest Hnth Hrev).
  - simpl. constructor. exact Hperm.
Qed.

Lemma NoDup_map_filter {A B} (f : A -> B) (p : A -> bool) l :
  NoDup (map f l) -> NoDup (map f (filter p l)).
Proof.
  induction l as [|x l IH]; simpl; [auto|].
  intros Hnd. inversion Hnd as [|? ? Hx Hl]; subst.
  destruct (p x); [|auto]. simpl. constructor; [|auto].
  intros Hin. apply Hx. apply in_map_iff in Hin as [y [Hy Hin]].
  apply filter_In in Hin as [Hin _]. apply in_map_iff. exists y. auto.
Qed.

Lemma available_pool_is_filter used_ids all_cards count :
  exists p, available_pool used_ids all_cards count = filter p all_cards.
Proof.
  unfold available_pool.
  destruct (len (fresh_short used_ids all_cards) <? count)%Z.
  - destruct (fresh used_ids all_cards) eqn:Hf;
      [eexists; reflexivity | rewrite <- Hf; eexists; reflexivity].
  - destruct (fresh_short used_ids all_cards) eqn:Hf;
      [eexists; reflexivity | rewrite <- Hf; eexists; reflexivity].
Qed.

(** A batch never holds a record twice: when the ids of the bank are
    distinct, so are the ids of the batch, in every relaxation step. *)
Theorem fetch_batch_distinct files draws count all_cards batch :
  bank files = Some all_cards ->
  NoDup (map id all_cards) ->
  fetch_batch_questions files draws count = Ok batch ->
  NoDup (map id batch).
Proof.
  intros Hb Hnd Hf. unfold fetch_batch_questions, random_sample in Hf. rewrite Hb in Hf.
  set (pool := available_pool (load_history (history files)) all_cards count) in *.
  destruct ((Z.min (len pool) count <? 0)%Z
            || (Z.of_nat (length pool) <? Z.min (len pool) count)%Z) eqn:Hguard;
    [discriminate|].
  apply orb_false_iff in Hguard as [Hneg Hbig].
  apply Z.ltb_ge in Hneg, Hbig.
  assert (Hk : Z.to_nat (Z.min (len pool) count) <= length pool) by (unfold len in *; lia).
  destruct (sample_pool_permutation draws pool Hk) as [left_over Hperm].
  inversion Hf as [Hbatch]. clear Hf.
  destruct (available_pool_is_filter (load_history (history files)) all_cards count)
    as [p Hp].
  fold pool in Hp.
  assert (Hpool : NoDup (map id pool)) by (rewrite Hp; apply NoDup_map_filter; exact Hnd).
  apply (Permutation_map id) in Hperm. rewrite map_app in Hperm.
  apply (Permutation_NoDup Hperm) in Hpool.
  apply NoDup_app_remove_r in Hpool. exact Hpool.
Qed.

(** When enough unused records with a short explanation exist, no filter
    is relaxed: every record of the batch is unused, without image and
    with an explanation of fewer than 600 characters. *)
Theorem fetch_batch_unrelaxed files draws count all_cards batch :
  bank files = Some all_cards ->
  (count <= len (fresh_short (load_history (history files)) all_cards))%Z ->
  fetch_batch_questions files draws count = Ok batch ->
  Forall (fun c => ~ In (id c) (load_history (history files))
                   /\ no_image c = true
                   /\ (len (get_or (explanation c) []) < 600)%Z) batch.
Proof.
  intros Hb Hcount Hf. apply Forall_forall. intros c Hc.
  pose proof (fetch_from_pool _ _ _ Hb Hf) as Hincl.
  unfold available_pool in Hincl.
  assert (Hlt : (len (fresh_short (load_history (history files)) all_cards) <? count)%Z
                = false) by (apply Z.ltb_ge; exact Hcount).
  rewrite Hlt in Hincl.
  destruct (fresh_short (load_history (history files)) all_cards) as [|c0 pool] eqn:Hpool.
  - (* no such record: the count is at most zero and the batch is empty *)
    unfold fetch_batch_questions, random_sample in Hf. rewrite Hb in Hf.
    unfold available_pool in Hf. rewrite Hpool, Hlt in Hf.
    unfold len in Hcount. simpl in Hcount.
    match type of Hf with (if ?g then _ else _) = _ => destruct g eqn:Hguard end;
      [discriminate|].
    inversion Hf as [Hbatch].
    replace (Z.to_nat (Z.min (len (without_image all_cards)) count)) with 0 in Hbatch.
    + simpl in Hbatch. subst batch. destruct Hc.
    + apply orb_false_iff in Hguard as [Hneg _]. apply Z.ltb_ge in Hneg.
      unfold len in *. lia.
  - apply Hincl in Hc. rewrite <- Hpool in Hc. apply filter_In in Hc as [_ Hc].
    apply andb_true_iff in Hc as [Hc Hshort]. apply andb_true_iff in Hc as [Hunused Himg].
    apply negb_true_iff, contains_false in Hunused. apply Z.ltb_lt in Hshort. auto.
Qed.

(** A negative count makes the selector raise [ValueError] as soon as the
    bank file exists; without the bank file it returns an empty batch for
    every count. *)
Theorem fetch_batch_negative_count files draws count :
  (count < 0)%Z ->
  fetch_batch_questions files draws count
  = match bank files with
    | Some _ => Raise ValueError
    | None => Ok []
    end.
Proof.
  intros Hneg. unfold fetch_batch_questions, random_sample.
  destruct (bank files) as [all_cards|]; [|reflexivity].
  set (pool := available_pool (load_history (history files)) all_cards count).
  assert (Hg : (Z.min (len pool) count <? 0)%Z = true)
    by (apply Z.ltb_lt; unfold len; lia).
  rewrite Hg. reflexivity.
Qed.

(* ===================================================================== *)
(** ** get_font *)
(* ===================================================================== *)

Lemma probe_paths_find store name size paths :
  probe_paths store name size paths
  = match find (usable store size) (map (pair name) paths) with
    | Some (n, p) => truetype store p n size
    | None => None
    end.
Proof.
  induction paths as [|p rest IH]; [reflexivity|].
  cbn [probe_paths map find]. unfold usable at 1. cbn [fst snd].
  destruct (file_exists store p name); [|exact IH].
  destruct (truetype store p name size) eqn:Ht; [|exact IH].
  simpl. symmetry. exact Ht.
Qed.

Lemma find_app {A} (f : A -> bool) l1 l2 :
  find f (l1 ++ l2) = match find f l1 with
                      | Some x => Some x
                      | None => find f l2
                      end.
Proof.
  induction l1 as [|x l1 IH]; [reflexivity|]. simpl. destruct (f x); auto.
Qed.

Lemma find_usable_loads store size entries n p :
  find (usable store size) entries = Some (n, p) ->
  exists font, truetype store p n size = Some font.
Proof.
  intros Hf. apply find_some in Hf as [_ Hu]. unfold usable in Hu. cbn [fst snd] in Hu.
  apply andb_true_iff in Hu as [_ Hu].
  destruct (truetype store p n size) as [font|]; [exists font; reflexivity | discriminate].
Qed.

Lemma probe_names_find store size names :
  probe_names store size names
  = match find (usable store size) (list_prod names search_paths) with
    | Some (n, p) => truetype store p n size
    | None => None
    end.
Proof.
  induction names as [|name rest IH]; [reflexivity|].
  cbn [probe_names list_prod]. rewrite find_app, probe_paths_find.
  destruct (find (usable store size) (map (pair name) search_paths)) as [[n p]|] eqn:Hf.
  - destruct (find_usable_loads _ _ _ Hf) as [font Hfont]. rewrite Hfont. reflexivity.
  - exact IH.
Qed.

(** [get_font] never fails: it returns the font of the first candidate
    file that exists and loads, names in the order of the variant's list
    and, for each name, the bundled directory before the system one; it
    returns the built-in default font when there is none.  A variant other
    than Bold, Regular and Mono is served as Regular. *)
Theorem get_font_first_usable store size variant :
  get_font store size variant
  = match find (usable store size) (list_prod (candidates variant) search_paths) with
    | Some (name, p) =>
        match truetype store p name size with
        | Some font => font
        | None => load_default store
        end
    | None => load_default store
    end
  /\ (fonts variant = None ->
      get_font store size variant = get_font store size (py "Regular")).
Proof.
  split.
  - unfold get_font. rewrite probe_names_find.
    destruct (find (usable store size) (list_prod (candidates variant) search_paths))
      as [[n p]|]; reflexivity.
  - intros Hnone. unfold get_font, candidates. rewrite Hnone. reflexivity.
Qed.

(* ===================================================================== *)
(** ** The font ladders *)
(* ===================================================================== *)

(** The size of the question font is 68 up to 100 characters, 58 up to 200
    and 48 beyond; the size of the explanation font is 38 up to 200
    characters, 32 up to 400 and 28 beyond.  A longer text never gets a
    larger font, and no size is below the last step of its ladder. *)
Theorem font_sizes_ladder (s t : str) :
  front_font_size s = (if (len s <=? 100)%Z then 68
                       else if (len s <=? 200)%Z then 58 else 48)%Z
  /\ back_font_size s = (if (len s <=? 200)%Z then 38
                         else if (len s <=? 400)%Z then 32 else 28)%Z
  /\ ((len s <= len t)%Z ->
      (48 <= front_font_size t <= front_font_size s)%Z
      /\ (28 <= back_font_size t <= back_font_size s)%Z).
Proof.
  unfold front_font_size, back_font_size.
  repeat (match goal with
          | |- context [(?a <? ?b)%Z] => destruct (Z.ltb_spec a b)
          | |- context [(?a <=? ?b)%Z] => destruct (Z.leb_spec a b)
          end); repeat split; try reflexivity; try lia; intros; try lia.
Qed.

(* ===================================================================== *)
(** ** Where the lines are drawn *)
(* ===================================================================== *)

Lemma inject_Z_minus (x y : Z) : inject_Z (x - y) = (inject_Z x - inject_Z y)%Q.
Proof. unfold Z.sub, Qminus. rewrite inject_Z_plus, inject_Z_opp. reflexivity. Qed.

Lemma draw_centered_nth font cx1 card_w line_height lines : forall y i d,
  nth_error (draw_centered font cx1 card_w line_height y lines) i = Some d ->
  (pos_y d == y + inject_Z (Z.of_nat i * line_height))%Q
  /\ pos_x d
     = (inject_Z cx1
        + inject_Z (card_w - (bbox_right (getbbox font (content d))
                              - bbox_left (getbbox font (content d)))) / 2)%Q.
Proof.
  induction lines as [|l r IH]; intros y i d Hn; [destruct i; discriminate|].
  destruct i as [|i].
  - simpl in Hn. inversion Hn; subst. simpl. split; [|reflexivity].
    unfold Qeq. simpl. lia.
  - cbn [draw_centered nth_error] in Hn. apply IH in Hn as [Hy Hx].
    split; [|exact Hx]. rewrite Hy.
    replace (Z.of_nat (S i) * line_height)%Z
      with (line_height + Z.of_nat i * line_height)%Z by lia.
    rewrite inject_Z_plus. ring.
Qed.

Lemma draw_centered_length font cx1 card_w line_height lines : forall y,
  length (draw_centered font cx1 card_w line_height y lines) = length lines.
Proof. induction lines as [|l r IH]; intros y; simpl; [reflexivity | f_equal; apply IH]. Qed.

(** The question block is centred on the panel.  Line [i] is drawn at
    [220 + (950 - n * p) / 2 + i * p] for [n] lines of pitch [p], so the
    room above the block equals the room below it, and each line has as
    much room on its left as on its right.  When the block is not higher
    than the panel (and the pitch is not negative), every line lies inside
    the panel, between 220 and 1170. *)
Theorem front_block_centred get_font card draws i d :
  let question := clean_text (Some (get_or (question card) (py "Question?"))) in
  let font_q := get_font (front_font_size question) Bold in
  let p := front_line_height font_q in
  let n := len draws in
  let lw := (bbox_right (getbbox font_q (content d))
             - bbox_left (getbbox font_q (content d)))%Z in
  render_card_front get_font card = Ok draws ->
  nth_error draws i = Some d ->
  (pos_y d == inject_Z 220 + inject_Z (950 - n * p) / 2
              + inject_Z (Z.of_nat i * p))%Q
  /\ (pos_x d - inject_Z 60 == inject_Z 1020 - (pos_x d + inject_Z lw))%Q
  /\ ((0 <= p)%Z -> (n * p <= 950)%Z ->
      (inject_Z 220 <= pos_y d)%Q /\ (pos_y d + inject_Z p <= inject_Z 1170)%Q).
Proof.
  intros question font_q p n lw Hr Hn.
  assert (Hrf : render_card_front get_font card
                = (lines <- wrap_text (Some question) font_q 820 ;;
                   Ok (draw_centered font_q 60 960 p
                         (inject_Z 220 + inject_Z (950 - len lines * p) / 2)%Q
                         lines)))
    by reflexivity.
  rewrite Hrf in Hr. clear Hrf.
  destruct (wrap_text (Some question) font_q 820) as [lines|e]; cbn [bind] in Hr;
    [|discriminate].
  assert (Hdraws : draws = draw_centered font_q 60 960 p
                     (inject_Z 220 + inject_Z (950 - len lines * p) / 2)%Q lines)
    by congruence.
  assert (Hlen : n = len lines).
  { subst n. unfold len. rewrite Hdraws, draw_centered_length. reflexivity. }
  assert (Hi : (Z.of_nat i < n)%Z).
  { subst n. unfold len. apply Nat2Z.inj_lt. apply nth_error_Some. congruence. }
  rewrite Hdraws in Hn. apply draw_centered_nth in Hn as [Hy Hx].
  rewrite <- Hlen in Hy.
  split; [exact Hy|]. split.
  - rewrite Hx. fold lw. rewrite inject_Z_minus.
    change (inject_Z 960) with 960%Q. change (inject_Z 60) with 60%Q.
    change (inject_Z 1020) with 1020%Q. field.
  - intros Hp Hfit. rewrite Hy.
    assert (H1 : (0 <= inject_Z (950 - n * p))%Q)
      by (change 0%Q with (inject_Z 0); rewrite <- Zle_Qle; lia).
    assert (H2 : (0 <= inject_Z (Z.of_nat i * p))%Q)
      by (change 0%Q with (inject_Z 0); rewrite <- Zle_Qle; nia).
    assert (H3 : (inject_Z (Z.of_nat i * p) + inject_Z p <= inject_Z (n * p))%Q)
      by (rewrite <- inject_Z_plus, <- Zle_Qle; nia).
    assert (H4 : (inject_Z (950 - n * p) == inject_Z 950 - inject_Z (n * p))%Q)
      by (rewrite inject_Z_minus; reflexivity).
    assert (H5 : (inject_Z (n * p) <= inject_Z 950)%Q) by (rewrite <- Zle_Qle; exact Hfit).
    change (inject_Z 950) with 950%Q in *. change (inject_Z 220) with 220%Q.
    change (inject_Z 1170) with 1170%Q.
    remember (inject_Z (950 - n * p)) as a eqn:Ea.
    remember (inject_Z (Z.of_nat i * p)) as b eqn:Eb.
    remember (inject_Z (n * p)) as c eqn:Ec.
    remember (inject_Z p) as q eqn:Eq.
    clear - H1 H2 H3 H4 H5. unfold Qdiv. change (/ 2)%Q with (1 # 2)%Q. split; lra.
Qed.

Lemma draw_clipped_nth x cy2 line_h lines : forall y i d,
  nth_error (draw_clipped x cy2 line_h y lines) i = Some d ->
  pos_x d = inject_Z x
  /\ pos_y d = inject_Z (y + Z.of_nat i * line_h)
  /\ (y + Z.of_nat i * line_h + line_h <= cy2 - 40)%Z.
Proof.
  induction lines as [|l r IH]; intros y i d Hn; [destruct i; discriminate|].
  cbn [draw_clipped] in Hn.
  destruct (Z.ltb_spec (cy2 - 40) (y + line_h)) as [Hclip|Hfit];
    [destruct i; discriminate|].
  destruct i as [|i].
  - simpl in Hn. inversion Hn; subst. cbn [pos_x pos_y Z.of_nat].
    rewrite Z.mul_0_l, Z.add_0_r. repeat split; auto.
  - cbn [nth_error] in Hn. apply IH in Hn as [Hx [Hy Hb]].
    replace (y + Z.of_nat (S i) * line_h)%Z
      with (y + line_h + Z.of_nat i * line_h)%Z by lia.
    repeat split; assumption.
Qed.

(** The clipped loop draws as many lines as fit: all of them, or the
    number of pitches between the first line and [cy2 - 40]. *)
Lemma draw_clipped_count x cy2 line_h lines : forall y,
  (0 < line_h)%Z -> (y <= cy2 - 40)%Z ->
  len (draw_clipped x cy2 line_h y lines)
  = Z.min (len lines) ((cy2 - 40 - y) / line_h).
Proof.
  unfold len. induction lines as [|l r IH]; intros y Hp Hy.
  - simpl. assert (0 <= (cy2 - 40 - y) / line_h)%Z by (apply Z.div_pos; lia). lia.
  - cbn [draw_clipped]. destruct (Z.ltb_spec (cy2 - 40) (y + line_h)) as [Hclip|Hfit].
    + rewrite Z.div_small by lia. simpl length. lia.
    + simpl length. rewrite !Nat2Z.inj_succ. rewrite (IH (y + line_h)%Z Hp) by lia.
      replace (cy2 - 40 - y)%Z with (cy2 - 40 - (y + line_h) + 1 * line_h)%Z by lia.
      rewrite Z.div_add by lia. lia.
Qed.

(** With a positive pitch [p], the explanation block draws as many leading
    lines as fit between 560 and 1130: line [i] is drawn at [560 + i * p]
    and ends at or above 1130, 40 above the bottom of the panel, and the
    number of lines drawn is the smaller of the number of wrapped lines
    and [570 / p] rounded down. *)
Theorem explanation_block_inside get_font card draws lines :
  let exploration := clean_text (Some (get_or (explanation card) [])) in
  let font_expl := get_font (back_font_size exploration) Regular in
  let p := back_line_h font_expl in
  render_explanation get_font card = Ok draws ->
  wrap_text (Some exploration) font_expl 840 = Ok lines ->
  (0 < p)%Z ->
  len draws = Z.min (len lines) (570 / p)
  /\ forall i d, nth_error draws i = Some d ->
       pos_x d = inject_Z 120
       /\ pos_y d = inject_Z (560 + Z.of_nat i * p)
       /\ (560 + Z.of_nat i * p + p <= 1130)%Z.
Proof.
  intros exploration font_expl p Hr Hw Hp.
  assert (Hre : render_explanation get_font card
                = (expl_lines <- wrap_text (Some exploration) font_expl 840 ;;
                   Ok (draw_clipped 120 1170 p 560 expl_lines)))
    by reflexivity.
  rewrite Hre, Hw in Hr. cbn [bind] in Hr.
  assert (Hdraws : draws = draw_clipped 120 1170 p 560 lines) by congruence.
  rewrite Hdraws. split.
  - rewrite (@draw_clipped_count 120 1170 p lines 560 Hp) by lia. reflexivity.
  - intros i d Hn. apply draw_clipped_nth in Hn. exact Hn.
Qed.

Lemma draw_answer_nth x lines : forall y i d,
  nth_error (draw_answer x y lines) i = Some d ->
  pos_x d = inject_Z x /\ pos_y d = inject_Z (y + 60 * Z.of_nat i).
Proof.
  induction lines as [|l r IH]; intros y i d Hn; [destruct i; discriminate|].
  destruct i as [|i].
  - simpl in Hn. inversion Hn; subst. cbn [pos_x pos_y Z.of_nat].
    rewrite Z.mul_0_r, Z.add_0_r. split; reflexivity.
  - cbn [draw_answer nth_error] in Hn. apply IH in Hn as [Hx Hy].
    replace (y + 60 * Z.of_nat (S i))%Z with (y + 60 + 60 * Z.of_nat i)%Z by lia.
    split; assumption.
Qed.

(** The answer lines are drawn at a fixed pitch of 60 from 310 on, at most
    three of them, so none starts below 430. *)
Theorem answer_lines_positions get_font card draws i d :
  render_answer get_font card = Ok draws ->
  nth_error draws i = Some d ->
  pos_x d = inject_Z 120
  /\ pos_y d = inject_Z (310 + 60 * Z.of_nat i)
  /\ i <= 2.
Proof.
  intros Hr Hn.
  assert (Hra : render_answer get_font card
                = (ans_lines <- wrap_text
                     (Some (clean_text (Some (get_or (answer card) (py "Answer")))))
                     (get_font 54%Z Bold) 840 ;;
                   Ok (draw_answer 120 310
                         (if 3 <? length ans_lines then firstn 3 ans_lines else ans_lines))))
    by reflexivity.
  rewrite Hra in Hr. clear Hra.
  destruct (wrap_text _ (get_font 54%Z Bold) 840) as [lines|e]; cbn [bind] in Hr;
    [|discriminate].
  rewrite firstn_3_cap in Hr.
  assert (Hdraws : draws = draw_answer 120 310 (firstn 3 lines)) by congruence.
  assert (Hi : i < length draws) by (apply nth_error_Some; congruence).
  rewrite Hdraws in Hn, Hi.
  assert (Hlen : length (draw_answer 120 310 (firstn 3 lines)) <= 3).
  { rewrite <- (length_map content), draw_answer_content, length_firstn. lia. }
  apply draw_answer_nth in Hn as [Hx Hy]. repeat split; auto. lia.
Qed.

(* ===================================================================== *)
(** ** render_batch *)
(* ===================================================================== *)

Lemma str_eqb_refl a : str_eqb a a = true.
Proof. unfold str_eqb. destruct (list_eq_dec ascii_dec a a); congruence. Qed.

Lemma str_eqb_true a b : str_eqb a b = true -> a = b.
Proof. unfold str_eqb. destruct (list_eq_dec ascii_dec a b); congruence. Qed.

Lemma str_eqb_neq a b : a <> b -> str_eqb a b = false.
Proof. unfold str_eqb. destruct (list_eq_dec ascii_dec a b); congruence. Qed.

Lemma py_inj s t : py s = py t -> s = t.
Proof.
  unfold py. intros Heq. apply (f_equal string_of_list_ascii) in Heq.
  rewrite !string_of_list_ascii_of_string in Heq. exact Heq.
Qed.

Lemma decimal_inj a b : decimal a = decimal b -> a = b.
Proof.
  unfold decimal. intros Heq. apply py_inj in Heq.
  apply (f_equal NilEmpty.uint_of_string) in Heq. rewrite !NilEmpty.usu in Heq.
  inversion Heq as [Hu]. apply (f_equal Nat.of_uint) in Hu.
  rewrite !Unsigned.of_to in Hu. exact Hu.
Qed.

(** The file names of a batch are distinct. *)
Lemma image_names_distinct a b :
  (front_name a = front_name b -> a = b)
  /\ (back_name a = back_name b -> a = b)
  /\ front_name a <> back_name b.
Proof.
  unfold front_name, back_name. repeat split.
  - intros Heq. apply app_inv_head, app_inv_tail in Heq. apply decimal_inj. exact Heq.
  - intros Heq. apply app_inv_head, app_inv_tail in Heq. apply decimal_inj. exact Heq.
  - intros Heq. apply app_inv_head in Heq. apply (f_equal (@rev ascii)) in Heq.
    rewrite !rev_app_distr in Heq. simpl in Heq. discriminate.
Qed.

Lemma read_save_same name img files : read_image name (save_image name img files) = Some img.
Proof. unfold save_image. simpl. rewrite str_eqb_refl. reflexivity. Qed.

Lemma read_save_other name other img files :
  other <> name ->
  read_image name (save_image other img files) = read_image name files.
Proof.
  intros Hne. unfold save_image. cbn [read_image].
  rewrite (str_eqb_neq Hne).
  induction files as [|[n i] rest IH]; [reflexivity|].
  cbn [filter fst]. destruct (str_eqb n other) eqn:Ho; cbn [negb read_image].
  - apply str_eqb_true in Ho. subst n. rewrite (str_eqb_neq Hne). exact IH.
  - destruct (str_eqb n name); [reflexivity | exact IH].
Qed.

(** A name that does not start with a slash is appended to the directory,
    after the same separator for every such name. *)
Lemma join_component_name path :
  exists prefix, forall name,
    starts_with_sep name = false -> os_path_join path [name] = prefix ++ name.
Proof.
  destruct ((length path =? 0) || ends_with_sep path) eqn:Hp.
  - exists path. intros name Hn. unfold os_path_join, join_component. simpl.
    rewrite Hn, Hp. reflexivity.
  - exists (path ++ py "/"). intros name Hn. unfold os_path_join, join_component. simpl.
    rewrite Hn, Hp. rewrite <- app_assoc. reflexivity.
Qed.

(** The paths of a batch are distinct. *)
Lemma image_paths_distinct out a b :
  (f_path out a = f_path out b -> a = b)
  /\ (b_path out a = b_path out b -> a = b)
  /\ f_path out a <> b_path out b.
Proof.
  destruct (join_component_name out) as [prefix Hjoin].
  unfold f_path, b_path.
  rewrite !Hjoin by reflexivity.
  destruct (image_names_distinct (a + 1) (b + 1)) as [Hf [Hb Hfb]].
  repeat split.
  - intros Heq. apply app_inv_head in Heq. apply Hf in Heq. lia.
  - intros Heq. apply app_inv_head in Heq. apply Hb in Heq. lia.
  - intros Heq. apply app_inv_head in Heq. exact (Hfb Heq).
Qed.

(** An attempt to write either goes through or is refused with [OSError],
    and then a refusal was pending; nothing else changes. *)
Lemma open_for_writing_spec disk d r :
  open_for_writing disk = (d, r) ->
  home d = home disk /\ inputs d = inputs disk /\ images d = images disk
  /\ daily_flashcards d = daily_flashcards disk
  /\ incl (refusals d) (refusals disk)
  /\ (r = Ok tt \/ (r = Raise OSError /\ In true (refusals disk))).
Proof.
  unfold open_for_writing. destruct (refusals disk) as [|[|] rest] eqn:Hr;
    intros Heq; inversion Heq; subst;
    cbn [home inputs images daily_flashcards refusals with_refusals].
  - rewrite Hr. repeat split; auto using incl_refl.
  - repeat split; auto; [apply incl_tl, incl_refl|].
    right. split; [reflexivity | left; reflexivity].
  - repeat split; auto. apply incl_tl, incl_refl.
Qed.

Lemma save_spec path img disk d r :
  save path img disk = (d, r) ->
  home d = home disk /\ inputs d = inputs disk
  /\ daily_flashcards d = daily_flashcards disk
  /\ incl (refusals d) (refusals disk)
  /\ ((r = Ok tt /\ images d = save_image path img (images disk))
      \/ (r = Raise OSError /\ In true (refusals disk) /\ images d = images disk)).
Proof.
  unfold save. destruct (open_for_writing disk) as [d0 r0] eqn:Ho.
  apply open_for_writing_spec in Ho as [Hh [Hi [Him [Hm [Hincl Hr]]]]].
  destruct Hr as [-> | [-> Hin]]; intros Heq; inversion Heq; subst;
    cbn [home inputs images daily_flashcards refusals with_images];
    repeat split; auto.
  left. split; [reflexivity | rewrite Him; reflexivity].
Qed.

Lemma write_history_spec q_id disk d r :
  write_history q_id disk = (d, r) ->
  home d = home disk /\ bank (inputs d) = bank (inputs disk)
  /\ images d = images disk
  /\ daily_flashcards d = daily_flashcards disk
  /\ incl (refusals d) (refusals disk)
  /\ ((r = Ok tt
       /\ history (inputs d) = save_history_entry (history (inputs disk)) q_id)
      \/ (r = Raise OSError /\ In true (refusals disk)
          /\ history (inputs d) = history (inputs disk))).
Proof.
  unfold write_history.
  destruct (contains (load_history (history (inputs disk))) q_id) eqn:Hc.
  - intros Heq. inversion Heq; subst. repeat split; auto using incl_refl.
    left. split; [reflexivity|]. unfold save_history_entry. rewrite Hc. reflexivity.
  - destruct (open_for_writing disk) as [d0 r0] eqn:Ho.
    apply open_for_writing_spec in Ho as [Hh [Hi [Him [Hm [Hincl Hr]]]]].
    destruct Hr as [-> | [-> Hin]]; intros Heq; inversion Heq; subst;
      cbn [home inputs images daily_flashcards refusals with_history bank history];
      rewrite ?Hi; repeat split; auto.
Qed.

Section BatchFacts.

Variable get_font : Z -> variant -> Font.

(** One turn of the loop: what it leaves alone, and what it has done when
    it ends and when it is stopped. *)
Lemma render_card_spec out i card disk d r :
  render_card get_font out i card disk = (d, r) ->
  (home d = home disk /\ bank (inputs d) = bank (inputs disk)
   /\ daily_flashcards d = daily_flashcards disk
   /\ incl (refusals d) (refusals disk))
  /\ ((exists added,
         load_history (history (inputs d))
         = load_history (history (inputs disk)) ++ added)
      /\ (NoDup (load_history (history (inputs disk)))
          -> NoDup (load_history (history (inputs d)))))
  /\ (forall path, path <> f_path out i -> path <> b_path out i ->
        read_image path (images d) = read_image path (images disk))
  /\ history (inputs d)
     = match r with
       | Ok _ => save_history_entry (history (inputs disk)) (id card)
       | Raise _ => history (inputs disk)
       end
  /\ match r with
     | Ok entry =>
         entry = result_entry out i card
         /\ (exists img_f,
               render_card_front get_font card = Ok img_f
               /\ read_image (f_path out i) (images d) = Some (FrontFace img_f))
         /\ (exists ans expl,
               render_card_back get_font card = Ok (ans, expl)
               /\ read_image (b_path out i) (images d) = Some (BackFace ans expl))
         /\ In (id card) (load_history (history (inputs d)))
     | Raise e =>
         (render_card_front get_font card = Raise e
          \/ (exists img_f, render_card_front get_font card = Ok img_f)
             /\ render_card_back get_font card = Raise e)
         \/ (e = OSError /\ In true (refusals disk))
     end.
Proof.
  assert (Hsame : exists added : list str,
             load_history (history (inputs disk))
             = load_history (history (inputs disk)) ++ added)
    by (exists []; symmetry; apply app_nil_r).
  unfold render_card.
  destruct (render_card_front get_font card) as [img_f|e] eqn:Hfront.
  2:{ intros Heq. inversion Heq; subst. repeat split; auto using incl_refl. }
  destruct (save (f_path out i) (FrontFace img_f) disk) as [d1 r1] eqn:Hs1.
  apply save_spec in Hs1 as [Hh1 [Hi1 [Hm1 [Hr1 Hw1]]]].
  destruct Hw1 as [[-> Him1] | [-> [Hin1 Him1]]].
  2:{ intros Heq. inversion Heq; subst. rewrite Hi1, Him1.
      repeat split; auto. }
  destruct (render_card_back get_font card) as [[ans expl]|e] eqn:Hback.
  2:{ intros Heq. inversion Heq; subst. rewrite Hi1, Him1.
      repeat split; auto.
      - intros path Hf _. apply read_save_other. congruence.
      - left. right. split; [exists img_f; reflexivity | reflexivity]. }
  destruct (save (b_path out i) (BackFace ans expl) d1) as [d2 r2] eqn:Hs2.
  apply save_spec in Hs2 as [Hh2 [Hi2 [Hm2 [Hr2 Hw2]]]].
  destruct Hw2 as [[-> Him2] | [-> [Hin2 Him2]]].
  2:{ intros Heq. inversion Heq; subst. rewrite Hi2, Hi1, Him2, Him1.
      repeat split; auto; try congruence.
      - eapply incl_tran; eassumption.
      - intros path Hf _. apply read_save_other. congruence. }
  destruct (write_history (id card) d2) as [d3 r3] eqn:Hs3.
  apply write_history_spec in Hs3 as [Hh3 [Hb3 [Him3 [Hm3 [Hr3 Hw3]]]]].
  assert (Himg : forall path, path <> f_path out i -> path <> b_path out i ->
                   read_image path (images d3) = read_image path (images disk)).
  { intros path Hf Hb. rewrite Him3, Him2, Him1.
    rewrite !read_save_other by congruence. reflexivity. }
  assert (Hincl : incl (refusals d3) (refusals disk)).
  { eapply incl_tran; [eassumption|]. eapply incl_tran; eassumption. }
  destruct Hw3 as [[-> Hh] | [-> [Hin3 Hh]]]; intros Heq; inversion Heq; subst.
  - rewrite Hh, Hi2, Hi1.
    destruct (save_history_entry_facts (history (inputs disk)) (id card))
      as [Hin [Hadd Hnd]].
    repeat split; auto; try congruence.
    + exists img_f. split; [reflexivity|]. rewrite Him3, Him2, Him1.
      destruct (image_paths_distinct out i i) as [_ [_ Hfb]].
      rewrite read_save_other by congruence. apply read_save_same.
    + exists ans, expl. split; [reflexivity|]. rewrite Him3, Him2.
      apply read_save_same.
  - rewrite Hh, Hi2, Hi1. repeat split; auto; congruence.
Qed.

(** The loop over the cards never touches the bank nor the manifest; it
    only adds to the history, and keeps a history without repeated id
    so. *)
Lemma render_cards_keeps out cards : forall i results disk disk' r,
  render_cards get_font out i cards results disk = (disk', r) ->
  (home disk' = home disk /\ bank (inputs disk') = bank (inputs disk)
   /\ daily_flashcards disk' = daily_flashcards disk
   /\ incl (refusals disk') (refusals disk))
  /\ (exists added,
        load_history (history (inputs disk'))
        = load_history (history (inputs disk)) ++ added)
  /\ (NoDup (load_history (history (inputs disk)))
      -> NoDup (load_history (history (inputs disk')))).
Proof.
  induction cards as [|card rest IH]; intros i results disk disk' r Hr.
  - simpl in Hr. inversion Hr; subst. repeat split; auto using incl_refl.
    exists []. rewrite app_nil_r. reflexivity.
  - cbn [render_cards] in Hr.
    destruct (render_card get_font out i card disk) as [d1 r1] eqn:Hc.
    apply render_card_spec in Hc as [[Hh [Hb [Hm Hincl]]] [[[added Hadd] Hnd] _]].
    destruct r1 as [entry|e].
    + apply IH in Hr as [[Hh' [Hb' [Hm' Hincl']]] [[added' Hadd'] Hnd']].
      repeat split; try congruence; auto.
      * eapply incl_tran; eassumption.
      * exists (added ++ added'). rewrite Hadd', Hadd, app_assoc. reflexivity.
    + inversion Hr; subst. repeat split; auto. exists added. exact Hadd.
Qed.

(** Images under paths that the loop does not write are left alone. *)
Lemma render_cards_keeps_images out path cards : forall i results disk disk' r,
  render_cards get_font out i cards results disk = (disk', r) ->
  (forall k, i <= k -> path <> f_path out k /\ path <> b_path out k) ->
  read_image path (images disk') = read_image path (images disk).
Proof.
  induction cards as [|card rest IH]; intros i results disk disk' r Hr Hpath.
  - simpl in Hr. inversion Hr; subst. reflexivity.
  - cbn [render_cards] in Hr. destruct (Hpath i (Nat.le_refl i)) as [Hf Hb].
    destruct (render_card get_font out i card disk) as [d1 r1] eqn:Hc.
    apply render_card_spec in Hc as [_ [_ [Himg _]]].
    destruct r1 as [entry|e].
    + apply IH in Hr; [|intros k Hk; apply Hpath; lia].
      rewrite Hr. apply Himg; assumption.
    + inversion Hr; subst. apply Himg; assumption.
Qed.

(** The faces written at position [i] stay while the loop goes on. *)
Lemma render_cards_keeps_faces out cards i j results disk disk' r :
  render_cards get_font out (S i + j) cards results disk = (disk', r) ->
  read_image (f_path out i) (images disk') = read_image (f_path out i) (images disk)
  /\ read_image (b_path out i) (images disk') = read_image (b_path out i) (images disk).
Proof.
  intros Hr. split.
  - apply (@render_cards_keeps_images out (f_path out i) cards _ _ _ _ _ Hr).
    intros k Hk. destruct (image_paths_distinct out i k) as [Hff [_ Hfb]].
    split; [intros Heq; apply Hff in Heq; lia | exact Hfb].
  - apply (@render_cards_keeps_images out (b_path out i) cards _ _ _ _ _ Hr).
    intros k Hk. destruct (image_paths_distinct out i k) as [_ [Hbb _]].
    destruct (image_paths_distinct out k i) as [_ [_ Hfb]].
    split; [congruence | intros Heq; apply Hbb in Heq; lia].
Qed.

(** What the loop has done for the records it went through, whether it
    ends or is stopped after them. *)
Lemma render_cards_progress out cards : forall i results disk disk' r,
  render_cards get_font out i cards results disk = (disk', r) ->
  exists done rest,
    cards = done ++ rest
    /\ history (inputs disk')
       = fold_left save_history_entry (map id done) (history (inputs disk))
    /\ (forall k card, nth_error done k = Some card ->
          (exists img_f,
             render_card_front get_font card = Ok img_f
             /\ read_image (f_path out (i + k)) (images disk') = Some (FrontFace img_f))
          /\ (exists ans expl,
                render_card_back get_font card = Ok (ans, expl)
                /\ read_image (b_path out (i + k)) (images disk')
                   = Some (BackFace ans expl))
          /\ In (id card) (load_history (history (inputs disk'))))
    /\ match r with
       | Ok rs =>
           rest = []
           /\ rs = results ++ map (fun entry => result_entry out (fst entry) (snd entry))
                                  (combine (seq i (length cards)) cards)
       | Raise e =>
           (exists card rest',
              rest = card :: rest'
              /\ (render_card_front get_font card = Raise e
                  \/ (exists img_f, render_card_front get_font card = Ok img_f)
                     /\ render_card_back get_font card = Raise e))
           \/ (e = OSError /\ In true (refusals disk))
       end.
Proof.
  induction cards as [|card rest IH]; intros i results disk disk' r Hr.
  - simpl in Hr. inversion Hr; subst. exists [], []. split; [reflexivity|].
    split; [reflexivity|].
    split; [intros [|k] c Hc; discriminate|].
    split; [reflexivity | simpl; rewrite app_nil_r; reflexivity].
  - cbn [render_cards] in Hr.
    destruct (render_card get_font out i card disk) as [d1 r1] eqn:Hc.
    apply render_card_spec in Hc as [[_ [_ [_ Hincl]]] [_ [_ [Hhist Hdone]]]].
    destruct r1 as [entry|e].
    + destruct Hdone as [-> [Hf [Hb Hh]]].
      pose proof (render_cards_keeps _ _ _ _ _ Hr) as [_ [[added Hadd] _]].
      assert (Hr' : render_cards get_font out (S i + 0) rest
                      (results ++ [result_entry out i card]) d1 = (disk', r))
        by (rewrite Nat.add_0_r; exact Hr).
      apply render_cards_keeps_faces in Hr' as [Hkf Hkb].
      apply IH in Hr as [done [rest' [Hcards [Hfold [Hall Hres]]]]].
      exists (card :: done), rest'. split; [simpl; f_equal; exact Hcards|].
      split; [cbn [map fold_left]; rewrite <- Hhist; exact Hfold|]. split.
      * intros [|k] c Hk.
        -- simpl in Hk. inversion Hk; subst c. rewrite Nat.add_0_r.
           rewrite Hkf, Hkb. repeat split; auto.
           rewrite Hadd. apply in_or_app. left. exact Hh.
        -- simpl in Hk. replace (i + S k) with (S i + k) by lia. apply Hall. exact Hk.
      * destruct r as [rs|e].
        -- destruct Hres as [Hnil Hrs]. split; [exact Hnil|].
           rewrite Hrs. cbn [length seq combine map fst snd].
           rewrite <- app_assoc. reflexivity.
        -- destruct Hres as [Hface | [He Hin]]; [left; exact Hface|].
           right. split; [exact He | apply Hincl; exact Hin].
    + inversion Hr; subst. exists [], (card :: rest). split; [reflexivity|].
      split; [exact Hhist|].
      split; [intros [|k] c Hk; discriminate|].
      destruct Hdone as [Hface | Hos]; [left | right; exact Hos].
      exists card, rest. split; [reflexivity | exact Hface].
Qed.

End BatchFacts.

Lemma filter_nil_weaker {A} (p q : A -> bool) l :
  (forall x, p x = true -> q x = true) -> filter q l = [] -> filter p l = [].
Proof.
  intros Hpq. induction l as [|x l IH]; [reflexivity|]. simpl.
  destruct (q x) eqn:Hq; [discriminate|]. intros Hl.
  destruct (p x) eqn:Hp; [apply Hpq in Hp; congruence | auto].
Qed.

(** The pool sampled is empty exactly when the bank has no record without
    image. *)
Lemma available_pool_nil used_ids all_cards count :
  available_pool used_ids all_cards count = [] <-> without_image all_cards = [].
Proof.
  split.
  - unfold available_pool.
    destruct (len (fresh_short used_ids all_cards) <? count)%Z.
    + destruct (fresh used_ids all_cards); [auto | discriminate].
    + destruct (fresh_short used_ids all_cards); [auto | discriminate].
  - intros Hw. unfold available_pool.
    assert (H1 : fresh_short used_ids all_cards = []).
    { unfold fresh_short. apply (filter_nil_weaker _ no_image); [|exact Hw].
      intros x Hx. apply andb_true_iff in Hx as [Hx _].
      apply andb_true_iff in Hx. apply Hx. }
    assert (H2 : fresh used_ids all_cards = []).
    { unfold fresh. apply (filter_nil_weaker _ no_image); [|exact Hw].
      intros x Hx. apply andb_true_iff in Hx. apply Hx. }
    rewrite H1, H2. destruct (len [] <? count)%Z; exact Hw.
Qed.

(** The selection of a batch of five: it returns at most five records, and
    none exactly when the bank file is missing or holds no record without
    image. *)
Lemma fetch_five files draws :
  exists batch,
    fetch_batch_questions files draws BATCH_SIZE = Ok batch
    /\ length batch <= 5
    /\ (batch = [] <-> match bank files with
                       | None => True
                       | Some all_cards => without_image all_cards = []
                       end).
Proof.
  unfold fetch_batch_questions, random_sample, BATCH_SIZE.
  destruct (bank files) as [all_cards|].
  2:{ exists []. repeat split; auto. simpl. lia. }
  set (pool := available_pool (load_history (history files)) all_cards 5).
  assert (Hk : Z.to_nat (Z.min (len pool) 5) <= length pool) by (unfold len; lia).
  assert (Hguard : ((Z.min (len pool) 5 <? 0)%Z
                    || (Z.of_nat (length pool) <? Z.min (len pool) 5)%Z) = false).
  { apply orb_false_iff. split; apply Z.ltb_ge; unfold len; lia. }
  rewrite Hguard. eexists. split; [reflexivity|].
  pose proof (sample_pool_length draws pool Hk) as Hlen.
  split; [rewrite Hlen; unfold len; lia|].
  rewrite <- (available_pool_nil (load_history (history files)) all_cards 5).
  fold pool. split.
  - intros Hnil. rewrite Hnil in Hlen. simpl in Hlen.
    destruct pool; [reflexivity | unfold len in Hlen; simpl in Hlen; lia].
  - intros Hnil. rewrite Hnil. reflexivity.
Qed.

(** [render_batch] finds no card exactly when the bank file is missing or
    holds no record without image; it then leaves the disk as it is: no
    image, no history entry and no manifest is written. *)
Theorem render_batch_no_cards get_font draws today disk disk' :
  render_batch get_font draws today disk = (disk', Ok None)
  <-> disk' = disk
      /\ match bank (inputs disk) with
         | None => True
         | Some all_cards => without_image all_cards = []
         end.
Proof.
  unfold render_batch.
  destruct (fetch_five (inputs disk) draws) as [batch [Hf [_ Hnil]]].
  rewrite Hf. destruct batch as [|c batch].
  - split.
    + intros Heq. inversion Heq; subst. split; [reflexivity | apply Hnil; reflexivity].
    + intros [-> _]. reflexivity.
  - split.
    + destruct (render_cards get_font (OUTPUT_DIR (home disk)) 0 (c :: batch) [] disk)
        as [d [rs|e]]; [|intros Heq; discriminate].
      destruct (open_for_writing d) as [d' [[]|e]]; intros Heq; discriminate.
    + intros [_ Hb]. apply Hnil in Hb. discriminate.
Qed.

(** When [render_batch] ends with cards saved, it has written the two
    faces of every record of the batch under the paths of its position in
    [OUTPUT_DIR], a manifest that lists the records of the batch in order,
    each with the paths of its two faces, under today's date, and the id
    of every record into the history. *)
Theorem render_batch_saved get_font draws today disk disk' n :
  render_batch get_font draws today disk = (disk', Ok (Some n)) ->
  exists batch,
    fetch_batch_questions (inputs disk) draws BATCH_SIZE = Ok batch
    /\ n = length batch
    /\ 1 <= n <= 5
    /\ daily_flashcards disk'
       = Some {| manifest_date := today;
                 manifest_cards :=
                   map (fun entry =>
                          result_entry (OUTPUT_DIR (home disk)) (fst entry) (snd entry))
                       (combine (seq 0 n) batch) |}
    /\ forall k card, nth_error batch k = Some card ->
         (exists img_f,
            render_card_front get_font card = Ok img_f
            /\ read_image (os_path_join (OUTPUT_DIR (home disk)) [front_name (k + 1)])
                 (images disk')
               = Some (FrontFace img_f))
         /\ (exists ans expl,
               render_card_back get_font card = Ok (ans, expl)
               /\ read_image (os_path_join (OUTPUT_DIR (home disk)) [back_name (k + 1)])
                    (images disk')
                  = Some (BackFace ans expl))
         /\ In (id card) (load_history (history (inputs disk'))).
Proof.
  unfold render_batch.
  destruct (fetch_five (inputs disk) draws) as [batch [Hf [Hlen _]]].
  rewrite Hf. destruct batch as [|c batch]; [discriminate|].
  destruct (render_cards get_font (OUTPUT_DIR (home disk)) 0 (c :: batch) [] disk)
    as [d [rs|e]] eqn:Hr; [|discriminate].
  destruct (open_for_writing d) as [d' [[]|e]] eqn:Ho; [|discriminate].
  apply open_for_writing_spec in Ho as [_ [Hi [Him _]]].
  intros Heq. inversion Heq; subst. clear Heq.
  destruct (@render_cards_progress get_font _ _ _ _ _ _ _ Hr)
    as [done [rest [Hcards [_ [Hall [Hnil Hrs]]]]]].
  subst rest. rewrite app_nil_r in Hcards. subst done.
  change ([] ++ ?x) with x in Hrs.
  assert (Hn : length rs = length (c :: batch)).
  { rewrite Hrs, length_map, length_combine, length_seq. lia. }
  exists (c :: batch). split; [reflexivity|]. split; [exact Hn|].
  split; [rewrite Hn; simpl in *; lia|]. split.
  - cbn [daily_flashcards with_manifest]. rewrite Hn, <- Hrs. reflexivity.
  - intros k card Hk. cbn [images inputs with_manifest]. rewrite Hi, Him.
    apply (Hall k card Hk).
Qed.

(** Whatever the outcome, [render_batch] leaves the bank as it is, only
    adds ids at the end of the history, and keeps a history without
    repeated id so. *)
Theorem render_batch_history get_font draws today disk disk' r :
  render_batch get_font draws today disk = (disk', r) ->
  bank (inputs disk') = bank (inputs disk)
  /\ (exists added,
        load_history (history (inputs disk'))
        = load_history (history (inputs disk)) ++ added)
  /\ (NoDup (load_history (history (inputs disk)))
      -> NoDup (load_history (history (inputs disk')))).
Proof.
  unfold render_batch.
  assert (Hsame : bank (inputs disk) = bank (inputs disk)
                  /\ (exists added,
                        load_history (history (inputs disk))
                        = load_history (history (inputs disk)) ++ added)
                  /\ (NoDup (load_history (history (inputs disk)))
                      -> NoDup (load_history (history (inputs disk))))).
  { repeat split; auto. exists []. rewrite app_nil_r. reflexivity. }
  destruct (fetch_batch_questions (inputs disk) draws BATCH_SIZE) as [[|c batch]|e].
  - intros Heq. inversion Heq; subst. exact Hsame.
  - destruct (render_cards get_font (OUTPUT_DIR (home disk)) 0 (c :: batch) [] disk)
      as [d rs] eqn:Hr.
    destruct (@render_cards_keeps get_font _ _ _ _ _ _ _ Hr)
      as [[_ [Hb _]] [Hadd Hnd]].
    destruct rs as [rs|e].
    + destruct (open_for_writing d) as [d' r'] eqn:Ho.
      apply open_for_writing_spec in Ho as [_ [Hi _]].
      destruct r' as [[]|e]; intros Heq; inversion Heq; subst; clear Heq;
        cbn [inputs with_manifest]; rewrite Hi; repeat split; auto.
    + intros Heq; inversion Heq; subst; clear Heq. repeat split; auto.
  - intros Heq. inversion Heq; subst. exact Hsame.
Qed.


(* ===================================================================== *)
(** ** The properties above at sample data *)
(* ===================================================================== *)

Lemma wrap_text_lines_within_budget_witness :
  exists lines,
    wrap_text (Some (py "abcdefghij-klm  nop")) (fixed_font 10 40) 45 = Ok lines
    /\ Forall (fun l => (1 <= len l <= 5)%Z) lines.
Proof.
  apply wrap_text_lines_within_budget.
  - vm_compute. reflexivity.
  - lia.
Defined.

Lemma wrap_text_keeps_ink_witness :
  ink (concat [py "abcde"; py "fghij"]) = ink (py "abcdefghij").
Proof.
  apply wrap_text_keeps_ink with (font := fixed_font 10 40) (max_width := 45%Z) (k := 5%Z).
  - vm_compute. reflexivity.
  - lia.
  - vm_compute. reflexivity.
Defined.

Lemma wrap_text_raises_witness :
  wrap_text (Some (py "a")) (fixed_font 10 40) 8 = Raise ValueError
  /\ wrap_text (Some (py "a")) (fixed_font 0 40) 820 = Raise ZeroDivisionError.
Proof.
  split.
  - apply (proj1 (@wrap_text_raises (fixed_font 10 40) 8 "a"%char [])) with (k := 0%Z).
    + vm_compute. reflexivity.
    + lia.
  - refine (proj1 (proj2 (@wrap_text_raises (fixed_font 0 40) 820 "a"%char []) _) _).
    + reflexivity.
    + vm_compute. reflexivity.
Defined.

Lemma fetch_batch_distinct_witness :
  NoDup (map id [plain_card "b"; plain_card "c"]).
Proof.
  apply (@fetch_batch_distinct files_mixed [0; 0] 2
           [plain_card "a"; image_card "i"; plain_card "b"; plain_card "c"]).
  - reflexivity.
  - repeat constructor; simpl; intuition discriminate.
  - reflexivity.
Defined.

Lemma fetch_batch_unrelaxed_witness :
  Forall (fun c => ~ In (id c) (load_history (history files_mixed))
                   /\ no_image c = true
                   /\ (len (get_or (explanation c) []) < 600)%Z)
         [plain_card "b"; plain_card "c"].
Proof.
  apply (@fetch_batch_unrelaxed files_mixed [0; 0] 2
           [plain_card "a"; image_card "i"; plain_card "b"; plain_card "c"]).
  - reflexivity.
  - vm_compute. discriminate.
  - reflexivity.
Defined.

Lemma fetch_batch_negative_count_witness :
  fetch_batch_questions files_one [] (-1) = Raise ValueError.
Proof.
  apply (@fetch_batch_negative_count files_one [] (-1)%Z). reflexivity.
Defined.

Lemma front_block_centred_witness :
  (inject_Z 220 <= pos_y plain_front_first)%Q
  /\ (pos_y plain_front_first + inject_Z 75 <= inject_Z 1170)%Q.
Proof.
  assert (Hr : render_card_front test_fonts (plain_card "a") = Ok plain_front_draws)
    by (vm_compute; reflexivity).
  assert (Hn : nth_error plain_front_draws 0 = Some plain_front_first) by reflexivity.
  apply (proj2 (proj2 (@front_block_centred test_fonts (plain_card "a")
                         plain_front_draws 0 plain_front_first Hr Hn))).
  - vm_compute. discriminate.
  - vm_compute. discriminate.
Defined.

Lemma explanation_block_inside_witness :
  len wordy_explanation_draws = Z.min (len wordy_explanation_lines) (570 / 72)
  /\ forall i d, nth_error wordy_explanation_draws i = Some d ->
       pos_x d = inject_Z 120
       /\ pos_y d = inject_Z (560 + Z.of_nat i * 72)
       /\ (560 + Z.of_nat i * 72 + 72 <= 1130)%Z.
Proof.
  assert (Hr : render_explanation test_fonts wordy_card = Ok wordy_explanation_draws)
    by (vm_compute; reflexivity).
  assert (Hw : wrap_text (Some (clean_text (Some (get_or (explanation wordy_card) []))))
                 (test_fonts 28%Z Regular) 840
               = Ok wordy_explanation_lines)
    by (vm_compute; reflexivity).
  assert (Hp : (0 < 72)%Z) by reflexivity.
  exact (@explanation_block_inside test_fonts wordy_card wordy_explanation_draws
           wordy_explanation_lines Hr Hw Hp).
Defined.

Lemma answer_lines_positions_witness :
  pos_x wordy_answer_third = inject_Z 120
  /\ pos_y wordy_answer_third = inject_Z (310 + 60 * Z.of_nat 2)
  /\ 2 <= 2.
Proof.
  assert (Hr : render_answer test_fonts wordy_card = Ok wordy_answer_draws)
    by (vm_compute; reflexivity).
  assert (Hn : nth_error wordy_answer_draws 2 = Some wordy_answer_third) by reflexivity.
  exact (@answer_lines_positions test_fonts wordy_card wordy_answer_draws 2
           wordy_answer_third Hr Hn).
Defined.

Lemma sample_batch_runs :
  render_batch test_fonts [0; 0; 0; 0; 0] sample_date sample_disk
  = (sample_disk_after, Ok (Some 2)).
Proof. vm_compute. reflexivity. Qed.

Lemma render_batch_saved_witness :
  exists batch,
    fetch_batch_questions (inputs sample_disk) [0; 0; 0; 0; 0] BATCH_SIZE = Ok batch
    /\ 2 = length batch
    /\ 1 <= 2 <= 5
    /\ daily_flashcards sample_disk_after
       = Some {| manifest_date := sample_date;
                 manifest_cards :=
                   map (fun entry =>
                          result_entry (OUTPUT_DIR (home sample_disk))
                            (fst entry) (snd entry))
                       (combine (seq 0 2) batch) |}
    /\ forall k card, nth_error batch k = Some card ->
         (exists img_f,
            render_card_front test_fonts card = Ok img_f
            /\ read_image
                 (os_path_join (OUTPUT_DIR (home sample_disk)) [front_name (k + 1)])
                 (images sample_disk_after)
               = Some (FrontFace img_f))
         /\ (exists ans expl,
               render_card_back test_fonts card = Ok (ans, expl)
               /\ read_image
                    (os_path_join (OUTPUT_DIR (home sample_disk)) [back_name (k + 1)])
                    (images sample_disk_after)
                  = Some (BackFace ans expl))
         /\ In (id card) (load_history (history (inputs sample_disk_after))).
Proof.
  exact (@render_batch_saved test_fonts [0; 0; 0; 0; 0] sample_date sample_disk
           sample_disk_after 2 sample_batch_runs).
Defined.

Lemma render_batch_history_witness :
  bank (inputs sample_disk_after) = bank (inputs sample_disk)
  /\ (exists added,
        load_history (history (inputs sample_disk_after))
        = load_history (history (inputs sample_disk)) ++ added)
  /\ (NoDup (load_history (history (inputs sample_disk)))
      -> NoDup (load_history (history (inputs sample_disk_after)))).
Proof.
  exact (@render_batch_history test_fonts [0; 0; 0; 0; 0] sample_date sample_disk
           sample_disk_after (Ok (Some 2)) sample_batch_runs).
Defined.


